(** * Crossword generator (CS50AI, 3 Optimization/crossword/generate.py)

    A shallow embedding of [CrosswordCreator]: node consistency, [revise],
    [ac3], the search heuristics and [backtrack], with the properties of the
    constraint solver proved over it.

    Python values are modelled as follows.
    - A [set] of words is the list of its elements in iteration order,
      without duplicates; removing an element keeps the order of the others.
    - A [dict] is an association list in insertion order, with unique keys.
    - An exception is an outcome [Raise]; a loop that the model bounds by
      fuel yields [OutOfFuel] when the bound is hit.
    - [self.domains] is the state threaded through the methods. *)

From Stdlib Require Import List String Ascii Arith Bool Lia Permutation Sorted.
Import ListNotations.
Local Open Scope string_scope.
Local Open Scope list_scope.
Local Open Scope nat_scope.

(** ** Python primitives *)

Module Py.

Inductive exn : Type := IndexError | KeyError | TypeError.

Inductive outcome (A : Type) : Type :=
| Ok (a : A)
| Raise (e : exn)
| OutOfFuel.
Arguments Ok {A} a.
Arguments Raise {A} e.
Arguments OutOfFuel {A}.

Definition obind {A B : Type} (c : outcome A) (k : A -> outcome B) : outcome B :=
  match c with
  | Ok a => k a
  | Raise e => Raise e
  | OutOfFuel => OutOfFuel
  end.

(** [s[n]] for a string: [IndexError] when [n] is out of range. *)
Definition str_index (s : string) (n : nat) : outcome ascii :=
  match String.get n s with
  | Some c => Ok c
  | None => Raise IndexError
  end.

(** [l[n]] for a list. *)
Definition list_index {A : Type} (l : list A) (n : nat) : outcome A :=
  match nth_error l n with
  | Some a => Ok a
  | None => Raise IndexError
  end.

(** [enumerate(l)] *)
Fixpoint enumerate_from {A : Type} (n : nat) (l : list A) : list (nat * A) :=
  match l with
  | [] => []
  | a :: l' => (n, a) :: enumerate_from (S n) l'
  end.

Definition enumerate {A : Type} (l : list A) : list (nat * A) := enumerate_from 0 l.

(** [itertools.combinations(l, 2)]: the pairs [(l[a], l[b])] with [a < b],
    in lexicographic order of the positions. *)
Fixpoint combinations2 {A : Type} (l : list A) : list (A * A) :=
  match l with
  | [] => []
  | a :: l' => map (fun b => (a, b)) l' ++ combinations2 l'
  end.

(** [sorted(l, key=key)]: the stable sort by ascending key. An element
    goes before the elements to its right that have the same key. *)
Fixpoint insert_by {A : Type} (key : A -> nat) (a : A) (l : list A) : list A :=
  match l with
  | [] => [a]
  | b :: l' => if key b <? key a then b :: insert_by key a l' else a :: b :: l'
  end.

Fixpoint sorted_by {A : Type} (key : A -> nat) (l : list A) : list A :=
  match l with
  | [] => []
  | a :: l' => insert_by key a (sorted_by key l')
  end.

(** *** Sets of words *)

Definition set_mem (w : string) (d : list string) : bool :=
  existsb (String.eqb w) d.

(** [d.remove(w)]: [KeyError] when [w] is not a member. *)
Definition set_remove (w : string) (d : list string) : outcome (list string) :=
  if set_mem w d then Ok (filter (fun w' => negb (String.eqb w w')) d)
  else Raise KeyError.

(** *** Dictionaries *)

Section Dict.
Context {K V : Type}.
Variable keq : K -> K -> bool.

Definition dict : Type := list (K * V).

Fixpoint dict_get (k : K) (d : dict) : option V :=
  match d with
  | [] => None
  | (k', v) :: d' => if keq k k' then Some v else dict_get k d'
  end.

Definition dict_mem (k : K) (d : dict) : bool :=
  match dict_get k d with Some _ => true | None => false end.

Definition dict_keys (d : dict) : list K := map fst d.

(** [d[k] = v]: the value is replaced in place, a new key goes last. *)
Fixpoint dict_set (k : K) (v : V) (d : dict) : dict :=
  match d with
  | [] => [(k, v)]
  | (k', v') :: d' =>
      if keq k k' then (k', v) :: d' else (k', v') :: dict_set k v d'
  end.

(** [d.pop(k)]: [KeyError] when the key is absent. *)
Definition dict_pop (k : K) (d : dict) : outcome dict :=
  if dict_mem k d then Ok (filter (fun kv => negb (keq k (fst kv))) d)
  else Raise KeyError.
End Dict.

End Py.
Import Py.

Notation "'let!' x ':=' c 'in' k" := (obind c (fun x => k))
  (at level 10, x name, c at level 100, k at level 200).

(** ** The grid model (crossword.py) *)

Inductive Direction : Type := ACROSS | DOWN.

(** Modelled from the spec: [class Variable] of crossword.py, the Slot
    of the data model. A slot has a starting row and column, a direction
    and a length, and two slots are equal when the four agree. *)
Record Var : Type := mkVar {
  var_i : nat;
  var_j : nat;
  var_direction : Direction;
  var_length : nat
}.

Definition direction_eqb (a b : Direction) : bool :=
  match a, b with
  | ACROSS, ACROSS | DOWN, DOWN => true
  | _, _ => false
  end.

Definition var_eqb (a b : Var) : bool :=
  (var_i a =? var_i b) && (var_j a =? var_j b)
  && direction_eqb (var_direction a) (var_direction b)
  && (var_length a =? var_length b).

(** Modelled from the spec: [class Crossword] of crossword.py, the Grid
    Model. The solver reads four attributes of it, which are taken as
    given: the set of slots, the vocabulary, the overlap table ([None]
    for slots that do not cross) and the neighbours of a slot. The sets
    are lists in iteration order. *)
Record Crossword : Type := mkCrossword {
  variables : list Var;
  words : list string;
  overlaps : Var -> Var -> option (nat * nat);
  neighbors : Var -> list Var
}.

Definition mem_var (v : Var) (l : list Var) : bool := existsb (var_eqb v) l.

Fixpoint nodup_varb (l : list Var) : bool :=
  match l with
  | [] => true
  | v :: l' => negb (mem_var v l') && nodup_varb l'
  end.

Fixpoint nodup_strb (l : list string) : bool :=
  match l with
  | [] => true
  | w :: l' => negb (set_mem w l') && nodup_strb l'
  end.

Definition is_some {A : Type} (o : option A) : bool :=
  match o with Some _ => true | None => false end.

(** Modelled from the spec: what a Grid Model provides, as a check that
    runs:
    - slots and vocabulary are sets;
    - an overlap of [x] with [y] lies inside both slots, and [y] then
      overlaps [x] as well; no slot overlaps itself;
    - [neighbors v] is the set of the other slots that overlap [v]. *)
Definition overlap_ok (cw : Crossword) (x y : Var) : bool :=
  match overlaps cw x y with
  | None => true
  | Some (a, b) =>
      (a <? var_length x) && (b <? var_length y)
      && negb (var_eqb x y) && is_some (overlaps cw y x)
  end.

Definition neighbors_ok (cw : Crossword) (v : Var) : bool :=
  nodup_varb (neighbors cw v)
  && forallb (fun n => mem_var n (variables cw) && negb (var_eqb n v)
                       && is_some (overlaps cw n v)) (neighbors cw v)
  && forallb (fun n => implb (negb (var_eqb n v) && is_some (overlaps cw n v))
                             (mem_var n (neighbors cw v))) (variables cw).

Definition well_formed (cw : Crossword) : bool :=
  nodup_varb (variables cw) && nodup_strb (words cw)
  && forallb (fun x => forallb (overlap_ok cw x) (variables cw)) (variables cw)
  && forallb (neighbors_ok cw) (variables cw).

(** ** The solver: class CrosswordCreator *)

(** An assignment is a [dict] from slots to words. *)
Definition assignment : Type := list (Var * string).

(** The attributes of [self] that change. [backtrack_calls] is a ghost
    field: it counts the entries into [backtrack] and is read by no
    method. *)
Record CrosswordCreator : Type := mkCreator {
  domains : list (Var * list string);
  backtrack_calls : nat
}.

(** A method is a state transformer that may raise. *)
Definition M (A : Type) : Type := CrosswordCreator -> outcome (A * CrosswordCreator).

Definition ret {A : Type} (a : A) : M A := fun s => Ok (a, s).

Definition bind {A B : Type} (c : M A) (k : A -> M B) : M B :=
  fun s =>
    match c s with
    | Ok (a, s') => k a s'
    | Raise e => Raise e
    | OutOfFuel => OutOfFuel
    end.

Definition lift {A : Type} (c : outcome A) : M A :=
  fun s =>
    match c with
    | Ok a => Ok (a, s)
    | Raise e => Raise e
    | OutOfFuel => OutOfFuel
    end.

Notation "x <- c ;; k" := (bind c (fun x => k))
  (at level 61, c at next level, right associativity).
Notation "c ;; k" := (bind c (fun _ => k))
  (at level 61, right associativity).

(** [self.domains] *)
Definition get_domains : M (list (Var * list string)) :=
  fun s => Ok (domains s, s).

(** [self.domains[v]] *)
Definition get_domain (v : Var) : M (list string) :=
  fun s =>
    match dict_get var_eqb v (domains s) with
    | Some d => Ok (d, s)
    | None => Raise KeyError
    end.

(** The set object held at [self.domains[v]] takes the value [d]. *)
Definition put_domain (v : Var) (d : list string) : M unit :=
  fun s => Ok (tt, mkCreator (dict_set var_eqb v d (domains s)) (backtrack_calls s)).

(** [self.domains[v].remove(word)] *)
Definition domain_remove (v : Var) (word : string) : M unit :=
  d <- get_domain v ;;
  d' <- lift (set_remove word d) ;;
  put_domain v d'.

Definition tick_backtrack : M unit :=
  fun s => Ok (tt, mkCreator (domains s) (S (backtrack_calls s))).

Fixpoint for_each {A : Type} (l : list A) (body : A -> M unit) : M unit :=
  match l with
  | [] => ret tt
  | a :: l' => body a ;; for_each l' body
  end.

Fixpoint omap {A B : Type} (f : A -> outcome B) (l : list A) : outcome (list B) :=
  match l with
  | [] => Ok []
  | a :: l' => let! b := f a in let! bs := omap f l' in Ok (b :: bs)
  end.

(** [__init__]: every slot starts with a copy of the vocabulary. *)
Definition init_creator (cw : Crossword) : CrosswordCreator :=
  mkCreator (map (fun var => (var, words cw)) (variables cw)) 0.

Section Creator.

Variable cw : Crossword.

(** *** enforce_node_consistency *)

Definition enforce_node_consistency : M unit :=
  ds <- get_domains ;;
  for_each (dict_keys ds) (fun v =>
    d <- get_domain v ;;
    let words_to_remove :=
      filter (fun word => negb (String.length word =? var_length v)) d in
    for_each words_to_remove (domain_remove v)).

(** *** revise *)

(** The loop over [self.domains[y]]; the result is the flag [ac]. *)
Fixpoint revise_inner (word_x : string) (i j : nat) (dy : list string)
    (ac : bool) : outcome bool :=
  match dy with
  | [] => Ok ac
  | word_y :: dy' =>
      let! cx := str_index word_x i in
      let! cy := str_index word_y j in
      if Ascii.eqb cx cy then
        if String.eqb word_x word_y then revise_inner word_x i j dy' ac
        else Ok true
      else revise_inner word_x i j dy' ac
  end.

(** The loop over [self.domains[x]]; the result is [remove_from_x]. *)
Fixpoint revise_outer (y : Var) (i j : nat) (dx : list string)
    (remove_from_x : list string) (ac : bool) : M (list string) :=
  match dx with
  | [] => ret remove_from_x
  | word_x :: dx' =>
      dy <- get_domain y ;;
      ac' <- lift (revise_inner word_x i j dy ac) ;;
      if ac' then revise_outer y i j dx' remove_from_x false
      else revise_outer y i j dx' (remove_from_x ++ [word_x]) ac'
  end.

Definition revise (x y : Var) : M bool :=
  match overlaps cw x y with
  | None => ret false
  | Some (i, j) =>
      dx <- get_domain x ;;
      remove_from_x <- revise_outer y i j dx [] false ;;
      if List.length remove_from_x =? 0 then ret false
      else for_each remove_from_x (domain_remove x) ;; ret true
  end.

(** *** ac3 *)

(** The arcs the default call starts from. *)
Definition initial_arcs (ds : list (Var * list string)) : list (Var * Var) :=
  combinations2 (dict_keys ds).

(** The [while] loop, bounded by [fuel] iterations. *)
Fixpoint ac3_loop (fuel : nat) (arcs : list (Var * Var)) : M bool :=
  match arcs with
  | [] => ret true
  | (x, y) :: arcs' =>
      match fuel with
      | 0 => fun _ => OutOfFuel
      | S fuel' =>
          revised <- revise x y ;;
          if revised then
            dx <- get_domain x ;;
            if List.length dx =? 0 then ret false
            else
              ac3_loop fuel'
                (arcs' ++ map (fun neighbor => (neighbor, x))
                            (filter (fun neighbor => negb (var_eqb neighbor y))
                                    (neighbors cw x)))
          else ac3_loop fuel' arcs'
      end
  end.

Definition total_size (ds : list (Var * list string)) : nat :=
  list_sum (map (fun kv => List.length (snd kv)) ds).

Definition max_degree (keys : list Var) : nat :=
  list_max (map (fun v => List.length (neighbors cw v)) keys).

(** A number of iterations the loop cannot exceed: an iteration either
    drops an arc, or removes a word and adds at most [max_degree] arcs. *)
Definition ac3_fuel (ds : list (Var * list string)) (arcs : list (Var * Var)) : nat :=
  List.length arcs + S (max_degree (dict_keys ds)) * total_size ds.

Definition ac3 (arcs : option (list (Var * Var))) : M bool :=
  ds <- get_domains ;;
  let arcs :=
    match arcs with
    | None => initial_arcs ds
    | Some arcs => arcs
    end in
  ac3_loop (ac3_fuel ds arcs) arcs.

(** *** assignment_complete *)

Definition assignment_complete (a : assignment) : M bool :=
  ds <- get_domains ;;
  ret (forallb (fun v => dict_mem var_eqb v a) (dict_keys ds)).

(** *** consistent *)

Fixpoint consistent_unary (items : assignment) (seen_words : list string) : bool :=
  match items with
  | [] => true
  | (v, word) :: items' =>
      if negb (String.length word =? var_length v) then false
      else if set_mem word seen_words then false
      else consistent_unary items' (word :: seen_words)
  end.

Fixpoint consistent_neighbors (a : assignment) (v : Var) (word : string)
    (ns : list Var) : outcome bool :=
  match ns with
  | [] => Ok true
  | neighbor :: ns' =>
      match dict_get var_eqb neighbor a with
      | None => consistent_neighbors a v word ns'
      | Some word_n =>
          match overlaps cw v neighbor with
          | None => consistent_neighbors a v word ns'
          | Some (p, q) =>
              let! cv := str_index word p in
              let! cn := str_index word_n q in
              if negb (Ascii.eqb cv cn) then Ok false
              else consistent_neighbors a v word ns'
          end
      end
  end.

Fixpoint consistent_overlaps (a : assignment) (items : assignment) : outcome bool :=
  match items with
  | [] => Ok true
  | (v, word) :: items' =>
      let! ok := consistent_neighbors a v word (neighbors cw v) in
      if ok then consistent_overlaps a items' else Ok false
  end.

Definition consistent (a : assignment) : M bool :=
  if consistent_unary a [] then lift (consistent_overlaps a a) else ret false.

(** *** order_domain_values *)

(** [eliminations_per_word[word] += 1] *)
Definition dict_incr (word : string) (e : list (string * nat))
    : outcome (list (string * nat)) :=
  match dict_get String.eqb word e with
  | Some n => Ok (dict_set String.eqb word (n + 1) e)
  | None => Raise KeyError
  end.

(** The loop over the words of one neighbour; [ov] is
    [self.crossword.overlaps[var, neighbor]]. *)
Fixpoint odv_words (word : string) (ov : option (nat * nat))
    (neighbor_words : list string) (e : list (string * nat))
    : outcome (list (string * nat)) :=
  match neighbor_words with
  | [] => Ok e
  | neighbor_word :: rest =>
      if String.eqb word neighbor_word then
        let! e' := dict_incr word e in odv_words word ov rest e'
      else
        match ov with
        | None => Raise TypeError
        | Some (p, q) =>
            let! cv := str_index word p in
            let! cn := str_index neighbor_word q in
            if negb (Ascii.eqb cv cn) then
              let! e' := dict_incr word e in odv_words word ov rest e'
            else odv_words word ov rest e
        end
  end.

Fixpoint odv_neighbors (var : Var) (a : assignment) (word : string)
    (ns : list Var) (e : list (string * nat)) : M (list (string * nat)) :=
  match ns with
  | [] => ret e
  | neighbor :: ns' =>
      if dict_mem var_eqb neighbor a then odv_neighbors var a word ns' e
      else
        dn <- get_domain neighbor ;;
        e' <- lift (odv_words word (overlaps cw var neighbor) dn e) ;;
        odv_neighbors var a word ns' e'
  end.

Fixpoint odv_outer (var : Var) (a : assignment) (ws : list string)
    (e : list (string * nat)) : M (list (string * nat)) :=
  match ws with
  | [] => ret e
  | word :: ws' =>
      e' <- odv_neighbors var a word (neighbors cw var) e ;;
      odv_outer var a ws' e'
  end.

Definition order_domain_values (var : Var) (a : assignment) : M (list string) :=
  d <- get_domain var ;;
  let eliminations_per_word :=
    fold_left (fun e word => dict_set String.eqb word 0 e) d [] in
  d' <- get_domain var ;;
  e <- odv_outer var a d' eliminations_per_word ;;
  ret (map fst (sorted_by snd e)).

(** *** select_unassigned_variable *)

Fixpoint select_min_loop (l : list (nat * Var)) (min_domain_size : nat)
    (min_domain_indexes : list nat) : M (nat * list nat) :=
  match l with
  | [] => ret (min_domain_size, min_domain_indexes)
  | (v, var) :: l' =>
      d <- get_domain var ;;
      if List.length d <? min_domain_size then
        select_min_loop l' (List.length d) [v]
      else if List.length d =? min_domain_size then
        select_min_loop l' min_domain_size (min_domain_indexes ++ [v])
      else select_min_loop l' min_domain_size min_domain_indexes
  end.

Fixpoint max_neighbors_loop (l : list (nat * nat)) (max_neighbors_index : nat) : nat :=
  match l with
  | [] => max_neighbors_index
  | (i, num) :: l' =>
      if max_neighbors_index <? num then max_neighbors_loop l' i
      else max_neighbors_loop l' max_neighbors_index
  end.

Definition select_unassigned_variable (a : assignment) : M Var :=
  ds <- get_domains ;;
  let remaining_vars :=
    filter (fun var => negb (dict_mem var_eqb var a)) (dict_keys ds) in
  var0 <- lift (list_index remaining_vars 0) ;;
  d0 <- get_domain var0 ;;
  r <- select_min_loop (enumerate remaining_vars) (List.length d0) [0] ;;
  let min_domain_indexes := snd r in
  if List.length min_domain_indexes =? 1 then
    index <- lift (list_index min_domain_indexes 0) ;;
    lift (list_index remaining_vars index)
  else
    num_neighbors <-
      lift (omap (fun index =>
                    let! var := list_index remaining_vars index in
                    Ok (List.length (neighbors cw var)))
                 min_domain_indexes) ;;
    let max_neighbors_index := max_neighbors_loop (enumerate num_neighbors) 0 in
    index <- lift (list_index min_domain_indexes max_neighbors_index) ;;
    lift (list_index remaining_vars index).

(** *** backtrack *)

(** The loop over the ordered words. [rec] is the recursive call. The
    assignment is one shared dict: each step works on the value the
    previous step left in it. *)
Fixpoint try_words (rec : assignment -> M (bool * assignment))
    (current_var : Var) (ws : list string) (a : assignment)
    : M (bool * assignment) :=
  match ws with
  | [] => ret (false, a)
  | word :: ws' =>
      let a1 := dict_set var_eqb current_var word a in
      ok <- consistent a1 ;;
      if ok then
        r <- rec a1 ;;
        if fst r then ret r
        else
          a2 <- lift (dict_pop var_eqb current_var (snd r)) ;;
          try_words rec current_var ws' a2
      else
        a2 <- lift (dict_pop var_eqb current_var a1) ;;
        try_words rec current_var ws' a2
  end.

(** The result pairs "the returned value is not None" with the final
    value of the dict that was passed in, which is also the dict that a
    successful call returns. [fuel] bounds the depth of the recursion. *)
Fixpoint backtrack (fuel : nat) (a : assignment) : M (bool * assignment) :=
  match fuel with
  | 0 => fun _ => OutOfFuel
  | S fuel' =>
      tick_backtrack ;;
      complete <- assignment_complete a ;;
      if complete then ret (true, a)
      else
        current_var <- select_unassigned_variable a ;;
        ws <- order_domain_values current_var a ;;
        try_words (backtrack fuel') current_var ws a
  end.

(** *** solve *)

Definition solve : M (option assignment) :=
  enforce_node_consistency ;;
  ac3 None ;;
  ds <- get_domains ;;
  r <- backtrack (S (List.length ds)) [] ;;
  ret (if fst r then Some (snd r) else None).

End Creator.

(** ** Concrete grids *)

Module Examples.

(** An overlap table given by its entries; the neighbours are derived
    from it in the order of the slots. *)
Definition table_overlaps (t : list ((Var * Var) * (nat * nat))) (x y : Var)
    : option (nat * nat) :=
  dict_get (fun a b => var_eqb (fst a) (fst b) && var_eqb (snd a) (snd b)) (x, y) t.

Definition table_neighbors (vars : list Var)
    (t : list ((Var * Var) * (nat * nat))) (v : Var) : list Var :=
  filter (fun n => negb (var_eqb n v) && is_some (table_overlaps t n v)) vars.

Definition grid (vars : list Var) (ws : list string)
    (t : list ((Var * Var) * (nat * nat))) : Crossword :=
  mkCrossword vars ws (table_overlaps t) (table_neighbors vars t).

(** Two crossing slots: the second cell of the row is the first cell of
    the column. *)
Definition across0 : Var := mkVar 0 0 ACROSS 3.
Definition down1 : Var := mkVar 0 1 DOWN 3.

Definition cross_table : list ((Var * Var) * (nat * nat)) :=
  [((across0, down1), (1, 0)); ((down1, across0), (0, 1))].

Definition two_crossing : Crossword :=
  grid [across0; down1] ["CAT"; "DOG"; "ACT"] cross_table.

(** The same grid with a vocabulary that leaves a single word of length 3. *)
Definition one_word : Crossword :=
  grid [across0; down1] ["CAT"; "DOGS"; "AT"] cross_table.

(** A row crossed by two columns at its ends, and a separate row of
    length 4 below.
<<
      _ _ _ #
      _ # _ #
      _ # _ #
      # # # #
      _ _ _ _
>> *)
Definition row4 : Var := mkVar 4 0 ACROSS 4.
Definition row0 : Var := mkVar 0 0 ACROSS 3.
Definition col0 : Var := mkVar 0 0 DOWN 3.
Definition col2 : Var := mkVar 0 2 DOWN 3.

Definition fork : Crossword :=
  grid [row4; row0; col0; col2]
       ["TOT"; "TAT"; "TIT"; "ABLE"; "BAKE"; "CAKE"; "DAME"]
       [((row0, col0), (0, 0)); ((col0, row0), (0, 0));
        ((row0, col2), (2, 0)); ((col2, row0), (0, 2))].

(** States of the solver of [one_word]: after node consistency, and
    after the failed [ac3]. *)
Definition one_word_filtered : CrosswordCreator :=
  mkCreator [(across0, ["CAT"]); (down1, ["CAT"])] 0.

Definition one_word_failed : CrosswordCreator :=
  mkCreator [(across0, []); (down1, ["CAT"])] 0.

(** The state of the solver of [fork] when the search starts. *)
Definition fork_propagated : CrosswordCreator :=
  mkCreator [(row4, ["ABLE"; "BAKE"; "CAKE"; "DAME"]);
             (row0, ["TOT"; "TAT"; "TIT"]);
             (col0, ["TOT"; "TAT"; "TIT"]);
             (col2, ["TOT"; "TAT"; "TIT"])] 0.

(** The state of the solver of [two_crossing] after [ac3]. *)
Definition two_crossing_propagated : CrosswordCreator :=
  mkCreator [(across0, ["CAT"; "ACT"]); (down1, ["CAT"; "DOG"; "ACT"])] 0.

End Examples.

(** ** Notions the properties are stated with *)

(** The word [wy] supports [wx] across the overlap [(i, j)]: the letters
    at the shared cell agree and the two words differ. *)
Definition supports (i j : nat) (wx wy : string) : Prop :=
  exists c, String.get i wx = Some c /\ String.get j wy = Some c /\ wx <> wy.

Definition has_support (i j : nat) (dy : list string) (wx : string) : Prop :=
  exists wy, In wy dy /\ supports i j wx wy.

Definition supportsb (i j : nat) (wx wy : string) : bool :=
  match String.get i wx, String.get j wy with
  | Some a, Some b => Ascii.eqb a b && negb (String.eqb wx wy)
  | _, _ => false
  end.

Definition has_supportb (i j : nat) (dy : list string) (wx : string) : bool :=
  existsb (supportsb i j wx) dy.

(** The representation invariant of [self.domains]: a dict has unique
    keys, and every domain is a set. *)
Definition store_ok (s : CrosswordCreator) : Prop :=
  NoDup (dict_keys (domains s)) /\
  forall v d, dict_get var_eqb v (domains s) = Some d -> NoDup d.

(** Every word of every domain has the length of its slot. *)
Definition node_consistent (ds : list (Var * list string)) : Prop :=
  forall v d w, dict_get var_eqb v ds = Some d -> In w d ->
    String.length w = var_length v.

(** The words of [d] that have the length of the slot [v]. *)
Definition of_length (v : Var) (d : list string) : list string :=
  filter (fun word => String.length word =? var_length v) d.

(** The state of a solver of the grid [cw] once the domains are node
    consistent. *)
Record creator_inv (cw : Crossword) (s : CrosswordCreator) : Prop := {
  inv_keys : dict_keys (domains s) = variables cw;
  inv_store : store_ok s;
  inv_node : node_consistent (domains s)
}.

(** The store [ds'] has the slots of [ds], each with a subset of its words. *)
Definition domains_shrunk (ds' ds : list (Var * list string)) : Prop :=
  dict_keys ds' = dict_keys ds /\
  forall v d', dict_get var_eqb v ds' = Some d' ->
    exists d, dict_get var_eqb v ds = Some d /\ incl d' d.

(** A complete assignment: every slot of the grid has a word. *)
Definition complete (cw : Crossword) (a : assignment) : Prop :=
  forall v, In v (variables cw) -> exists w, dict_get var_eqb v a = Some w.

(** A (partial) assignment is globally consistent: each word has the
    length of its slot, the words of two slots differ, and two crossing
    slots agree on the letter of the shared cell. *)
Record globally_consistent (cw : Crossword) (a : assignment) : Prop := {
  gc_length : forall v w,
    In v (variables cw) -> dict_get var_eqb v a = Some w ->
    String.length w = var_length v;
  gc_distinct : forall x y wx wy,
    In x (variables cw) -> In y (variables cw) -> x <> y ->
    dict_get var_eqb x a = Some wx -> dict_get var_eqb y a = Some wy ->
    wx <> wy;
  gc_overlap : forall x y i j wx wy,
    In x (variables cw) -> In y (variables cw) ->
    overlaps cw x y = Some (i, j) ->
    dict_get var_eqb x a = Some wx -> dict_get var_eqb y a = Some wy ->
    String.get i wx = String.get j wy
}.

(** The words of the assignment are taken from the domains [ds]. *)
Definition drawn_from (cw : Crossword) (ds : list (Var * list string))
    (a : assignment) : Prop :=
  forall v w, In v (variables cw) -> dict_get var_eqb v a = Some w ->
    exists d, dict_get var_eqb v ds = Some d /\ In w d.

(** A solution of the puzzle: a consistent complete assignment of words
    of the vocabulary. *)
Definition is_solution (cw : Crossword) (a : assignment) : Prop :=
  complete cw a /\ globally_consistent cw a /\
  drawn_from cw (domains (init_creator cw)) a.

(** The slot [var] has a domain of [m] words in the state [s]. *)
Definition sized (s : CrosswordCreator) (var : Var) (m : nat) : Prop :=
  exists d, dict_get var_eqb var (domains s) = Some d /\ List.length d = m.

(** The slots of the store that the assignment leaves open. *)
Definition unassigned (s : CrosswordCreator) (a : assignment) : list Var :=
  filter (fun var => negb (dict_mem var_eqb var a)) (dict_keys (domains s)).

(** The grid's slots are the ones named by arcs. *)
Definition arcs_in_grid (cw : Crossword) (arcs : list (Var * Var)) : Prop :=
  Forall (fun arc => In (fst arc) (variables cw) /\ In (snd arc) (variables cw)) arcs.

(** The agreement that the inner loop of [consistent] checks for the
    slot [v] holding [word]: the assigned slots among [ns] that cross
    [v] have the same letter at the shared cell. *)
Definition agrees_with (cw : Crossword) (a : assignment) (v : Var) (word : string)
    (ns : list Var) : Prop :=
  forall n wn p q,
    In n ns -> dict_get var_eqb n a = Some wn -> overlaps cw v n = Some (p, q) ->
    String.get p word = String.get q wn.

(** Choosing [word] eliminates the candidate [nw] of a neighbour that
    crosses at the offsets [ov]: it is the same word, or the letters at
    the shared cell differ. *)
Definition eliminates (ov : nat * nat) (word nw : string) : bool :=
  String.eqb word nw ||
  match String.get (fst ov) word, String.get (snd ov) nw with
  | Some c, Some c' => negb (Ascii.eqb c c')
  | _, _ => false
  end.

(** The candidates of the neighbour [n] that [word] in [var] eliminates. *)
Definition neighbor_eliminations (cw : Crossword) (ds : list (Var * list string))
    (var : Var) (word : string) (n : Var) : nat :=
  match overlaps cw var n, dict_get var_eqb n ds with
  | Some ov, Some dn => List.length (filter (eliminates ov word) dn)
  | _, _ => 0
  end.

(** The number of candidates that [word] in [var] eliminates from the
    domains of the neighbours of [var] that have no word yet. *)
Definition eliminations (cw : Crossword) (ds : list (Var * list string))
    (a : assignment) (var : Var) (word : string) : nat :=
  list_sum (map (neighbor_eliminations cw ds var word)
                (filter (fun n => negb (dict_mem var_eqb n a)) (neighbors cw var))).

(** The assignment [a'] has every word of [a]. *)
Definition extends (a a' : assignment) : Prop :=
  forall v w, dict_get var_eqb v a = Some w -> dict_get var_eqb v a' = Some w.

(** What holds of the assignment at each call of [backtrack]: it is a
    dict over slots of the grid, globally consistent, with words of the
    domains [ds]. *)
Record search_state (cw : Crossword) (ds : list (Var * list string))
    (a : assignment) : Prop := {
  st_nodup : NoDup (dict_keys a);
  st_keys : incl (dict_keys a) (variables cw);
  st_consistent : globally_consistent cw a;
  st_from : drawn_from cw ds a
}.

(** No consistent complete assignment over the domains [ds] has the
    words of [a]. *)
Definition no_completion (cw : Crossword) (ds : list (Var * list string))
    (a : assignment) : Prop :=
  forall a', complete cw a' -> globally_consistent cw a' -> drawn_from cw ds a' ->
             extends a a' -> False.

(** The outcome [o] of a search from [a] in the state [s]: a pair of a
    flag and the final assignment, reached without a change of the
    domains. With the flag set the assignment is a completion of [a];
    otherwise it is [a] again, and [a] has no completion. *)
Definition search_result (cw : Crossword) (s : CrosswordCreator) (a : assignment)
    (o : outcome ((bool * assignment) * CrosswordCreator)) : Prop :=
  exists b a' s',
    o = Ok ((b, a'), s') /\ domains s' = domains s /\
    (b = true -> complete cw a' /\ search_state cw (domains s) a' /\ extends a a') /\
    (b = false -> a' = a /\ no_completion cw (domains s) a).

(** A method that leaves the state as it is, and one that leaves the
    domains as they are, whenever it returns. *)
Definition pure_method {A : Type} (c : M A) : Prop :=
  forall s r s', c s = Ok (r, s') -> s' = s.

Definition keeps_domains {A : Type} (c : M A) : Prop :=
  forall s r s', c s = Ok (r, s') -> domains s' = domains s.

(** The reading of [solve] that returns at once when [ac3] reports a
    failure: the search is not entered, so the number of entries into
    [backtrack] stays what it was. *)
Definition solve_skips_search (cw : Crossword) (s : CrosswordCreator) : Prop :=
  forall s1 s2 r s3,
    enforce_node_consistency s = Ok (tt, s1) ->
    ac3 cw None s1 = Ok (false, s2) ->
    solve cw s = Ok (r, s3) ->
    r = None /\ backtrack_calls s3 = backtrack_calls s.

(** ** letter_grid *)

(** [letters[i][j] = c] on a list of rows: [IndexError] when the row or
    the column does not exist. *)
Fixpoint list_set {A : Type} (n : nat) (a : A) (l : list A) : list A :=
  match l, n with
  | [], _ => []
  | _ :: l', 0 => a :: l'
  | b :: l', S n' => b :: list_set n' a l'
  end.

Definition grid_set (letters : list (list (option ascii))) (i j : nat) (c : ascii)
    : outcome (list (list (option ascii))) :=
  match nth_error letters i with
  | None => Raise IndexError
  | Some row =>
      if j <? List.length row then
        Ok (list_set i (list_set j (Some c) row) letters)
      else Raise IndexError
  end.

(** [letters[i][j]] *)
Definition grid_get (letters : list (list (option ascii))) (i j : nat)
    : outcome (option ascii) :=
  let! row := list_index letters i in list_index row j.

(** The cell of the [k]-th letter of a slot. *)
Definition cell_of (variable : Var) (k : nat) : nat * nat :=
  (var_i variable + match var_direction variable with DOWN => k | ACROSS => 0 end,
   var_j variable + match var_direction variable with ACROSS => k | DOWN => 0 end).

(** The loop over [range(len(word))]. *)
Fixpoint write_word (variable : Var) (word : string) (ks : list nat)
    (letters : list (list (option ascii))) : outcome (list (list (option ascii))) :=
  match ks with
  | [] => Ok letters
  | k :: ks' =>
      let! c := str_index word k in
      let! letters' := grid_set letters (fst (cell_of variable k))
                                (snd (cell_of variable k)) c in
      write_word variable word ks' letters'
  end.

(** The loop over [assignment.items()]. *)
Fixpoint write_words (items : assignment) (letters : list (list (option ascii)))
    : outcome (list (list (option ascii))) :=
  match items with
  | [] => Ok letters
  | (variable, word) :: items' =>
      let! letters' := write_word variable word (seq 0 (String.length word)) letters in
      write_words items' letters'
  end.

(** [letter_grid]; [height] and [width] are [self.crossword.height] and
    [self.crossword.width]. *)
Definition letter_grid (height width : nat) (a : assignment)
    : outcome (list (list (option ascii))) :=
  write_words a (repeat (repeat None width) height).

(** The letter that the slot [variable] holding [word] puts on the cell
    [(i, j)], if the slot covers the cell. *)
Definition letter_of (variable : Var) (word : string) (i j : nat) : option ascii :=
  match var_direction variable with
  | ACROSS =>
      if (i =? var_i variable) && (var_j variable <=? j) then
        String.get (j - var_j variable) word
      else None
  | DOWN =>
      if (j =? var_j variable) && (var_i variable <=? i) then
        String.get (i - var_i variable) word
      else None
  end.

(** The letter on a cell after the items were written in order: the one
    of the last slot that covers the cell. *)
Fixpoint last_letter (items : assignment) (i j : nat) (c : option ascii) : option ascii :=
  match items with
  | [] => c
  | (variable, word) :: items' =>
      last_letter items' i j
        (match letter_of variable word i j with Some c' => Some c' | None => c end)
  end.

(** Every cell of every word lies inside a grid of the given size. *)
Definition fits (height width : nat) (a : assignment) : Prop :=
  forall variable word k,
    In (variable, word) a -> k < String.length word ->
    fst (cell_of variable k) < height /\ snd (cell_of variable k) < width.

(** ** Arc consistency *)

(** Every word of the domain of [x] has a support in the domain of [y]. *)
Definition arc_consistent (cw : Crossword) (ds : list (Var * list string))
    (x y : Var) : Prop :=
  forall i j dx dy w,
    overlaps cw x y = Some (i, j) ->
    dict_get var_eqb x ds = Some dx -> dict_get var_eqb y ds = Some dy ->
    In w dx -> has_support i j dy w.

(** Modelled from the spec: the overlap of [y] with [x] is the overlap
    of [x] with [y] with the two offsets exchanged, the same cell seen
    from the other slot. *)
Definition overlaps_mirrored (cw : Crossword) : Prop :=
  forall x y i j,
    In x (variables cw) -> In y (variables cw) ->
    overlaps cw x y = Some (i, j) -> overlaps cw y x = Some (j, i).

(** The arcs that are not in the worklist are consistent. *)
Definition pending_ok (cw : Crossword) (ds : list (Var * list string))
    (arcs : list (Var * Var)) : Prop :=
  forall x y, In x (variables cw) -> In y (variables cw) ->
    In (x, y) arcs \/ arc_consistent cw ds x y.

(** ** More concrete inputs *)

Module Samples.

(** A grid without slots. *)
Definition no_slots : Crossword := Examples.grid [] ["CAT"] [].

(** A solution of [Examples.two_crossing]. *)
Definition crossing_solution : assignment :=
  [(Examples.across0, "CAT"); (Examples.down1, "ACT")].

(** The store of [Examples.two_crossing] before node consistency, with a
    word that is too short for the overlap. *)
Definition short_word_store : CrosswordCreator :=
  mkCreator [(Examples.across0, ["A"; "CAT"]); (Examples.down1, ["ACT"])] 0.

End Samples.

(** A grid of [height] rows of [width] cells. *)
Definition shaped (height width : nat) (letters : list (list (option ascii))) : Prop :=
  List.length letters = height /\ Forall (fun row => List.length row = width) letters.

(** The position in the slot of the letter that lies on the cell
    [(i, j)], if the line of the slot passes through the cell. *)
Definition covering (variable : Var) (i j : nat) : option nat :=
  match var_direction variable with
  | ACROSS =>
      if (i =? var_i variable) && (var_j variable <=? j) then Some (j - var_j variable)
      else None
  | DOWN =>
      if (j =? var_j variable) && (var_i variable <=? i) then Some (i - var_i variable)
      else None
  end.

(** Modelled from the spec: the overlap table records the shared cell.
    When the [k]-th cell of [x] is the [k']-th cell of another slot
    [y], the entry of [(x, y)] is [(k, k')]. *)
Definition overlaps_are_shared_cells (cw : Crossword) : Prop :=
  forall x y k k',
    In x (variables cw) -> In y (variables cw) -> x <> y ->
    k < var_length x -> k' < var_length y ->
    cell_of x k = cell_of y k' ->
    overlaps cw x y = Some (k, k').

(** * Properties *)

(** ** Equality of slots and words *)

Lemma var_eqb_spec (a b : Var) : reflect (a = b) (var_eqb a b).
Proof.
  destruct a as [i1 j1 d1 l1], b as [i2 j2 d2 l2]; unfold var_eqb; simpl.
  destruct (Nat.eqb_spec i1 i2) as [->|Hi]; simpl; [|constructor; congruence].
  destruct (Nat.eqb_spec j1 j2) as [->|Hj]; simpl; [|constructor; congruence].
  destruct (Nat.eqb_spec l1 l2) as [->|Hl]; simpl;
    [|rewrite andb_false_r; constructor; congruence].
  rewrite andb_true_r.
  destruct d1, d2; simpl; constructor; congruence.
Qed.

Lemma var_eqb_refl (a : Var) : var_eqb a a = true.
Proof. destruct (var_eqb_spec a a); congruence. Qed.

Lemma var_eqb_neq (a b : Var) : a <> b -> var_eqb a b = false.
Proof. destruct (var_eqb_spec a b); congruence. Qed.

Lemma mem_var_In (v : Var) (l : list Var) : mem_var v l = true <-> In v l.
Proof.
  unfold mem_var. rewrite existsb_exists. split.
  - intros [x [Hx Heq]]. destruct (var_eqb_spec v x); congruence.
  - intros H. exists v. split; [assumption | apply var_eqb_refl].
Qed.

Lemma nodup_varb_NoDup (l : list Var) : nodup_varb l = true -> NoDup l.
Proof.
  induction l as [|v l IH]; simpl; intros H; constructor.
  - apply andb_prop in H. destruct H as [H _].
    intros Hin. apply mem_var_In in Hin. rewrite Hin in H. discriminate.
  - apply IH. apply andb_prop in H. tauto.
Qed.

Lemma set_mem_In (w : string) (d : list string) : set_mem w d = true <-> In w d.
Proof.
  unfold set_mem. rewrite existsb_exists. split.
  - intros [x [Hx Heq]]. apply String.eqb_eq in Heq. congruence.
  - intros H. exists w. split; [assumption | apply String.eqb_refl].
Qed.

Lemma set_mem_not_In (w : string) (d : list string) : set_mem w d = false <-> ~ In w d.
Proof.
  rewrite <- set_mem_In. destruct (set_mem w d); split; congruence.
Qed.

Lemma nodup_strb_NoDup (l : list string) : nodup_strb l = true -> NoDup l.
Proof.
  induction l as [|w l IH]; simpl; intros H; constructor.
  - apply andb_prop in H. destruct H as [H _].
    intros Hin. apply set_mem_In in Hin. rewrite Hin in H. discriminate.
  - apply IH. apply andb_prop in H. tauto.
Qed.

Lemma string_eqb_spec (a b : string) : reflect (a = b) (String.eqb a b).
Proof. apply String.eqb_spec. Qed.

(** ** Dictionaries *)

Section DictFacts.
Context {K V : Type}.
Variable keq : K -> K -> bool.
Hypothesis keq_spec : forall a b, reflect (a = b) (keq a b).

Lemma keq_refl (k : K) : keq k k = true.
Proof. destruct (keq_spec k k); congruence. Qed.

Lemma keq_neq (a b : K) : a <> b -> keq a b = false.
Proof. destruct (keq_spec a b); congruence. Qed.

Lemma dict_get_In (k : K) (v : V) (d : list (K * V)) :
  dict_get keq k d = Some v -> In (k, v) d.
Proof.
  induction d as [|[k' v'] d IH]; simpl; [discriminate|].
  destruct (keq_spec k k') as [->|Hne]; intros H.
  - left. congruence.
  - right. auto.
Qed.

Lemma dict_mem_In (k : K) (d : list (K * V)) :
  dict_mem keq k d = true <-> In k (dict_keys d).
Proof.
  unfold dict_mem. induction d as [|[k' v'] d IH]; simpl.
  - split; [discriminate | tauto].
  - destruct (keq_spec k k') as [->|Hne].
    + split; auto.
    + rewrite IH. split; [auto | intros [H|H]; congruence].
Qed.

Lemma dict_mem_false (k : K) (d : list (K * V)) :
  dict_mem keq k d = false <-> ~ In k (dict_keys d).
Proof.
  rewrite <- dict_mem_In. destruct (dict_mem keq k d); split; congruence.
Qed.

Lemma dict_get_None (k : K) (d : list (K * V)) :
  dict_get keq k d = None <-> ~ In k (dict_keys d).
Proof.
  rewrite <- dict_mem_false. unfold dict_mem.
  destruct (dict_get keq k d); split; congruence.
Qed.

Lemma In_dict_get (k : K) (v : V) (d : list (K * V)) :
  NoDup (dict_keys d) -> In (k, v) d -> dict_get keq k d = Some v.
Proof.
  induction d as [|[k' v'] d IH]; simpl; [tauto|].
  intros Hnd [Heq|Hin].
  - inversion Heq; subst. now rewrite keq_refl.
  - inversion Hnd; subst.
    destruct (keq_spec k k') as [->|Hne].
    + exfalso. apply H1. change k' with (fst (k', v)). now apply in_map.
    + auto.
Qed.

Lemma dict_get_set_same (k : K) (v : V) (d : list (K * V)) :
  dict_get keq k (dict_set keq k v d) = Some v.
Proof.
  induction d as [|[k' v'] d IH]; simpl.
  - now rewrite keq_refl.
  - destruct (keq_spec k k') as [->|Hne]; simpl.
    + now rewrite keq_refl.
    + now rewrite (keq_neq _ _ Hne).
Qed.

Lemma dict_get_set_other (k k' : K) (v : V) (d : list (K * V)) :
  k' <> k -> dict_get keq k' (dict_set keq k v d) = dict_get keq k' d.
Proof.
  intros Hne. induction d as [|[k1 v1] d IH]; simpl.
  - now rewrite (keq_neq _ _ Hne).
  - destruct (keq_spec k k1) as [->|Hne1]; simpl.
    + now rewrite (keq_neq _ _ Hne).
    + now rewrite IH.
Qed.

Lemma dict_keys_set_present (k : K) (v : V) (d : list (K * V)) :
  In k (dict_keys d) -> dict_keys (dict_set keq k v d) = dict_keys d.
Proof.
  induction d as [|[k1 v1] d IH]; simpl; [tauto|].
  intros Hin. destruct (keq_spec k k1) as [->|Hne]; simpl; [reflexivity|].
  f_equal. apply IH. destruct Hin; congruence.
Qed.

Lemma dict_set_absent (k : K) (v : V) (d : list (K * V)) :
  ~ In k (dict_keys d) -> dict_set keq k v d = d ++ [(k, v)].
Proof.
  induction d as [|[k1 v1] d IH]; simpl; [reflexivity|].
  intros Hnin. destruct (keq_spec k k1) as [->|Hne].
  - tauto.
  - f_equal. apply IH. tauto.
Qed.

Lemma dict_set_set (k : K) (v1 v2 : V) (d : list (K * V)) :
  dict_set keq k v2 (dict_set keq k v1 d) = dict_set keq k v2 d.
Proof.
  induction d as [|[k1 w] d IH]; simpl.
  - now rewrite keq_refl.
  - destruct (keq_spec k k1) as [->|Hne]; simpl.
    + now rewrite keq_refl.
    + rewrite (keq_neq _ _ Hne). now rewrite IH.
Qed.

Lemma filter_absent_key (k : K) (d : list (K * V)) :
  ~ In k (dict_keys d) -> filter (fun kv => negb (keq k (fst kv))) d = d.
Proof.
  induction d as [|[k1 w] d IH]; simpl; [reflexivity|].
  intros Hnin. destruct (keq_spec k k1) as [->|Hne]; simpl.
  - tauto.
  - f_equal. apply IH. tauto.
Qed.

(** Setting a new key and popping it gives the dict back. *)
Lemma dict_pop_set_absent (k : K) (v : V) (d : list (K * V)) :
  ~ In k (dict_keys d) -> dict_pop keq k (dict_set keq k v d) = Ok d.
Proof.
  intros Hnin. unfold dict_pop, dict_mem.
  rewrite dict_get_set_same, (dict_set_absent _ _ _ Hnin).
  rewrite filter_app, (filter_absent_key _ _ Hnin). simpl.
  rewrite keq_refl. simpl. now rewrite app_nil_r.
Qed.
End DictFacts.

(** ** Running methods *)

Lemma bind_ok {A B : Type} (c : M A) (k : A -> M B) s a s' :
  c s = Ok (a, s') -> bind c k s = k a s'.
Proof. unfold bind. now intros ->. Qed.

Lemma bind_inv {A B : Type} (c : M A) (k : A -> M B) s b s' :
  bind c k s = Ok (b, s') -> exists a s1, c s = Ok (a, s1) /\ k a s1 = Ok (b, s').
Proof.
  unfold bind. destruct (c s) as [[a s1]| |]; try discriminate.
  intros H. now exists a, s1.
Qed.

Lemma lift_ok {A : Type} (c : outcome A) a s : c = Ok a -> lift c s = Ok (a, s).
Proof. unfold lift. now intros ->. Qed.

Lemma lift_inv {A : Type} (c : outcome A) a s s' :
  lift c s = Ok (a, s') -> c = Ok a /\ s' = s.
Proof. unfold lift. destruct c; try discriminate. intros H. inversion H. auto. Qed.

Lemma get_domain_ok v d s :
  dict_get var_eqb v (domains s) = Some d -> get_domain v s = Ok (d, s).
Proof. unfold get_domain. now intros ->. Qed.

Lemma get_domain_inv v d s s' :
  get_domain v s = Ok (d, s') -> dict_get var_eqb v (domains s) = Some d /\ s' = s.
Proof.
  unfold get_domain. destruct (dict_get var_eqb v (domains s)); try discriminate.
  intros H. inversion H. auto.
Qed.

Lemma str_index_in_range (w : string) (n : nat) :
  n < String.length w -> exists c, String.get n w = Some c.
Proof.
  revert n. induction w as [|a w IH]; simpl; intros n Hn; [lia|].
  destruct n as [|n]; [now exists a|]. apply IH. lia.
Qed.

Lemma str_get_length (w : string) (n : nat) (c : ascii) :
  String.get n w = Some c -> n < String.length w.
Proof.
  revert n. induction w as [|a w IH]; simpl; intros n; [discriminate|].
  destruct n as [|n]; [lia|]. intros H. apply IH in H. lia.
Qed.

(** ** revise *)

Lemma supportsb_spec i j wx wy : supportsb i j wx wy = true <-> supports i j wx wy.
Proof.
  unfold supportsb, supports. split.
  - destruct (String.get i wx) as [a|]; [|discriminate].
    destruct (String.get j wy) as [b|]; [|discriminate].
    intros H. apply andb_prop in H. destruct H as [Hab Hne].
    apply Ascii.eqb_eq in Hab. subst b. exists a. repeat split.
    intros ->. rewrite String.eqb_refl in Hne. discriminate.
  - intros [c [-> [-> Hne]]]. rewrite Ascii.eqb_refl. simpl.
    apply String.eqb_neq in Hne. now rewrite Hne.
Qed.

Lemma has_supportb_spec i j dy wx :
  has_supportb i j dy wx = true <-> has_support i j dy wx.
Proof.
  unfold has_supportb, has_support. rewrite existsb_exists.
  split; intros [wy [Hin H]]; exists wy; split; auto; now apply supportsb_spec.
Qed.

Lemma revise_inner_spec word_x i j dy ac :
  i < String.length word_x ->
  Forall (fun w => j < String.length w) dy ->
  revise_inner word_x i j dy ac = Ok (ac || has_supportb i j dy word_x).
Proof.
  intros Hi Hj. induction Hj as [|word_y dy Hy Hj IH]; simpl.
  - now rewrite orb_false_r.
  - destruct (str_index_in_range _ _ Hi) as [cx Hcx].
    destruct (str_index_in_range _ _ Hy) as [cy Hcy].
    unfold str_index, supportsb. rewrite Hcx, Hcy. simpl.
    destruct (Ascii.eqb cx cy); simpl; [|exact IH].
    destruct (String.eqb word_x word_y); simpl; [exact IH|].
    now rewrite orb_true_r.
Qed.

Lemma revise_outer_spec y i j dy s :
  dict_get var_eqb y (domains s) = Some dy ->
  Forall (fun w => j < String.length w) dy ->
  forall dx remove_from_x,
    Forall (fun w => i < String.length w) dx ->
    revise_outer y i j dx remove_from_x false s
    = Ok (remove_from_x ++ filter (fun w => negb (has_supportb i j dy w)) dx, s).
Proof.
  intros Hy Hj dx. induction dx as [|word_x dx IH]; intros acc Hi; simpl.
  - unfold ret. now rewrite app_nil_r.
  - inversion Hi; subst.
    rewrite (bind_ok _ _ _ _ _ (get_domain_ok _ _ _ Hy)).
    rewrite (bind_ok _ _ _ _ _ (lift_ok _ _ _ (revise_inner_spec _ _ _ _ false H1 Hj))).
    simpl. destruct (has_supportb i j dy word_x); simpl.
    + now apply IH.
    + rewrite IH by assumption. now rewrite <- app_assoc.
Qed.

(** Removing the words of [rm] from the domain of [x], one by one. *)
Lemma for_each_domain_remove x rm :
  forall s d,
    dict_get var_eqb x (domains s) = Some d ->
    NoDup rm -> incl rm d ->
    for_each rm (domain_remove x) s
    = Ok (tt, mkCreator
                (dict_set var_eqb x (filter (fun w => negb (set_mem w rm)) d) (domains s))
                (backtrack_calls s)).
Proof.
  induction rm as [|w rm IH]; intros s d Hd Hnd Hincl; simpl.
  - unfold ret. f_equal. f_equal. destruct s as [ds n]; simpl in *. f_equal.
    assert (Hf : filter (fun _ : string => true) d = d).
    { clear. induction d; simpl; congruence. }
    rewrite Hf. clear - Hd. induction ds as [|[k v] ds IH]; simpl in *; [discriminate|].
    destruct (var_eqb x k); [congruence | f_equal; auto].
  - inversion Hnd; subst.
    assert (Hw : set_mem w d = true) by (apply set_mem_In, Hincl; now left).
    unfold domain_remove at 1.
    unfold bind at 1. unfold bind at 1. rewrite (get_domain_ok _ _ _ Hd).
    unfold bind at 1. unfold set_remove. rewrite Hw. simpl. unfold put_domain.
    rewrite (IH _ (filter (fun w' => negb (String.eqb w w')) d)); simpl.
    + rewrite dict_set_set by apply var_eqb_spec. f_equal. f_equal. f_equal. f_equal.
      clear. induction d as [|a d IHd]; simpl; [reflexivity|].
      rewrite (String.eqb_sym a w).
      destruct (String.eqb w a); simpl; [exact IHd|].
      destruct (set_mem a rm); simpl; [exact IHd | now rewrite IHd].
    + apply dict_get_set_same, var_eqb_spec.
    + assumption.
    + intros w' Hw'. apply filter_In. split.
      * apply Hincl. now right.
      * destruct (String.eqb_spec w w') as [->|]; [contradiction | reflexivity].
Qed.

Lemma dict_set_current {V : Type} (x : Var) (v : V) (d : list (Var * V)) :
  dict_get var_eqb x d = Some v -> dict_set var_eqb x v d = d.
Proof.
  induction d as [|[k u] d IH]; simpl; [discriminate|].
  destruct (var_eqb x k); intros H; [congruence | f_equal; auto].
Qed.

Lemma filter_all {A : Type} (P : A -> bool) (l : list A) :
  forallb P l = true -> filter P l = l.
Proof.
  induction l as [|a l IH]; simpl; [reflexivity|].
  intros H. apply andb_prop in H. destruct H as [-> H]. now rewrite IH.
Qed.

Lemma filter_neg_nil {A : Type} (P : A -> bool) (l : list A) :
  (List.length (filter (fun a => negb (P a)) l) =? 0) = forallb P l.
Proof.
  induction l as [|a l IH]; simpl; [reflexivity|].
  destruct (P a); simpl; [exact IH | reflexivity].
Qed.

Lemma filter_not_removed (P : string -> bool) (d : list string) :
  filter (fun w => negb (set_mem w (filter (fun a => negb (P a)) d))) d = filter P d.
Proof.
  apply filter_ext_in. intros w Hw.
  destruct (P w) eqn:HP; simpl.
  - apply negb_true_iff, set_mem_not_In. intros Hin.
    apply filter_In in Hin. rewrite HP in Hin. simpl in Hin. destruct Hin; discriminate.
  - apply negb_false_iff, set_mem_In, filter_In. rewrite HP. auto.
Qed.

(** What [revise] computes when no subscript is out of range. *)
Lemma revise_run (cw : Crossword) (x y : Var) (i j : nat) (dx dy : list string) s :
  overlaps cw x y = Some (i, j) ->
  dict_get var_eqb x (domains s) = Some dx ->
  dict_get var_eqb y (domains s) = Some dy ->
  NoDup dx ->
  Forall (fun w => i < String.length w) dx ->
  Forall (fun w => j < String.length w) dy ->
  revise cw x y s
  = Ok (negb (forallb (has_supportb i j dy) dx),
        mkCreator (dict_set var_eqb x (filter (has_supportb i j dy) dx) (domains s))
                  (backtrack_calls s)).
Proof.
  intros Hov Hx Hy Hnd Hi Hj. unfold revise. rewrite Hov.
  rewrite (bind_ok _ _ _ _ _ (get_domain_ok _ _ _ Hx)).
  rewrite (bind_ok _ _ _ _ _ (revise_outer_spec _ _ _ _ _ Hy Hj _ [] Hi)).
  simpl. rewrite filter_neg_nil.
  destruct (forallb (has_supportb i j dy) dx) eqn:Hall; simpl.
  - unfold ret. rewrite (filter_all _ _ Hall), (dict_set_current _ _ _ Hx).
    now destruct s.
  - erewrite bind_ok.
    2:{ apply for_each_domain_remove with (d := dx); auto.
        - now apply NoDup_filter.
        - intros w Hw. apply filter_In in Hw. tauto. }
    unfold ret. simpl. now rewrite filter_not_removed.
Qed.

(** C4. For crossing slots [x] and [y] with overlap [(i, j)], [revise]
    keeps in the domain of [x] exactly the words that some different word
    of the domain of [y] agrees with at the shared cell, leaves the other
    domains as they are, and returns [True] exactly when a word was
    removed. *)
Theorem revise_removes_unsupported (cw : Crossword) (x y : Var) (i j : nat)
    (dx dy : list string) (s : CrosswordCreator) :
  overlaps cw x y = Some (i, j) ->
  x <> y ->
  dict_get var_eqb x (domains s) = Some dx ->
  dict_get var_eqb y (domains s) = Some dy ->
  NoDup dx ->
  Forall (fun w => i < String.length w) dx ->
  Forall (fun w => j < String.length w) dy ->
  exists b s' dx',
    revise cw x y s = Ok (b, s') /\
    dict_get var_eqb x (domains s') = Some dx' /\
    (forall w, In w dx' <-> In w dx /\ has_support i j dy w) /\
    dict_get var_eqb y (domains s') = Some dy /\
    (forall z, z <> x -> dict_get var_eqb z (domains s') = dict_get var_eqb z (domains s)) /\
    dict_keys (domains s') = dict_keys (domains s) /\
    (b = true <-> exists w, In w dx /\ ~ In w dx').
Proof.
  intros Hov Hxy Hx Hy Hnd Hi Hj.
  eexists _, _, (filter (has_supportb i j dy) dx).
  split; [apply (revise_run cw x y i j dx dy s); assumption|]. simpl.
  split; [apply dict_get_set_same, var_eqb_spec|].
  split; [intros w; rewrite filter_In, has_supportb_spec; tauto|].
  split; [rewrite dict_get_set_other; auto using var_eqb_spec|].
  split; [intros z Hz; apply dict_get_set_other; auto using var_eqb_spec|].
  split.
  { apply dict_keys_set_present; [apply var_eqb_spec|].
    apply (dict_mem_In var_eqb var_eqb_spec). unfold dict_mem. now rewrite Hx. }
  rewrite negb_true_iff. split.
  - intros Hall.
    assert (Hex : existsb (fun w => negb (has_supportb i j dy w)) dx = true).
    { clear - Hall. induction dx as [|a dx IH]; simpl in *; [discriminate|].
      destruct (has_supportb i j dy a); simpl in *; auto. }
    apply existsb_exists in Hex. destruct Hex as [w [Hw Hns]].
    exists w. split; [assumption|]. rewrite filter_In. intros [_ Hs].
    rewrite Hs in Hns. discriminate.
  - intros [w [Hw Hnin]]. destruct (forallb (has_supportb i j dy) dx) eqn:Hall; auto.
    exfalso. apply Hnin. apply filter_In. split; [assumption|].
    rewrite forallb_forall in Hall. auto.
Qed.

(** C10. When the overlap entry of [(x, y)] is [None], [revise] returns
    [False] without raising, and the state is what it was. *)
Theorem revise_without_overlap (cw : Crossword) (x y : Var) (s : CrosswordCreator) :
  overlaps cw x y = None -> revise cw x y s = Ok (false, s).
Proof. intros Hov. unfold revise. now rewrite Hov. Qed.

(** ** Domains only shrink *)

Lemma domains_shrunk_refl ds : domains_shrunk ds ds.
Proof.
  split; [reflexivity|]. intros v d Hd. exists d. split; [assumption | apply incl_refl].
Qed.

Lemma domains_shrunk_trans ds1 ds2 ds3 :
  domains_shrunk ds1 ds2 -> domains_shrunk ds2 ds3 -> domains_shrunk ds1 ds3.
Proof.
  intros [Hk1 H1] [Hk2 H2]. split; [congruence|].
  intros v d1 Hd1. destruct (H1 _ _ Hd1) as [d2 [Hd2 Hi1]].
  destruct (H2 _ _ Hd2) as [d3 [Hd3 Hi2]].
  exists d3. split; [assumption | eapply incl_tran; eassumption].
Qed.

Lemma dict_get_keys {V : Type} (x : Var) (v : V) (d : list (Var * V)) :
  dict_get var_eqb x d = Some v -> In x (dict_keys d).
Proof.
  intros H. apply (dict_mem_In var_eqb var_eqb_spec). unfold dict_mem. now rewrite H.
Qed.

Lemma domains_shrunk_set x d d' ds :
  dict_get var_eqb x ds = Some d -> incl d' d ->
  domains_shrunk (dict_set var_eqb x d' ds) ds.
Proof.
  intros Hx Hincl. split.
  - apply dict_keys_set_present; [apply var_eqb_spec | eapply dict_get_keys; eassumption].
  - intros v dv. destruct (var_eqb_spec v x) as [->|Hne].
    + rewrite dict_get_set_same by apply var_eqb_spec. intros H. inversion H; subst.
      now exists d.
    + rewrite dict_get_set_other by (auto using var_eqb_spec). intros H.
      exists dv. split; [assumption | apply incl_refl].
Qed.

Lemma total_size_set x d d' ds :
  dict_get var_eqb x ds = Some d ->
  total_size (dict_set var_eqb x d' ds) + List.length d = total_size ds + List.length d'.
Proof.
  unfold total_size. induction ds as [|[k u] ds IH]; simpl; [discriminate|].
  destruct (var_eqb x k); simpl; intros H.
  - inversion H; subst. lia.
  - apply IH in H. lia.
Qed.

Lemma filter_remove_length (w : string) (d : list string) :
  In w d -> List.length (filter (fun w' => negb (String.eqb w w')) d) < List.length d.
Proof.
  induction d as [|a d IH]; simpl; [tauto|]. intros [->|Hin].
  - rewrite String.eqb_refl. simpl.
    pose proof (filter_length_le (fun w' => negb (String.eqb w w')) d). lia.
  - specialize (IH Hin). destruct (String.eqb w a); simpl; lia.
Qed.

Lemma domain_remove_inv x w s s' :
  domain_remove x w s = Ok (tt, s') ->
  exists d, dict_get var_eqb x (domains s) = Some d /\ In w d /\
    s' = mkCreator
           (dict_set var_eqb x (filter (fun w' => negb (String.eqb w w')) d) (domains s))
           (backtrack_calls s).
Proof.
  unfold domain_remove. intros H.
  apply bind_inv in H. destruct H as [d [s1 [Hg H]]].
  apply get_domain_inv in Hg. destruct Hg as [Hd ->].
  apply bind_inv in H. destruct H as [d' [s2 [Hr H]]].
  apply lift_inv in Hr. destruct Hr as [Hr ->].
  unfold set_remove in Hr. destruct (set_mem w d) eqn:Hw; [|discriminate].
  inversion Hr; subst. unfold put_domain in H. inversion H; subst.
  exists d. repeat split; auto. now apply set_mem_In.
Qed.

(** A run of removals: the store shrinks, strictly when a word is removed. *)
Lemma for_each_domain_remove_inv x rm :
  forall s s',
    for_each rm (domain_remove x) s = Ok (tt, s') ->
    domains_shrunk (domains s') (domains s) /\
    backtrack_calls s' = backtrack_calls s /\
    total_size (domains s') + List.length rm <= total_size (domains s) /\
    (rm <> [] -> In x (dict_keys (domains s))).
Proof.
  induction rm as [|w rm IH]; simpl; intros s s' H.
  - unfold ret in H. inversion H; subst.
    split; [apply domains_shrunk_refl|]. split; [reflexivity|].
    split; [lia | congruence].
  - apply bind_inv in H. destruct H as [[] [s1 [Hr H]]].
    apply domain_remove_inv in Hr. destruct Hr as [d [Hd [Hw ->]]].
    apply IH in H. simpl in H. destruct H as [Hsh [Hc [Ht _]]].
    split; [|split; [|split]].
    + eapply domains_shrunk_trans; [exact Hsh|].
      eapply domains_shrunk_set; [exact Hd|].
      intros a Ha. apply filter_In in Ha. tauto.
    + assumption.
    + pose proof (total_size_set x d (filter (fun w' => negb (String.eqb w w')) d) _ Hd).
      pose proof (filter_remove_length w d Hw). lia.
    + intros _. eapply dict_get_keys; eassumption.
Qed.

Lemma revise_outer_frame y i j dx :
  forall acc ac s rm s',
    revise_outer y i j dx acc ac s = Ok (rm, s') -> s' = s.
Proof.
  induction dx as [|w dx IH]; simpl; intros acc ac s rm s' H.
  - unfold ret in H. now inversion H.
  - apply bind_inv in H. destruct H as [dy [s1 [Hg H]]].
    apply get_domain_inv in Hg. destruct Hg as [_ ->].
    apply bind_inv in H. destruct H as [ac' [s2 [Hl H]]].
    apply lift_inv in Hl. destruct Hl as [_ ->].
    destruct ac'; eapply IH; eassumption.
Qed.

(** [revise] returning [False] changes nothing; returning [True] it has
    removed at least one word from the domain of a slot of the store. *)
Lemma revise_inv (cw : Crossword) x y s b s' :
  revise cw x y s = Ok (b, s') ->
  domains_shrunk (domains s') (domains s) /\
  backtrack_calls s' = backtrack_calls s /\
  (b = false -> s' = s) /\
  (b = true -> total_size (domains s') < total_size (domains s)
               /\ In x (dict_keys (domains s))).
Proof.
  unfold revise. destruct (overlaps cw x y) as [[i j]|].
  - intros H. apply bind_inv in H. destruct H as [dx [s1 [Hg H]]].
    apply get_domain_inv in Hg. destruct Hg as [Hx ->].
    apply bind_inv in H. destruct H as [rm [s2 [Ho H]]].
    apply revise_outer_frame in Ho. subst s2.
    destruct rm as [|w rm]; simpl in H.
    + unfold ret in H. inversion H; subst.
      split; [apply domains_shrunk_refl|]. split; [reflexivity|].
      split; [reflexivity | discriminate].
    + apply bind_inv in H. destruct H as [[] [s3 [Hf H]]].
      unfold ret in H. inversion H; subst.
      apply (for_each_domain_remove_inv x (w :: rm)) in Hf.
      destruct Hf as [Hsh [Hc [Ht Hk]]]. simpl in Ht.
      split; [assumption|]. split; [assumption|]. split; [discriminate|].
      intros _. split; [lia|]. apply Hk. discriminate.
  - unfold ret. intros H. inversion H; subst.
    split; [apply domains_shrunk_refl|]. split; [reflexivity|].
    split; [reflexivity | discriminate].
Qed.

Lemma ac3_loop_shrinks (cw : Crossword) (fuel : nat) :
  forall arcs s b s',
    ac3_loop cw fuel arcs s = Ok (b, s') ->
    domains_shrunk (domains s') (domains s) /\
    backtrack_calls s' = backtrack_calls s.
Proof.
  induction fuel as [|fuel IH]; intros arcs s b s' H;
    destruct arcs as [|[x y] arcs]; simpl in H;
    try (unfold ret in H; inversion H; subst; split;
         [apply domains_shrunk_refl | reflexivity]); try discriminate.
  apply bind_inv in H. destruct H as [revised [s1 [Hr H]]].
  apply revise_inv in Hr. destruct Hr as [Hsh [Hc _]].
  destruct revised.
  - apply bind_inv in H. destruct H as [dx [s2 [Hg H]]].
    apply get_domain_inv in Hg. destruct Hg as [_ ->].
    destruct (List.length dx =? 0).
    + unfold ret in H. inversion H; subst. auto.
    + apply IH in H. destruct H as [Hsh' Hc']. split; [|congruence].
      eapply domains_shrunk_trans; eassumption.
  - apply IH in H. destruct H as [Hsh' Hc']. split; [|congruence].
    eapply domains_shrunk_trans; eassumption.
Qed.

(** ** The fuel of [ac3] is enough *)

(** Only a fuel-bounded loop can yield [OutOfFuel]. *)
Lemma bind_fuel {A B : Type} (c : M A) (k : A -> M B) s :
  c s <> OutOfFuel ->
  (forall a s1, c s = Ok (a, s1) -> k a s1 <> OutOfFuel) ->
  bind c k s <> OutOfFuel.
Proof.
  unfold bind. intros Hc Hk. destruct (c s) as [[a s1]| |]; auto. discriminate.
Qed.

Lemma lift_fuel {A : Type} (c : outcome A) s : c <> OutOfFuel -> lift c s <> OutOfFuel.
Proof. unfold lift. destruct c; auto; discriminate. Qed.

Lemma get_domain_fuel v s : get_domain v s <> OutOfFuel.
Proof. unfold get_domain. destruct (dict_get var_eqb v (domains s)); discriminate. Qed.

Lemma domain_remove_fuel v w s : domain_remove v w s <> OutOfFuel.
Proof.
  unfold domain_remove. apply bind_fuel; [apply get_domain_fuel|]. intros d s1 _.
  apply bind_fuel; [|discriminate].
  apply lift_fuel. unfold set_remove. destruct (set_mem w d); discriminate.
Qed.

Lemma for_each_fuel {A : Type} (body : A -> M unit) (l : list A) :
  (forall a s, body a s <> OutOfFuel) -> forall s, for_each l body s <> OutOfFuel.
Proof.
  intros Hb. induction l as [|a l IH]; simpl; intros s; [discriminate|].
  apply bind_fuel; auto.
Qed.

Lemma revise_inner_fuel word_x i j dy ac : revise_inner word_x i j dy ac <> OutOfFuel.
Proof.
  induction dy as [|word_y dy IH]; simpl; [discriminate|].
  unfold str_index.
  destruct (String.get i word_x); simpl; [|discriminate].
  destruct (String.get j word_y); simpl; [|discriminate].
  destruct (Ascii.eqb a a0); [destruct (String.eqb word_x word_y)|];
    auto; discriminate.
Qed.

Lemma revise_outer_fuel y i j dx :
  forall acc ac s, revise_outer y i j dx acc ac s <> OutOfFuel.
Proof.
  induction dx as [|w dx IH]; simpl; intros acc ac s; [discriminate|].
  apply bind_fuel; [apply get_domain_fuel|]. intros dy s1 _.
  apply bind_fuel; [apply lift_fuel, revise_inner_fuel|]. intros ac' s2 _.
  destruct ac'; apply IH.
Qed.

Lemma revise_fuel (cw : Crossword) x y s : revise cw x y s <> OutOfFuel.
Proof.
  unfold revise. destruct (overlaps cw x y) as [[i j]|]; [|discriminate].
  apply bind_fuel; [apply get_domain_fuel|]. intros dx s1 _.
  apply bind_fuel; [apply revise_outer_fuel|]. intros rm s2 _.
  destruct (List.length rm =? 0); [discriminate|].
  apply bind_fuel; [|discriminate].
  apply for_each_fuel. intros; apply domain_remove_fuel.
Qed.

Lemma max_degree_bound (cw : Crossword) (x : Var) (keys : list Var) :
  In x keys -> List.length (neighbors cw x) <= max_degree cw keys.
Proof.
  intros Hin. unfold max_degree.
  assert (H : Forall (fun k => k <= list_max (map (fun v => List.length (neighbors cw v)) keys))
                     (map (fun v => List.length (neighbors cw v)) keys))
    by (apply list_max_le; lia).
  rewrite Forall_forall in H. apply H.
  apply (in_map (fun v => List.length (neighbors cw v))). exact Hin.
Qed.

(** With at least [ac3_fuel] iterations at hand the loop of [ac3] comes
    to its end: it returns or raises. *)
Lemma ac3_loop_fuel (cw : Crossword) (fuel : nat) :
  forall arcs s,
    ac3_fuel cw (domains s) arcs <= fuel ->
    ac3_loop cw fuel arcs s <> OutOfFuel.
Proof.
  unfold ac3_fuel.
  induction fuel as [|fuel IH]; intros arcs s Hfuel;
    destruct arcs as [|[x y] arcs]; simpl in *; try discriminate; try lia.
  apply bind_fuel; [apply revise_fuel|]. intros revised s1 Hr.
  apply revise_inv in Hr. destruct Hr as [[Hk _] [_ [Hfalse Htrue]]].
  destruct revised.
  - destruct (Htrue eq_refl) as [Hlt Hx].
    apply bind_fuel; [apply get_domain_fuel|]. intros dx s2 Hg.
    apply get_domain_inv in Hg. destruct Hg as [_ ->].
    destruct (List.length dx =? 0); [discriminate|].
    apply IH. rewrite Hk, length_app, length_map.
    pose proof (max_degree_bound cw x _ Hx) as Hdeg.
    pose proof (filter_length_le (fun neighbor => negb (var_eqb neighbor y))
                                 (neighbors cw x)) as Hfl.
    set (K := max_degree cw (dict_keys (domains s))) in *.
    nia.
  - rewrite (Hfalse eq_refl). apply IH. lia.
Qed.

(** ** enforce_node_consistency *)

Lemma enforce_body_run v d s :
  dict_get var_eqb v (domains s) = Some d -> NoDup d ->
  (d <- get_domain v ;;
   for_each (filter (fun word => negb (String.length word =? var_length v)) d)
            (domain_remove v)) s
  = Ok (tt, mkCreator (dict_set var_eqb v (of_length v d) (domains s))
                      (backtrack_calls s)).
Proof.
  intros Hd Hnd.
  rewrite (bind_ok _ _ _ _ _ (get_domain_ok _ _ _ Hd)).
  rewrite (for_each_domain_remove v _ s d Hd).
  - unfold of_length.
    now rewrite (filter_not_removed (fun word => String.length word =? var_length v) d).
  - now apply NoDup_filter.
  - intros w Hw. apply filter_In in Hw. tauto.
Qed.

Lemma enforce_loop_run (ks : list Var) :
  forall s,
    NoDup ks -> incl ks (dict_keys (domains s)) ->
    (forall v d, dict_get var_eqb v (domains s) = Some d -> NoDup d) ->
    exists s',
      for_each ks (fun v =>
        d <- get_domain v ;;
        for_each (filter (fun word => negb (String.length word =? var_length v)) d)
                 (domain_remove v)) s = Ok (tt, s') /\
      dict_keys (domains s') = dict_keys (domains s) /\
      backtrack_calls s' = backtrack_calls s /\
      forall v d, dict_get var_eqb v (domains s) = Some d ->
        dict_get var_eqb v (domains s')
        = Some (if mem_var v ks then of_length v d else d).
Proof.
  induction ks as [|k ks IH]; intros s Hnd Hincl Hsets.
  - exists s. simpl. unfold ret. auto.
  - inversion Hnd as [|? ? Hk Hnd']; subst.
    assert (Hin : In k (dict_keys (domains s))) by (apply Hincl; now left).
    destruct (dict_get var_eqb k (domains s)) as [dk|] eqn:Hdk.
    2:{ apply (dict_get_None var_eqb var_eqb_spec) in Hdk. contradiction. }
    set (s1 := mkCreator (dict_set var_eqb k (of_length k dk) (domains s))
                         (backtrack_calls s)).
    assert (Hkeys1 : dict_keys (domains s1) = dict_keys (domains s)).
    { apply dict_keys_set_present; [apply var_eqb_spec | assumption]. }
    destruct (IH s1) as [s' [Hrun [Hkeys [Hcalls Hget]]]].
    + assumption.
    + rewrite Hkeys1. intros a Ha. apply Hincl. now right.
    + intros v d. simpl. destruct (var_eqb_spec v k) as [->|Hne].
      * rewrite dict_get_set_same by apply var_eqb_spec. intros H. inversion H; subst.
        apply NoDup_filter. eapply Hsets; eassumption.
      * rewrite dict_get_set_other by (auto using var_eqb_spec). apply Hsets.
    + exists s'. split; [|split; [congruence|split; [assumption|]]].
      * simpl. erewrite bind_ok; [exact Hrun|].
        apply enforce_body_run; [assumption | eapply Hsets; eassumption].
      * intros v d Hd. simpl. destruct (var_eqb_spec v k) as [->|Hne].
        -- rewrite Hd in Hdk. inversion Hdk; subst. simpl.
           rewrite (Hget k (of_length k dk)).
           ++ destruct (mem_var k ks) eqn:Hm; [|reflexivity].
              apply mem_var_In in Hm. contradiction.
           ++ simpl. apply dict_get_set_same, var_eqb_spec.
        -- simpl. apply Hget. simpl.
           rewrite dict_get_set_other by (auto using var_eqb_spec). assumption.
Qed.

(** [enforce_node_consistency] returns, and leaves in each domain the
    words that have the length of the slot. *)
Lemma enforce_run s :
  store_ok s ->
  exists s',
    enforce_node_consistency s = Ok (tt, s') /\
    dict_keys (domains s') = dict_keys (domains s) /\
    backtrack_calls s' = backtrack_calls s /\
    forall v d, dict_get var_eqb v (domains s) = Some d ->
      dict_get var_eqb v (domains s') = Some (of_length v d).
Proof.
  intros [Hnd Hsets].
  destruct (enforce_loop_run (dict_keys (domains s)) s Hnd (incl_refl _) Hsets)
    as [s' [Hrun [Hkeys [Hcalls Hget]]]].
  exists s'. split; [|split; [assumption|split; [assumption|]]].
  - unfold enforce_node_consistency, get_domains. unfold bind at 1. exact Hrun.
  - intros v d Hd. rewrite (Hget v d Hd).
    assert (Hm : mem_var v (dict_keys (domains s)) = true)
      by (apply mem_var_In; eapply dict_get_keys; eassumption).
    now rewrite Hm.
Qed.

Lemma dict_get_of_key {V : Type} (v : Var) (d : list (Var * V)) :
  In v (dict_keys d) -> exists u, dict_get var_eqb v d = Some u.
Proof.
  intros Hin. destruct (dict_get var_eqb v d) as [u|] eqn:H; [now exists u|].
  apply (dict_get_None var_eqb var_eqb_spec) in H. contradiction.
Qed.

Lemma enforce_establishes s s' :
  store_ok s -> enforce_node_consistency s = Ok (tt, s') ->
  store_ok s' /\ node_consistent (domains s') /\
  domains_shrunk (domains s') (domains s) /\
  dict_keys (domains s') = dict_keys (domains s) /\
  backtrack_calls s' = backtrack_calls s /\
  (forall v d, dict_get var_eqb v (domains s) = Some d ->
     dict_get var_eqb v (domains s') = Some (of_length v d)).
Proof.
  intros Hok Hrun. destruct (enforce_run s Hok) as [s1 [Hrun1 [Hkeys [Hcalls Hget]]]].
  rewrite Hrun in Hrun1. inversion Hrun1; subst s1. clear Hrun1.
  assert (Hback : forall v d', dict_get var_eqb v (domains s') = Some d' ->
            exists d, dict_get var_eqb v (domains s) = Some d /\ d' = of_length v d).
  { intros v d' Hd'. pose proof (dict_get_keys _ _ _ Hd') as Hin. rewrite Hkeys in Hin.
    destruct (dict_get_of_key _ _ Hin) as [d Hd]. exists d. split; [assumption|].
    rewrite (Hget _ _ Hd) in Hd'. congruence. }
  destruct Hok as [Hnd Hsets].
  split; [|split; [|split; [|auto]]].
  - split; [congruence|]. intros v d' Hd'. destruct (Hback _ _ Hd') as [d [Hd ->]].
    apply NoDup_filter. eapply Hsets; eassumption.
  - intros v d' w Hd' Hw. destruct (Hback _ _ Hd') as [d [Hd ->]].
    apply filter_In in Hw. destruct Hw as [_ Hw]. now apply Nat.eqb_eq in Hw.
  - split; [assumption|]. intros v d' Hd'. destruct (Hback _ _ Hd') as [d [Hd ->]].
    exists d. split; [assumption|]. intros w Hw. apply filter_In in Hw. tauto.
Qed.

(** ** What a well-formed grid provides *)

Section WellFormed.
Variable cw : Crossword.
Hypothesis Hwf : well_formed cw = true.

Lemma wf_parts :
  nodup_varb (variables cw) = true /\ nodup_strb (words cw) = true /\
  forallb (fun x => forallb (overlap_ok cw x) (variables cw)) (variables cw) = true /\
  forallb (neighbors_ok cw) (variables cw) = true.
Proof.
  unfold well_formed in Hwf.
  repeat (apply andb_prop in Hwf; destruct Hwf as [Hwf ?]). auto.
Qed.

Lemma wf_variables : NoDup (variables cw).
Proof. apply nodup_varb_NoDup, wf_parts. Qed.

Lemma wf_words : NoDup (words cw).
Proof. apply nodup_strb_NoDup, wf_parts. Qed.

Lemma wf_overlap x y a b :
  In x (variables cw) -> In y (variables cw) ->
  overlaps cw x y = Some (a, b) ->
  a < var_length x /\ b < var_length y /\ x <> y /\ overlaps cw y x <> None.
Proof.
  intros Hx Hy Hov. destruct wf_parts as [_ [_ [H _]]].
  rewrite forallb_forall in H. specialize (H x Hx).
  rewrite forallb_forall in H. specialize (H y Hy).
  unfold overlap_ok in H. rewrite Hov in H.
  repeat (apply andb_prop in H; destruct H as [H ?]).
  apply Nat.ltb_lt in H. apply Nat.ltb_lt in H2.
  repeat split; auto.
  - intros ->. rewrite var_eqb_refl in H1. discriminate.
  - destruct (overlaps cw y x); [discriminate | discriminate].
Qed.

Lemma wf_neighbors_ok v :
  In v (variables cw) -> neighbors_ok cw v = true.
Proof.
  intros Hv. destruct wf_parts as [_ [_ [_ H]]].
  rewrite forallb_forall in H. auto.
Qed.

Lemma wf_neighbors_nodup v : In v (variables cw) -> NoDup (neighbors cw v).
Proof.
  intros Hv. pose proof (wf_neighbors_ok v Hv) as H. unfold neighbors_ok in H.
  repeat (apply andb_prop in H; destruct H as [H ?]).
  now apply nodup_varb_NoDup.
Qed.

Lemma wf_neighbors_in v n :
  In v (variables cw) -> In n (neighbors cw v) ->
  In n (variables cw) /\ n <> v /\ overlaps cw n v <> None.
Proof.
  intros Hv Hn. pose proof (wf_neighbors_ok v Hv) as H. unfold neighbors_ok in H.
  repeat (apply andb_prop in H; destruct H as [H ?]).
  rewrite forallb_forall in H1. specialize (H1 n Hn).
  repeat (apply andb_prop in H1; destruct H1 as [H1 ?]).
  split; [now apply mem_var_In|]. split.
  - intros ->. rewrite var_eqb_refl in H3. discriminate.
  - destruct (overlaps cw n v); [discriminate | discriminate].
Qed.

Lemma wf_neighbors_complete v n :
  In v (variables cw) -> In n (variables cw) -> n <> v ->
  overlaps cw n v <> None -> In n (neighbors cw v).
Proof.
  intros Hv Hn Hne Hov. pose proof (wf_neighbors_ok v Hv) as H.
  unfold neighbors_ok in H.
  repeat (apply andb_prop in H; destruct H as [H ?]).
  rewrite forallb_forall in H0. specialize (H0 n Hn).
  rewrite (var_eqb_neq _ _ Hne) in H0.
  destruct (overlaps cw n v); [|congruence]. simpl in H0.
  now apply mem_var_In.
Qed.

(** Crossing is symmetric. *)
Lemma wf_overlap_sym x y :
  In x (variables cw) -> In y (variables cw) ->
  overlaps cw x y <> None -> overlaps cw y x <> None.
Proof.
  intros Hx Hy H. destruct (overlaps cw x y) as [[a b]|] eqn:Hov; [|congruence].
  now destruct (wf_overlap x y a b Hx Hy Hov) as [_ [_ [_ ?]]].
Qed.
End WellFormed.

(** ** Propagation keeps the invariant and the solutions *)

Lemma creator_inv_set (cw : Crossword) s x d d' n :
  creator_inv cw s ->
  dict_get var_eqb x (domains s) = Some d ->
  NoDup d' -> incl d' d ->
  creator_inv cw (mkCreator (dict_set var_eqb x d' (domains s)) n).
Proof.
  intros [Hkeys [Hnd Hsets] Hnode] Hx Hnd' Hincl.
  assert (Hk : dict_keys (dict_set var_eqb x d' (domains s)) = dict_keys (domains s)).
  { apply dict_keys_set_present; [apply var_eqb_spec | eapply dict_get_keys; eassumption]. }
  constructor; simpl.
  - congruence.
  - split; simpl; [congruence|]. intros v dv.
    destruct (var_eqb_spec v x) as [->|Hne].
    + rewrite dict_get_set_same by apply var_eqb_spec. congruence.
    + rewrite dict_get_set_other by (auto using var_eqb_spec). apply Hsets.
  - intros v dv w. destruct (var_eqb_spec v x) as [->|Hne].
    + rewrite dict_get_set_same by apply var_eqb_spec. intros H Hw.
      inversion H; subst. eapply Hnode; eauto.
    + rewrite dict_get_set_other by (auto using var_eqb_spec). apply Hnode.
Qed.

Lemma creator_inv_calls (cw : Crossword) s n :
  creator_inv cw s -> creator_inv cw (mkCreator (domains s) n).
Proof. intros [H1 [H2 H3] H4]. constructor; simpl; auto. split; auto. Qed.

Section Propagation.
Variable cw : Crossword.
Hypothesis Hwf : well_formed cw = true.

Lemma inv_domain s v :
  creator_inv cw s -> In v (variables cw) ->
  exists d, dict_get var_eqb v (domains s) = Some d /\ NoDup d /\
    Forall (fun w => String.length w = var_length v) d.
Proof.
  intros [Hkeys [Hnd Hsets] Hnode] Hv. rewrite <- Hkeys in Hv.
  destruct (dict_get_of_key _ _ Hv) as [d Hd]. exists d.
  split; [assumption|]. split; [eapply Hsets; eassumption|].
  apply Forall_forall. intros w Hw. eapply Hnode; eassumption.
Qed.

Lemma lengths_in_range (n len : nat) (d : list string) :
  n < len -> Forall (fun w => String.length w = len) d ->
  Forall (fun w => n < String.length w) d.
Proof.
  intros Hn H. eapply Forall_impl; [|exact H]. simpl. intros w Hw. lia.
Qed.

(** A call of [revise] on two slots of the grid returns, keeps the
    invariant, and keeps every word that a solution uses. *)
Lemma revise_step x y s :
  creator_inv cw s -> In x (variables cw) -> In y (variables cw) ->
  exists b s',
    revise cw x y s = Ok (b, s') /\ creator_inv cw s' /\
    (forall a, complete cw a -> globally_consistent cw a ->
               drawn_from cw (domains s) a -> drawn_from cw (domains s') a).
Proof.
  intros Hinv Hx Hy.
  destruct (overlaps cw x y) as [[i j]|] eqn:Hov.
  2:{ exists false, s. unfold revise. rewrite Hov. auto. }
  destruct (wf_overlap cw Hwf x y i j Hx Hy Hov) as [Hi [Hj [Hxy _]]].
  destruct (inv_domain s x Hinv Hx) as [dx [Hdx [Hndx Hlx]]].
  destruct (inv_domain s y Hinv Hy) as [dy [Hdy [Hndy Hly]]].
  eexists _, _. split; [|split].
  - apply (revise_run cw x y i j dx dy s); auto; eapply lengths_in_range; eauto.
  - eapply creator_inv_set; eauto.
    + now apply NoDup_filter.
    + intros w Hw. apply filter_In in Hw. tauto.
  - intros a Hcomplete Hgc Hfrom v w Hv Hw. simpl.
    destruct (var_eqb_spec v x) as [->|Hne].
    2:{ rewrite dict_get_set_other by (auto using var_eqb_spec). now apply Hfrom. }
    rewrite dict_get_set_same by apply var_eqb_spec.
    eexists. split; [reflexivity|].
    destruct (Hfrom x w Hx Hw) as [d [Hd Hin]].
    rewrite Hdx in Hd. inversion Hd; subst d.
    apply filter_In. split; [assumption|].
    destruct (Hcomplete y Hy) as [wy Hwy].
    destruct (Hfrom y wy Hy Hwy) as [d [Hd' Hiny]].
    rewrite Hdy in Hd'. inversion Hd'; subst d.
    apply has_supportb_spec. exists wy. split; [assumption|].
    pose proof (gc_overlap cw a Hgc x y i j w wy Hx Hy Hov Hw Hwy) as Hagree.
    pose proof (gc_length cw a Hgc x w Hx Hw) as Hlen.
    destruct (str_index_in_range w i ltac:(lia)) as [c Hc].
    exists c. split; [assumption|]. split; [congruence|].
    eapply (gc_distinct cw a Hgc x y); eauto.
Qed.

(** The loop of [ac3] never raises on a node-consistent store, keeps
    the invariant and the solutions, and reports failure only with an
    empty domain. *)
Lemma ac3_loop_inv (fuel : nat) :
  forall arcs s,
    creator_inv cw s -> arcs_in_grid cw arcs ->
    match ac3_loop cw fuel arcs s with
    | Ok (b, s') =>
        creator_inv cw s' /\
        (forall a, complete cw a -> globally_consistent cw a ->
                   drawn_from cw (domains s) a -> drawn_from cw (domains s') a) /\
        (b = false -> exists x, In x (variables cw)
                                /\ dict_get var_eqb x (domains s') = Some [])
    | Raise _ => False
    | OutOfFuel => True
    end.
Proof.
  induction fuel as [|fuel IH]; intros arcs s Hinv Harcs;
    destruct arcs as [|[x y] arcs]; simpl; auto;
    try (split; [assumption|]; split; [auto | discriminate]).
  inversion Harcs as [|? ? [Hx Hy] Harcs']; subst. simpl in Hx, Hy.
  destruct (revise_step x y s Hinv Hx Hy) as [b [s1 [Hrun [Hinv1 Hsol1]]]].
  rewrite (bind_ok _ _ _ _ _ Hrun).
  destruct b.
  - destruct (inv_domain s1 x Hinv1 Hx) as [dx [Hdx _]].
    rewrite (bind_ok _ _ _ _ _ (get_domain_ok _ _ _ Hdx)).
    destruct dx as [|w dx]; simpl.
    + split; [assumption|]. split; [assumption|]. intros _. now exists x.
    + match goal with |- match ac3_loop cw fuel ?arcs1 s1 with _ => _ end =>
        specialize (IH arcs1 s1 Hinv1) end.
      match type of IH with ?P -> _ => assert (Hnew : P) end.
      { apply Forall_app. split; [assumption|].
        apply Forall_forall. intros [n x'] Hin. apply in_map_iff in Hin.
        destruct Hin as [n' [Heq Hn']]. injection Heq as Hn1 Hx1. subst n x'.
        simpl. apply filter_In in Hn'. destruct Hn' as [Hn' _].
        split; [|assumption]. now apply (wf_neighbors_in cw Hwf x n'). }
      specialize (IH Hnew).
      destruct (ac3_loop cw fuel _ s1) as [[b' s']| |]; auto.
      destruct IH as [Hinv' [Hsol' Hempty]].
      split; [assumption|]. split; [|assumption]. auto.
  - specialize (IH arcs s1 Hinv1 Harcs').
    destruct (ac3_loop cw fuel arcs s1) as [[b' s']| |]; auto.
    destruct IH as [Hinv' [Hsol' Hempty]].
    split; [assumption|]. split; [|assumption]. auto.
Qed.

Lemma combinations2_in {A : Type} (l : list A) (x y : A) :
  In (x, y) (combinations2 l) -> In x l /\ In y l.
Proof.
  induction l as [|a l IH]; simpl; [tauto|].
  rewrite in_app_iff, in_map_iff. intros [[b [Heq Hb]]|H].
  - inversion Heq; subst. auto.
  - destruct (IH H). auto.
Qed.

(** The default call of [ac3] on a node-consistent store. *)
Lemma ac3_run s :
  creator_inv cw s ->
  exists b s',
    ac3 cw None s = Ok (b, s') /\ creator_inv cw s' /\
    backtrack_calls s' = backtrack_calls s /\
    domains_shrunk (domains s') (domains s) /\
    (forall a, complete cw a -> globally_consistent cw a ->
               drawn_from cw (domains s) a -> drawn_from cw (domains s') a) /\
    (b = false -> exists x, In x (variables cw)
                            /\ dict_get var_eqb x (domains s') = Some []).
Proof.
  intros Hinv. unfold ac3, get_domains. unfold bind.
  set (arcs := initial_arcs (domains s)).
  assert (Harcs : arcs_in_grid cw arcs).
  { apply Forall_forall. intros [x y] Hin. apply combinations2_in in Hin.
    rewrite (inv_keys cw s Hinv) in Hin. exact Hin. }
  pose proof (ac3_loop_inv (ac3_fuel cw (domains s) arcs) arcs s Hinv Harcs) as H.
  pose proof (ac3_loop_fuel cw (ac3_fuel cw (domains s) arcs) arcs s (le_n _)) as Hf.
  pose proof (ac3_loop_shrinks cw (ac3_fuel cw (domains s) arcs) arcs s) as Hs.
  destruct (ac3_loop cw _ arcs s) as [[b s']| |]; [|contradiction|congruence].
  destruct H as [Hinv' [Hsol Hempty]]. destruct (Hs b s' eq_refl) as [Hsh Hc].
  exists b, s'. auto 10.
Qed.
End Propagation.

(** ** The initial state *)

Lemma init_keys (cw : Crossword) : dict_keys (domains (init_creator cw)) = variables cw.
Proof.
  unfold init_creator, dict_keys. simpl. rewrite map_map. simpl. apply map_id.
Qed.

Lemma init_get (cw : Crossword) v d :
  dict_get var_eqb v (domains (init_creator cw)) = Some d -> d = words cw.
Proof.
  unfold init_creator. simpl. induction (variables cw) as [|k ks IH]; simpl; [discriminate|].
  destruct (var_eqb v k); [congruence | exact IH].
Qed.

Lemma init_store_ok (cw : Crossword) :
  well_formed cw = true -> store_ok (init_creator cw).
Proof.
  intros Hwf. split.
  - rewrite init_keys. now apply wf_variables.
  - intros v d Hd. apply init_get in Hd. subst d. now apply wf_words.
Qed.

Lemma node_consistent_shrunk ds' ds :
  domains_shrunk ds' ds -> node_consistent ds -> node_consistent ds'.
Proof.
  intros [_ Hsh] Hnode v d' w Hd' Hw.
  destruct (Hsh _ _ Hd') as [d [Hd Hincl]]. eapply Hnode; eauto.
Qed.

Lemma ac3_shrinks (cw : Crossword) arcs s b s' :
  ac3 cw arcs s = Ok (b, s') ->
  domains_shrunk (domains s') (domains s) /\ backtrack_calls s' = backtrack_calls s.
Proof.
  unfold ac3, get_domains. unfold bind. apply ac3_loop_shrinks.
Qed.

(** C8. [enforce_node_consistency] leaves in every domain only words of
    the length of the slot. [revise] and [ac3] only remove words: every
    domain after the call is a subset of the domain before, so the
    length invariant holds after them as well; in particular it holds
    after the [ac3] call of [solve], which returns. *)
Theorem node_consistency_established_and_kept (cw : Crossword) (s : CrosswordCreator) :
  well_formed cw = true ->
  store_ok s ->
  dict_keys (domains s) = variables cw ->
  (exists s1 b s2,
     enforce_node_consistency s = Ok (tt, s1) /\
     node_consistent (domains s1) /\
     ac3 cw None s1 = Ok (b, s2) /\
     domains_shrunk (domains s2) (domains s1) /\
     node_consistent (domains s2)) /\
  (forall x y s3 b s4,
     revise cw x y s3 = Ok (b, s4) ->
     domains_shrunk (domains s4) (domains s3) /\
     (node_consistent (domains s3) -> node_consistent (domains s4))) /\
  (forall arcs s3 b s4,
     ac3 cw arcs s3 = Ok (b, s4) ->
     domains_shrunk (domains s4) (domains s3) /\
     (node_consistent (domains s3) -> node_consistent (domains s4))).
Proof.
  intros Hwf Hok Hkeys. split; [|split].
  - destruct (enforce_run s Hok) as [s1 [Hrun1 _]].
    destruct (enforce_establishes s s1 Hok Hrun1) as [Hok1 [Hnode1 [_ [Hkeys1 _]]]].
    assert (Hinv1 : creator_inv cw s1)
      by (constructor; [congruence | assumption | assumption]).
    destruct (ac3_run cw Hwf s1 Hinv1) as [b [s2 [Hrun2 [Hinv2 [_ [Hsh _]]]]]].
    exists s1, b, s2. repeat (split; [assumption|]). apply (inv_node cw s2 Hinv2).
  - intros x y s3 b s4 Hrun. apply revise_inv in Hrun. destruct Hrun as [Hsh _].
    split; [assumption | now apply node_consistent_shrunk].
  - intros arcs s3 b s4 Hrun. apply ac3_shrinks in Hrun. destruct Hrun as [Hsh _].
    split; [assumption | now apply node_consistent_shrunk].
Qed.

(** ** select_unassigned_variable *)

Lemma select_min_loop_spec s (rem : list Var) :
  forall l n m idxs,
    (forall k var, nth_error l k = Some var -> nth_error rem (n + k) = Some var) ->
    (forall var, In var l -> In var (dict_keys (domains s))) ->
    idxs <> [] ->
    (forall idx, In idx idxs -> exists var, nth_error rem idx = Some var /\ sized s var m) ->
    exists m' idxs',
      select_min_loop (enumerate_from n l) m idxs s = Ok ((m', idxs'), s) /\
      idxs' <> [] /\
      (forall idx, In idx idxs' ->
         exists var, nth_error rem idx = Some var /\ sized s var m') /\
      m' <= m /\
      (forall var d, In var l -> dict_get var_eqb var (domains s) = Some d ->
         m' <= List.length d).
Proof.
  induction l as [|var l IH]; intros n m idxs Hnth Hkeys Hne Hidx; simpl.
  - exists m, idxs. unfold ret. repeat split; auto. intros ? ? [].
  - destruct (dict_get_of_key var (domains s)) as [d Hd]; [apply Hkeys; now left|].
    rewrite (bind_ok _ _ _ _ _ (get_domain_ok _ _ _ Hd)).
    assert (Hvar : nth_error rem n = Some var).
    { specialize (Hnth 0 var eq_refl). now rewrite Nat.add_0_r in Hnth. }
    assert (Hnth' : forall k v, nth_error l k = Some v -> nth_error rem (S n + k) = Some v).
    { intros k v Hk. specialize (Hnth (S k) v Hk). now rewrite Nat.add_succ_r in Hnth. }
    assert (Hkeys' : forall v, In v l -> In v (dict_keys (domains s)))
      by (intros v Hv; apply Hkeys; now right).
    destruct (Nat.ltb_spec (List.length d) m) as [Hlt|Hge].
    + destruct (IH (S n) (List.length d) [n] Hnth' Hkeys') as [m' [idxs' [Hrun [Hne' [Hidx' [Hle Hmin]]]]]].
      * discriminate.
      * intros idx [<-|[]]. exists var. split; [assumption|]. now exists d.
      * exists m', idxs'. repeat split; auto; try lia.
        intros v dv [<-|Hv] Hdv; [|eauto]. rewrite Hd in Hdv. inversion Hdv; subst. lia.
    + destruct (Nat.eqb_spec (List.length d) m) as [Heq|Hneq].
      * destruct (IH (S n) m (idxs ++ [n]) Hnth' Hkeys') as [m' [idxs' [Hrun [Hne' [Hidx' [Hle Hmin]]]]]].
        -- destruct idxs; discriminate.
        -- intros idx Hin. apply in_app_iff in Hin. destruct Hin as [Hin|[<-|[]]]; auto.
           exists var. split; [assumption|]. now exists d.
        -- exists m', idxs'. repeat split; auto.
           intros v dv [<-|Hv] Hdv; [|eauto]. rewrite Hd in Hdv. inversion Hdv; subst. lia.
      * destruct (IH (S n) m idxs Hnth' Hkeys' Hne Hidx) as [m' [idxs' [Hrun [Hne' [Hidx' [Hle Hmin]]]]]].
        exists m', idxs'. repeat split; auto.
        intros v dv [<-|Hv] Hdv; [|eauto]. rewrite Hd in Hdv. inversion Hdv; subst. lia.
Qed.

Lemma max_neighbors_loop_range (l : list nat) :
  forall n i0,
    max_neighbors_loop (enumerate_from n l) i0 = i0 \/
    (n <= max_neighbors_loop (enumerate_from n l) i0
     /\ max_neighbors_loop (enumerate_from n l) i0 < n + List.length l).
Proof.
  induction l as [|num l IH]; intros n i0; simpl; [now left|].
  destruct (i0 <? num).
  - right. destruct (IH (S n) n) as [->|[H1 H2]]; lia.
  - destruct (IH (S n) i0) as [->|[H1 H2]]; [now left | right; lia].
Qed.

Lemma omap_length {A B : Type} (f : A -> outcome B) (l : list A) (r : list B) :
  omap f l = Ok r -> List.length r = List.length l.
Proof.
  revert r. induction l as [|a l IH]; simpl; intros r H.
  - inversion H. reflexivity.
  - destruct (f a); try discriminate. simpl in H.
    destruct (omap f l) as [bs| |]; try discriminate. simpl in H.
    inversion H; subst. simpl. f_equal. now apply IH.
Qed.

Lemma omap_ok {A B : Type} (f : A -> outcome B) (l : list A) :
  (forall a, In a l -> exists b, f a = Ok b) -> exists r, omap f l = Ok r.
Proof.
  induction l as [|a l IH]; simpl; intros H; [now eexists|].
  destruct (H a) as [b Hb]; [now left|]. rewrite Hb. simpl.
  destruct IH as [r Hr]; [intros; apply H; now right|]. rewrite Hr. simpl. now eexists.
Qed.

(** [select_unassigned_variable] returns an open slot whose domain is
    among the smallest of the open slots. *)
Lemma select_run (cw : Crossword) (a : assignment) s :
  unassigned s a <> [] ->
  exists var,
    select_unassigned_variable cw a s = Ok (var, s) /\
    In var (unassigned s a) /\
    exists m, sized s var m /\
      forall u d, In u (unassigned s a) ->
        dict_get var_eqb u (domains s) = Some d -> m <= List.length d.
Proof.
  intros Hne. unfold select_unassigned_variable, get_domains. unfold bind at 1.
  fold (unassigned s a). set (rem := unassigned s a) in *.
  assert (Hrem_keys : forall v, In v rem -> In v (dict_keys (domains s))).
  { intros v Hv. unfold rem, unassigned in Hv. apply filter_In in Hv. tauto. }
  destruct rem as [|var0 rem'] eqn:Hrem; [congruence|]. rewrite <- Hrem in *.
  assert (H0 : nth_error rem 0 = Some var0) by now rewrite Hrem.
  unfold list_index at 1. rewrite H0.
  unfold bind at 1. unfold lift at 1.
  destruct (dict_get_of_key var0 (domains s)) as [d0 Hd0];
    [apply Hrem_keys; rewrite Hrem; now left|].
  rewrite (bind_ok _ _ _ _ _ (get_domain_ok _ _ _ Hd0)).
  destruct (select_min_loop_spec s rem rem 0 (List.length d0) [0])
    as [m [idxs [Hrun [Hidxs_ne [Hidx [_ Hmin]]]]]]; auto.
  { discriminate. }
  { intros idx [<-|[]]. exists var0. split; [assumption|]. now exists d0. }
  unfold enumerate. rewrite (bind_ok _ _ _ _ _ Hrun). cbv beta. cbn [snd].
  assert (Hpick : forall k, k < List.length idxs ->
            exists var,
              (index <- lift (list_index idxs k) ;; lift (list_index rem index)) s
              = Ok (var, s) /\ In var rem /\ sized s var m).
  { intros k Hk. destruct (nth_error idxs k) as [idx|] eqn:Hnth.
    2:{ apply nth_error_None in Hnth. lia. }
    destruct (Hidx idx (nth_error_In _ _ Hnth)) as [var [Hvar Hsz]].
    exists var. unfold bind, lift, list_index. rewrite Hnth, Hvar.
    split; [reflexivity|]. split; [eapply nth_error_In; eassumption | assumption]. }
  assert (Hlen : 0 < List.length idxs) by (destruct idxs; simpl; [congruence | lia]).
  destruct (List.length idxs =? 1).
  - destruct (Hpick 0 Hlen) as [var [Hr [Hin Hsz]]].
    exists var. split; [exact Hr|]. split; [assumption|]. exists m. split; [assumption|].
    intros u d Hu. now apply Hmin.
  - destruct (omap_ok (fun index => let! var := list_index rem index in
                                    Ok (List.length (neighbors cw var))) idxs)
      as [nums Hnums].
    { intros idx Hin. destruct (Hidx idx Hin) as [var [Hvar _]].
      unfold list_index. rewrite Hvar. simpl. now eexists. }
    unfold bind at 1. unfold lift at 1. rewrite Hnums.
    pose proof (omap_length _ _ _ Hnums) as Hnl.
    destruct (Hpick (max_neighbors_loop (enumerate nums) 0)) as [var [Hr [Hin Hsz]]].
    { unfold enumerate.
      destruct (max_neighbors_loop_range nums 0 0) as [->|[_ H]]; lia. }
    exists var. split; [exact Hr|]. split; [assumption|]. exists m. split; [assumption|].
    intros u d Hu. now apply Hmin.
Qed.

(** ** consistent *)

Lemma consistent_unary_spec (items : assignment) :
  forall seen,
    consistent_unary items seen = true <->
    Forall (fun vw => String.length (snd vw) = var_length (fst vw)) items /\
    NoDup (map snd items) /\
    (forall w, In w (map snd items) -> ~ In w seen).
Proof.
  induction items as [|[v w] items IH]; intros seen; simpl.
  - split; [intros _|reflexivity]. repeat split; [constructor | constructor | tauto].
  - destruct (Nat.eqb_spec (String.length w) (var_length v)) as [Hlen|Hlen]; simpl.
    2:{ split; [discriminate|]. intros [H _]. inversion H; subst. contradiction. }
    destruct (set_mem w seen) eqn:Hseen.
    { split; [discriminate|]. intros [_ [_ H]]. apply set_mem_In in Hseen.
      exfalso. apply (H w); auto. }
    apply set_mem_not_In in Hseen. rewrite IH. split.
    + intros [Hl [Hnd Hs]]. split; [constructor; assumption|]. split.
      * constructor; [|assumption]. intros Hin. apply (Hs w Hin). now left.
      * intros w' [<-|Hin]; [assumption|]. intros Hw'. apply (Hs w' Hin). now right.
    + intros [Hl [Hnd Hs]]. inversion Hl; subst. inversion Hnd; subst.
      split; [assumption|]. split; [assumption|].
      intros w' Hin [<-|Hw']; [contradiction|]. apply (Hs w'); auto.
Qed.

Lemma NoDup_values_inj {K V : Type} (a : list (K * V)) (x y : K) (w : V) :
  NoDup (map snd a) -> In (x, w) a -> In (y, w) a -> x = y.
Proof.
  induction a as [|[k u] a IH]; simpl; [tauto|]. intros Hnd Hx Hy.
  inversion Hnd as [|? ? Hnin Hnd']; subst.
  destruct Hx as [Hx|Hx], Hy as [Hy|Hy].
  - congruence.
  - inversion Hx; subst. exfalso. apply Hnin.
    change w with (snd (y, w)). now apply in_map.
  - inversion Hy; subst. exfalso. apply Hnin.
    change w with (snd (x, w)). now apply in_map.
  - auto.
Qed.

Lemma NoDup_values {K V : Type} (a : list (K * V)) :
  NoDup (map fst a) ->
  (forall x y w, In (x, w) a -> In (y, w) a -> x = y) ->
  NoDup (map snd a).
Proof.
  induction a as [|[k u] a IH]; simpl; intros Hnd Hinj; [constructor|].
  inversion Hnd as [|? ? Hnin Hnd']; subst. constructor.
  - intros Hin. apply in_map_iff in Hin. destruct Hin as [[k' u'] [Heq Hin]].
    simpl in Heq. subst u'.
    assert (k' = k) by (apply (Hinj k' k u); auto).
    subst k'. apply Hnin. change k with (fst (k, u)). now apply in_map.
  - apply IH; [assumption|]. intros x y w Hx Hy. apply (Hinj x y w); auto.
Qed.

Section Consistency.
Variable cw : Crossword.
Hypothesis Hwf : well_formed cw = true.

Lemma consistent_neighbors_spec (a : assignment) (v : Var) (word : string) :
  In v (variables cw) -> String.length word = var_length v ->
  (forall n wn, In n (variables cw) -> dict_get var_eqb n a = Some wn ->
                String.length wn = var_length n) ->
  forall ns, incl ns (variables cw) ->
    exists b, consistent_neighbors cw a v word ns = Ok b /\
              (b = true <-> agrees_with cw a v word ns).
Proof.
  intros Hv Hlen Hlens. induction ns as [|n ns IH]; intros Hincl; simpl.
  - exists true. split; [reflexivity|]. split; [intros _ ? ? ? ? []|reflexivity].
  - assert (Hn : In n (variables cw)) by (apply Hincl; now left).
    destruct IH as [b [Hrun Hb]]; [intros x Hx; apply Hincl; now right|].
    assert (Hskip : forall P : Prop,
              (forall wn p q, dict_get var_eqb n a = Some wn ->
                              overlaps cw v n = Some (p, q) ->
                              String.get p word = String.get q wn) ->
              (b = true <-> agrees_with cw a v word (n :: ns))).
    { intros _ Hhead. rewrite Hb. split.
      - intros Hns n' wn p q [<-|Hin]; [apply Hhead | now apply Hns].
      - intros H n' wn p q Hin. apply H. now right. }
    destruct (dict_get var_eqb n a) as [wn|] eqn:Hwn.
    2:{ exists b. split; [assumption|]. apply (Hskip True). intros; discriminate. }
    destruct (overlaps cw v n) as [[p q]|] eqn:Hov.
    2:{ exists b. split; [assumption|]. apply (Hskip True). intros; discriminate. }
    destruct (wf_overlap cw Hwf v n p q Hv Hn Hov) as [Hp [Hq _]].
    pose proof (Hlens n wn Hn Hwn) as Hlenn.
    destruct (str_index_in_range word p ltac:(lia)) as [cv Hcv].
    destruct (str_index_in_range wn q ltac:(lia)) as [cn Hcn].
    unfold str_index. rewrite Hcv, Hcn. simpl.
    destruct (Ascii.eqb_spec cv cn) as [->|Hne]; simpl.
    + exists b. split; [assumption|]. apply (Hskip True).
      intros wn' p' q' H1 H2. inversion H1; inversion H2; subst. congruence.
    + exists false. split; [reflexivity|]. split; [discriminate|].
      intros H. specialize (H n wn p q (or_introl eq_refl) Hwn Hov). congruence.
Qed.

Lemma consistent_overlaps_spec (a : assignment) :
  (forall n wn, In n (variables cw) -> dict_get var_eqb n a = Some wn ->
                String.length wn = var_length n) ->
  forall items,
    Forall (fun vw => In (fst vw) (variables cw)
                      /\ String.length (snd vw) = var_length (fst vw)) items ->
    exists b, consistent_overlaps cw a items = Ok b /\
              (b = true <->
               forall v word, In (v, word) items ->
                              agrees_with cw a v word (neighbors cw v)).
Proof.
  intros Hlens. induction items as [|[v word] items IH]; intros Hitems; simpl.
  - exists true. split; [reflexivity|]. split; [intros _ ? ? []|reflexivity].
  - inversion Hitems as [|? ? [Hv Hlen] Hitems']; subst. simpl in Hv, Hlen.
    destruct (consistent_neighbors_spec a v word Hv Hlen Hlens (neighbors cw v))
      as [b [Hrun Hb]].
    { intros n Hn. now apply (wf_neighbors_in cw Hwf v n). }
    rewrite Hrun. simpl. destruct b.
    + destruct (IH Hitems') as [b' [Hrun' Hb']]. exists b'. split; [assumption|].
      rewrite Hb'. split.
      * intros H v' w' [Heq|Hin]; [|now apply H]. inversion Heq; subst. now apply Hb.
      * intros H v' w' Hin. apply H. now right.
    + exists false. split; [reflexivity|]. split; [discriminate|].
      intros H. specialize (H v word (or_introl eq_refl)). apply Hb in H. discriminate.
Qed.

(** [consistent] returns, and returns [True] exactly on the globally
    consistent assignments. *)
Lemma consistent_spec (a : assignment) s :
  NoDup (dict_keys a) -> incl (dict_keys a) (variables cw) ->
  exists b, consistent cw a s = Ok (b, s) /\ (b = true <-> globally_consistent cw a).
Proof.
  intros Hnd Hkeys. unfold consistent.
  assert (Hitem : forall v w, In (v, w) a <-> dict_get var_eqb v a = Some w).
  { intros v w. split; [now apply In_dict_get; auto using var_eqb_spec|].
    apply dict_get_In, var_eqb_spec. }
  assert (Hin_vars : forall v w, In (v, w) a -> In v (variables cw)).
  { intros v w Hin. apply Hkeys. change v with (fst (v, w)). now apply in_map. }
  destruct (consistent_unary a []) eqn:Hun.
  - apply consistent_unary_spec in Hun. destruct Hun as [Hlen [Hvals _]].
    rewrite Forall_forall in Hlen.
    assert (Hlens : forall n wn, In n (variables cw) -> dict_get var_eqb n a = Some wn ->
                                 String.length wn = var_length n).
    { intros n wn _ Hn. apply Hitem in Hn. exact (Hlen (n, wn) Hn). }
    destruct (consistent_overlaps_spec a Hlens a) as [b [Hrun Hb]].
    { apply Forall_forall. intros [v w] Hin. simpl. split; [eauto|]. exact (Hlen (v, w) Hin). }
    exists b. split; [unfold lift; now rewrite Hrun|]. rewrite Hb. split.
    + intros Hag. constructor.
      * intros v w Hv Hw. now apply Hlens.
      * intros x y wx wy _ _ Hxy Hx Hy Heq. subst wy. apply Hxy.
        apply (NoDup_values_inj a x y wx Hvals); now apply Hitem.
      * intros x y i j wx wy Hx Hy Hov Hwx Hwy.
        destruct (wf_overlap cw Hwf x y i j Hx Hy Hov) as [_ [_ [Hxy Hsym]]].
        apply (Hag x wx (proj2 (Hitem x wx) Hwx) y wy i j); auto.
        apply (wf_neighbors_complete cw Hwf x y); auto.
    + intros Hgc v word Hin n wn p q Hn Hwn Hov.
      apply (gc_overlap cw a Hgc v n p q word wn); eauto.
      * now apply (wf_neighbors_in cw Hwf v n); eauto.
      * now apply Hitem.
  - exists false. split; [reflexivity|]. split; [discriminate|]. intros Hgc.
    assert (Htrue : consistent_unary a [] = true); [|congruence].
    apply consistent_unary_spec. split; [|split].
    + apply Forall_forall. intros [v w] Hin. simpl.
      apply (gc_length cw a Hgc v w); [eauto | now apply Hitem].
    + apply NoDup_values; [exact Hnd|]. intros x y w Hx Hy.
      destruct (var_eqb_spec x y) as [|Hne]; [assumption|]. exfalso.
      apply (gc_distinct cw a Hgc x y w w); eauto; now apply Hitem.
    + intros w _ [].
Qed.
End Consistency.

(** ** sorted *)

Section SortedBy.
Context {A : Type}.
Variable key : A -> nat.

Lemma insert_by_perm (a : A) (l : list A) : Permutation (insert_by key a l) (a :: l).
Proof.
  induction l as [|b l IH]; simpl; [apply Permutation_refl|].
  destruct (key b <? key a); [|apply Permutation_refl].
  eapply Permutation_trans; [apply perm_skip, IH | apply perm_swap].
Qed.

Lemma sorted_by_perm (l : list A) : Permutation (sorted_by key l) l.
Proof.
  induction l as [|a l IH]; simpl; [constructor|].
  eapply Permutation_trans; [apply insert_by_perm | now apply perm_skip].
Qed.

Lemma insert_by_sorted (a : A) (l : list A) :
  StronglySorted (fun x y => key x <= key y) l ->
  StronglySorted (fun x y => key x <= key y) (insert_by key a l).
Proof.
  induction l as [|b l IH]; simpl; intros Hs.
  - constructor; constructor.
  - inversion Hs as [|? ? Hs' Hall]; subst.
    destruct (Nat.ltb_spec (key b) (key a)) as [Hlt|Hle].
    + constructor; [auto|].
      eapply Permutation_Forall; [apply Permutation_sym, insert_by_perm|].
      constructor; [lia | assumption].
    + constructor; [assumption|]. constructor; [lia|].
      eapply Forall_impl; [|exact Hall]. simpl. intros; lia.
Qed.

Lemma sorted_by_sorted (l : list A) :
  StronglySorted (fun x y => key x <= key y) (sorted_by key l).
Proof.
  induction l as [|a l IH]; simpl; [constructor | now apply insert_by_sorted].
Qed.

(** Sorting the pairs of a value and its key by the key. *)
Lemma insert_by_paired (a : A) (l : list A) :
  insert_by snd (a, key a) (map (fun x => (x, key x)) l)
  = map (fun x => (x, key x)) (insert_by key a l).
Proof.
  induction l as [|b l IH]; simpl; [reflexivity|].
  destruct (key b <? key a); simpl; [now rewrite IH | reflexivity].
Qed.

Lemma sorted_by_paired (l : list A) :
  map fst (sorted_by snd (map (fun x => (x, key x)) l)) = sorted_by key l.
Proof.
  assert (H : sorted_by snd (map (fun x => (x, key x)) l)
              = map (fun x => (x, key x)) (sorted_by key l)).
  { induction l as [|a l IH]; simpl; [reflexivity|].
    now rewrite IH, insert_by_paired. }
  rewrite H, map_map. simpl. apply map_id.
Qed.
End SortedBy.

(** ** order_domain_values *)

Lemma dict_of_keys {V : Type} (f : string -> V) (e : list (string * V)) :
  NoDup (dict_keys e) ->
  (forall w, In w (dict_keys e) -> dict_get String.eqb w e = Some (f w)) ->
  e = map (fun w => (w, f w)) (dict_keys e).
Proof.
  induction e as [|[k v] e IH]; simpl; intros Hnd Hget; [reflexivity|].
  inversion Hnd as [|? ? Hnin Hnd']; subst.
  pose proof (Hget k (or_introl eq_refl)) as Hk. rewrite String.eqb_refl in Hk.
  inversion Hk; subst. f_equal. apply IH; [assumption|].
  intros w Hw. specialize (Hget w (or_intror Hw)).
  destruct (String.eqb_spec w k) as [Heq|Hne]; [subst w; contradiction | assumption].
Qed.

Lemma initial_eliminations (d : list string) :
  forall e,
    NoDup d -> (forall w, In w d -> ~ In w (dict_keys e)) ->
    fold_left (fun e word => dict_set String.eqb word 0 e) d e
    = e ++ map (fun w => (w, 0)) d.
Proof.
  induction d as [|w d IH]; intros e Hnd Hfresh; simpl; [now rewrite app_nil_r|].
  inversion Hnd; subst.
  rewrite (dict_set_absent String.eqb string_eqb_spec) by (apply Hfresh; now left).
  rewrite IH; [now rewrite <- app_assoc | assumption |].
  intros w' Hw'. unfold dict_keys. rewrite map_app, in_app_iff. simpl.
  intros [Hin|[<-|[]]]; [|contradiction]. apply (Hfresh w'); [now right | assumption].
Qed.

Lemma dict_set_current_word {V : Type} (w : string) (v : V) (e : list (string * V)) :
  dict_get String.eqb w e = Some v -> dict_set String.eqb w v e = e.
Proof.
  induction e as [|[k u] e IH]; simpl; [discriminate|].
  destruct (String.eqb w k); intros H; [congruence | f_equal; auto].
Qed.

Lemma odv_words_run (word : string) (p q : nat) (nws : list string) :
  p < String.length word ->
  Forall (fun w => q < String.length w) nws ->
  forall e n,
    dict_get String.eqb word e = Some n ->
    odv_words word (Some (p, q)) nws e
    = Ok (dict_set String.eqb word
            (n + List.length (filter (eliminates (p, q) word) nws)) e).
Proof.
  intros Hp Hq. induction Hq as [|nw nws Hnw Hq IH]; intros e n Hn.
  - simpl. now rewrite Nat.add_0_r, (dict_set_current_word _ _ _ Hn).
  - assert (Hincr : dict_incr word e = Ok (dict_set String.eqb word (n + 1) e))
      by (unfold dict_incr; now rewrite Hn).
    assert (Hnext : odv_words word (Some (p, q)) nws (dict_set String.eqb word (n + 1) e)
                    = Ok (dict_set String.eqb word
                            (n + S (List.length (filter (eliminates (p, q) word) nws))) e)).
    { rewrite (IH _ (n + 1)) by apply (dict_get_set_same String.eqb string_eqb_spec).
      rewrite (dict_set_set String.eqb string_eqb_spec). do 2 f_equal. lia. }
    destruct (str_index_in_range word p Hp) as [c Hc].
    destruct (str_index_in_range nw q Hnw) as [c' Hc'].
    assert (Hel : eliminates (p, q) word nw
                  = String.eqb word nw || negb (Ascii.eqb c c')).
    { unfold eliminates. simpl. now rewrite Hc, Hc'. }
    cbn [odv_words filter]. rewrite Hel.
    destruct (String.eqb word nw); cbn [orb].
    + rewrite Hincr. cbn [obind List.length]. exact Hnext.
    + unfold str_index. rewrite Hc, Hc'. cbn [obind].
      destruct (Ascii.eqb c c'); cbn [negb].
      * now apply IH.
      * rewrite Hincr. cbn [obind List.length]. exact Hnext.
Qed.

Section OrderDomainValues.
Variable cw : Crossword.
Hypothesis Hwf : well_formed cw = true.
Variable s : CrosswordCreator.
Hypothesis Hinv : creator_inv cw s.
Variable var : Var.
Hypothesis Hvar : In var (variables cw).
Variable a : assignment.

Lemma odv_neighbors_run (word : string) :
  String.length word = var_length var ->
  forall ns e n,
    incl ns (neighbors cw var) ->
    dict_get String.eqb word e = Some n ->
    odv_neighbors cw var a word ns e s
    = Ok (dict_set String.eqb word
            (n + list_sum (map (neighbor_eliminations cw (domains s) var word)
                               (filter (fun x => negb (dict_mem var_eqb x a)) ns))) e,
          s).
Proof.
  intros Hlen. induction ns as [|x ns IH]; intros e n Hincl Hn; simpl.
  - unfold ret. now rewrite Nat.add_0_r, (dict_set_current_word _ _ _ Hn).
  - assert (Hincl' : incl ns (neighbors cw var)) by (intros y Hy; apply Hincl; now right).
    destruct (dict_mem var_eqb x a); simpl; [now apply IH|].
    assert (Hx : In x (neighbors cw var)) by (apply Hincl; now left).
    destruct (wf_neighbors_in cw Hwf var x Hvar Hx) as [Hxv [Hne Hov]].
    pose proof (wf_overlap_sym cw Hwf x var Hxv Hvar Hov) as Hov'.
    destruct (overlaps cw var x) as [[p q]|] eqn:Hpq; [|congruence].
    destruct (wf_overlap cw Hwf var x p q Hvar Hxv Hpq) as [Hp [Hq _]].
    destruct (inv_domain cw s x Hinv Hxv) as [dx [Hdx [_ Hlx]]].
    rewrite (bind_ok _ _ _ _ _ (get_domain_ok _ _ _ Hdx)).
    erewrite bind_ok.
    2:{ apply lift_ok. apply odv_words_run; [lia | | exact Hn].
        eapply lengths_in_range; eassumption. }
    rewrite (IH _ (n + List.length (filter (eliminates (p, q) word) dx)) Hincl')
      by apply (dict_get_set_same String.eqb string_eqb_spec).
    rewrite (dict_set_set String.eqb string_eqb_spec).
    unfold neighbor_eliminations at 2. rewrite Hpq, Hdx. do 3 f_equal. lia.
Qed.

Lemma odv_outer_run (ws : list string) :
  forall e,
    NoDup ws ->
    Forall (fun w => String.length w = var_length var) ws ->
    (forall w, In w ws -> dict_get String.eqb w e = Some 0) ->
    exists e',
      odv_outer cw var a ws e s = Ok (e', s) /\
      dict_keys e' = dict_keys e /\
      (forall w, In w ws ->
         dict_get String.eqb w e' = Some (eliminations cw (domains s) a var w)) /\
      (forall w, ~ In w ws -> dict_get String.eqb w e' = dict_get String.eqb w e).
Proof.
  induction ws as [|w ws IH]; intros e Hnd Hlen Hzero; simpl.
  - exists e. unfold ret. repeat split; auto. intros ? [].
  - inversion Hnd as [|? ? Hnin Hnd']; subst. inversion Hlen as [|? ? Hw Hlen']; subst.
    rewrite (bind_ok _ _ _ _ _
               (odv_neighbors_run w Hw (neighbors cw var) e 0 (incl_refl _)
                                  (Hzero w (or_introl eq_refl)))).
    simpl. fold (eliminations cw (domains s) a var w).
    set (e1 := dict_set String.eqb w (eliminations cw (domains s) a var w) e).
    destruct (IH e1 Hnd' Hlen') as [e' [Hrun [Hkeys [Hin Hout]]]].
    { intros w' Hw'. unfold e1.
      rewrite (dict_get_set_other String.eqb string_eqb_spec); [apply Hzero; now right|].
      intros ->. contradiction. }
    exists e'. split; [assumption|]. split; [|split].
    + rewrite Hkeys. unfold e1.
      apply (dict_keys_set_present String.eqb string_eqb_spec).
      apply (dict_mem_In String.eqb string_eqb_spec). unfold dict_mem.
      now rewrite (Hzero w (or_introl eq_refl)).
    + intros w' [<-|Hw']; [|now apply Hin].
      rewrite (Hout w Hnin). unfold e1.
      apply (dict_get_set_same String.eqb string_eqb_spec).
    + intros w' Hw'. rewrite Hout by (intros H; apply Hw'; now right).
      unfold e1. apply (dict_get_set_other String.eqb string_eqb_spec).
      intros ->. apply Hw'. now left.
Qed.

(** [order_domain_values] returns the domain of [var], stably sorted
    by the number of eliminations. *)
Lemma order_domain_values_run (d : list string) :
  dict_get var_eqb var (domains s) = Some d ->
  order_domain_values cw var a s
  = Ok (sorted_by (eliminations cw (domains s) a var) d, s).
Proof.
  intros Hd. unfold order_domain_values.
  destruct (inv_domain cw s var Hinv Hvar) as [d' [Hd' [Hnd Hlen]]].
  rewrite Hd in Hd'. inversion Hd'; subst d'. clear Hd'.
  rewrite (bind_ok _ _ _ _ _ (get_domain_ok _ _ _ Hd)).
  rewrite (bind_ok _ _ _ _ _ (get_domain_ok _ _ _ Hd)).
  rewrite (initial_eliminations d [] Hnd) by (intros ? _ []). simpl app.
  assert (Hk0 : dict_keys (map (fun w : string => (w, 0)) d) = d).
  { unfold dict_keys. rewrite map_map. simpl. apply map_id. }
  destruct (odv_outer_run d (map (fun w => (w, 0)) d) Hnd Hlen)
    as [e' [Hrun [Hkeys [Hin _]]]].
  { intros w Hw. apply (In_dict_get String.eqb string_eqb_spec).
    - now rewrite Hk0.
    - apply in_map_iff. now exists w. }
  rewrite (bind_ok _ _ _ _ _ Hrun). unfold ret. do 2 f_equal.
  rewrite Hk0 in Hkeys.
  rewrite (dict_of_keys (eliminations cw (domains s) a var) e').
  - rewrite Hkeys. apply sorted_by_paired.
  - now rewrite Hkeys.
  - rewrite Hkeys. exact Hin.
Qed.
End OrderDomainValues.

(** C7. [order_domain_values] returns exactly the words of the domain of
    [var], in ascending order of the number of candidates each word
    eliminates from the domains of the neighbours that have no word yet:
    the neighbour's candidates identical to the word or with another
    letter at the shared cell. Words that eliminate equally many keep
    the order of the domain. *)
Theorem order_domain_values_least_constraining (cw : Crossword)
    (s : CrosswordCreator) (var : Var) (a : assignment) (d : list string) :
  well_formed cw = true ->
  creator_inv cw s ->
  In var (variables cw) ->
  dict_get var_eqb var (domains s) = Some d ->
  exists ws,
    order_domain_values cw var a s = Ok (ws, s) /\
    Permutation ws d /\
    StronglySorted (fun w1 w2 => eliminations cw (domains s) a var w1
                                 <= eliminations cw (domains s) a var w2) ws /\
    ws = sorted_by (eliminations cw (domains s) a var) d.
Proof.
  intros Hwf Hinv Hvar Hd. exists (sorted_by (eliminations cw (domains s) a var) d).
  split; [now apply order_domain_values_run|].
  split; [apply sorted_by_perm|]. split; [apply sorted_by_sorted | reflexivity].
Qed.

(** ** backtrack *)

Lemma filter_length_lt {A : Type} (P Q : A -> bool) (v : A) (l : list A) :
  (forall x, P x = true -> Q x = true) ->
  In v l -> Q v = true -> P v = false ->
  List.length (filter P l) < List.length (filter Q l).
Proof.
  intros Himp. induction l as [|x l IH]; simpl; [tauto|].
  assert (Hle : List.length (filter P l) <= List.length (filter Q l)).
  { clear IH. induction l as [|y l IHl]; simpl; [lia|].
    destruct (P y) eqn:HP; [rewrite (Himp y HP); simpl; lia|].
    destruct (Q y); simpl; lia. }
  intros [->|Hin] HQ HP.
  - rewrite HQ, HP. simpl. lia.
  - specialize (IH Hin HQ HP).
    destruct (P x) eqn:HPx; [rewrite (Himp x HPx); simpl; lia|].
    destruct (Q x); simpl; lia.
Qed.

Lemma dict_mem_set (a : assignment) (var x : Var) (w : string) :
  dict_mem var_eqb x (dict_set var_eqb var w a)
  = var_eqb x var || dict_mem var_eqb x a.
Proof.
  unfold dict_mem. destruct (var_eqb_spec x var) as [->|Hne]; simpl.
  - now rewrite dict_get_set_same by apply var_eqb_spec.
  - now rewrite dict_get_set_other by (auto using var_eqb_spec).
Qed.

Lemma unassigned_set s (a : assignment) (var : Var) (w : string) :
  In var (unassigned s a) ->
  List.length (unassigned s (dict_set var_eqb var w a)) < List.length (unassigned s a).
Proof.
  unfold unassigned. intros Hin. apply filter_In in Hin. destruct Hin as [Hkey Hopen].
  apply filter_length_lt with (v := var); auto.
  - intros x. rewrite dict_mem_set. destruct (dict_mem var_eqb x a); [|reflexivity].
    now rewrite orb_true_r.
  - now rewrite dict_mem_set, var_eqb_refl.
Qed.

Lemma assignment_complete_run (cw : Crossword) (a : assignment) s :
  dict_keys (domains s) = variables cw ->
  exists b, assignment_complete a s = Ok (b, s) /\
            (b = true -> complete cw a) /\
            (b = false -> unassigned s a <> []).
Proof.
  intros Hkeys. unfold assignment_complete, get_domains, bind, ret.
  eexists. split; [reflexivity|]. rewrite Hkeys. split.
  - intros H v Hv. rewrite forallb_forall in H. specialize (H v Hv).
    unfold dict_mem in H. destruct (dict_get var_eqb v a) as [w|]; [now exists w | discriminate].
  - intros H Hnil. unfold unassigned in Hnil. rewrite Hkeys in Hnil.
    assert (Htrue : forallb (fun v => dict_mem var_eqb v a) (variables cw) = true);
      [|congruence].
    apply forallb_forall. intros v Hv.
    destruct (dict_mem var_eqb v a) eqn:Hm; [reflexivity|].
    assert (Hin : In v (filter (fun var => negb (dict_mem var_eqb var a)) (variables cw)))
      by (apply filter_In; rewrite Hm; auto).
    rewrite Hnil in Hin. destruct Hin.
Qed.

Lemma globally_consistent_sub (cw : Crossword) (a a' : assignment) :
  extends a a' -> globally_consistent cw a' -> globally_consistent cw a.
Proof.
  intros Hext [Hlen Hdist Hov]. constructor.
  - intros v w Hv Hw. apply (Hlen v w Hv). now apply Hext.
  - intros x y wx wy Hx Hy Hxy Hwx Hwy. apply (Hdist x y wx wy); auto.
  - intros x y i j wx wy Hx Hy Hij Hwx Hwy. apply (Hov x y i j wx wy); auto.
Qed.

Lemma extends_set (a : assignment) (var : Var) (w : string) :
  ~ In var (dict_keys a) -> extends a (dict_set var_eqb var w a).
Proof.
  intros Hnin v w' Hv. rewrite dict_get_set_other; [assumption | apply var_eqb_spec |].
  intros ->. apply Hnin. eapply dict_get_keys; eassumption.
Qed.

Lemma search_state_set (cw : Crossword) ds (a : assignment) (var : Var) (w : string) d :
  search_state cw ds a ->
  In var (variables cw) -> ~ In var (dict_keys a) ->
  dict_get var_eqb var ds = Some d -> In w d ->
  globally_consistent cw (dict_set var_eqb var w a) ->
  search_state cw ds (dict_set var_eqb var w a).
Proof.
  intros [Hnd Hkeys Hgc Hfrom] Hvar Hnin Hd Hw Hgc'.
  rewrite (dict_set_absent var_eqb var_eqb_spec) in * by assumption.
  constructor.
  - unfold dict_keys. rewrite map_app. simpl. apply NoDup_app_remove_l with (l := []).
    simpl. apply Permutation_NoDup with (l := var :: map fst a).
    + apply Permutation_cons_append.
    + constructor; assumption.
  - unfold dict_keys. rewrite map_app. simpl. intros x Hx. apply in_app_iff in Hx.
    destruct Hx as [Hx|[<-|[]]]; auto.
  - assumption.
  - intros v w' Hv Hw'.
    rewrite <- (dict_set_absent var_eqb var_eqb_spec) in Hw' by assumption.
    destruct (var_eqb_spec v var) as [->|Hne].
    + rewrite dict_get_set_same in Hw' by apply var_eqb_spec.
      inversion Hw'; subst. now exists d.
    + rewrite dict_get_set_other in Hw' by (auto using var_eqb_spec). now apply Hfrom.
Qed.

Section Search.
Variable cw : Crossword.
Hypothesis Hwf : well_formed cw = true.

(** The loop over the ordered words, for any recursive call [rec]
    that searches correctly. The loop starts each word from the
    assignment [a]: a failed attempt has popped its word again. *)
Lemma try_words_correct (rec : assignment -> M (bool * assignment))
    (s0 : CrosswordCreator) (bound : nat) (a : assignment) (var : Var)
    (d : list string) :
  (forall a1 s1,
     domains s1 = domains s0 -> search_state cw (domains s0) a1 ->
     List.length (unassigned s0 a1) < bound ->
     search_result cw s1 a1 (rec a1 s1)) ->
  search_state cw (domains s0) a ->
  In var (unassigned s0 a) -> In var (variables cw) ->
  dict_get var_eqb var (domains s0) = Some d ->
  List.length (unassigned s0 a) <= bound ->
  forall ws s1,
    incl ws d -> domains s1 = domains s0 ->
    exists b a' s',
      try_words cw rec var ws a s1 = Ok ((b, a'), s') /\
      domains s' = domains s0 /\
      (b = true -> complete cw a' /\ search_state cw (domains s0) a' /\ extends a a') /\
      (b = false -> a' = a /\
         forall w, In w ws -> no_completion cw (domains s0) (dict_set var_eqb var w a)).
Proof.
  intros Hrec Hst Hopen Hvar Hd Hbound.
  assert (Hnin : ~ In var (dict_keys a)).
  { unfold unassigned in Hopen. apply filter_In in Hopen. destruct Hopen as [_ Hm].
    apply negb_true_iff in Hm. now apply (dict_mem_false var_eqb var_eqb_spec). }
  induction ws as [|w ws IH]; intros s1 Hincl Hdom; simpl.
  - exists false, a, s1. unfold ret. split; [reflexivity|]. split; [assumption|].
    split; [discriminate|]. intros _. split; [reflexivity | intros ? []].
  - assert (Hw : In w d) by (apply Hincl; now left).
    assert (Hincl' : incl ws d) by (intros x Hx; apply Hincl; now right).
    set (a1 := dict_set var_eqb var w a).
    assert (Hnd1 : NoDup (dict_keys a1)).
    { unfold a1. rewrite (dict_set_absent var_eqb var_eqb_spec) by assumption.
      unfold dict_keys. rewrite map_app. simpl.
      apply Permutation_NoDup with (l := var :: map fst a).
      - apply Permutation_cons_append.
      - constructor; [assumption | apply (st_nodup cw _ a Hst)]. }
    assert (Hkeys1 : incl (dict_keys a1) (variables cw)).
    { unfold a1. rewrite (dict_set_absent var_eqb var_eqb_spec) by assumption.
      unfold dict_keys. rewrite map_app. simpl. intros x Hx. apply in_app_iff in Hx.
      destruct Hx as [Hx|[<-|[]]]; [now apply (st_keys cw _ a Hst) | assumption]. }
    assert (Hpop : forall s, (a2 <- lift (dict_pop var_eqb var a1) ;;
                              try_words cw rec var ws a2) s
                             = try_words cw rec var ws a s).
    { intros s. unfold a1.
      now rewrite (bind_ok _ _ _ _ _
                     (lift_ok _ _ s (dict_pop_set_absent var_eqb var_eqb_spec var w a Hnin))). }
    assert (Hfail : forall s, domains s = domains s0 ->
              no_completion cw (domains s0) a1 ->
              exists b a' s',
                try_words cw rec var ws a s = Ok ((b, a'), s') /\
                domains s' = domains s0 /\
                (b = true -> complete cw a' /\ search_state cw (domains s0) a'
                             /\ extends a a') /\
                (b = false -> a' = a /\
                   forall w', In w' (w :: ws) ->
                     no_completion cw (domains s0) (dict_set var_eqb var w' a))).
    { intros s Hs Hno. destruct (IH s Hincl' Hs) as [b [a' [s' [Hrun [Hd' [Ht Hf]]]]]].
      exists b, a', s'. split; [exact Hrun|]. split; [exact Hd'|]. split; [exact Ht|].
      intros Hb. destruct (Hf Hb) as [-> Hno']. split; [reflexivity|].
      intros w' [<-|Hw']; [exact Hno | now apply Hno']. }
    destruct (consistent_spec cw Hwf a1 s1 Hnd1 Hkeys1) as [ok [Hcons Hok]].
    rewrite (bind_ok _ _ _ _ _ Hcons). destruct ok.
    + assert (Hst1 : search_state cw (domains s0) a1).
      { unfold a1. eapply search_state_set; eauto. now apply Hok. }
      assert (Hlt : List.length (unassigned s0 a1) < bound).
      { unfold a1. pose proof (unassigned_set s0 a var w Hopen). lia. }
      destruct (Hrec a1 s1 Hdom Hst1 Hlt) as [b [a2 [s2 [Hrun [Hd2 [Ht Hf]]]]]].
      rewrite (bind_ok _ _ _ _ _ Hrun). simpl fst. destruct b.
      * exists true, a2, s2. unfold ret. rewrite Hdom in *.
        destruct (Ht eq_refl) as [Hc [Hs2 He]].
        split; [reflexivity|]. split; [assumption|]. split; [|discriminate].
        intros _. split; [assumption|]. split; [assumption|].
        intros v w' Hv. apply He. unfold a1. now apply extends_set.
      * destruct (Hf eq_refl) as [-> Hno]. simpl snd. rewrite Hpop.
        apply Hfail; [congruence|]. now rewrite <- Hdom.
    + rewrite Hpop. apply Hfail; [assumption|].
      intros a' Hc Hgc Hfrom Hext.
      assert (Hgc1 : globally_consistent cw a1)
        by (eapply globally_consistent_sub; eassumption).
      apply Hok in Hgc1. discriminate.
Qed.

(** With fuel above the number of open slots, [backtrack] returns: a
    completion of the assignment that is globally consistent, or a
    failure when there is none. *)
Lemma backtrack_correct (fuel : nat) :
  forall a s,
    creator_inv cw s -> search_state cw (domains s) a ->
    List.length (unassigned s a) < fuel ->
    search_result cw s a (backtrack cw fuel a s).
Proof.
  induction fuel as [|fuel IH]; intros a s Hinv Hst Hfuel; [lia|].
  simpl. unfold bind at 1. unfold tick_backtrack.
  set (s1 := mkCreator (domains s) (S (backtrack_calls s))).
  assert (Hinv1 : creator_inv cw s1) by now apply creator_inv_calls.
  destruct (assignment_complete_run cw a s1 (inv_keys cw s1 Hinv1))
    as [b [Hrun [Htrue Hfalse]]].
  rewrite (bind_ok _ _ _ _ _ Hrun). destruct b.
  - exists true, a, s1. unfold ret. split; [reflexivity|]. split; [reflexivity|].
    split; [|discriminate]. intros _. split; [now apply Htrue|].
    split; [assumption | intros v w H; exact H].
  - specialize (Hfalse eq_refl).
    destruct (select_run cw a s1 Hfalse) as [var [Hsel [Hopen _]]].
    rewrite (bind_ok _ _ _ _ _ Hsel).
    assert (Hvar : In var (variables cw)).
    { unfold unassigned in Hopen. apply filter_In in Hopen. destruct Hopen as [Hk _].
      now rewrite (inv_keys cw s1 Hinv1) in Hk. }
    destruct (inv_domain cw s1 var Hinv1 Hvar) as [d [Hd _]].
    rewrite (bind_ok _ _ _ _ _ (order_domain_values_run cw Hwf s1 Hinv1 var Hvar a d Hd)).
    destruct (try_words_correct (backtrack cw fuel) s1 fuel a var d) with
      (ws := sorted_by (eliminations cw (domains s1) a var) d) (s1 := s1)
      as [b [a' [s' [Hrun' [Hd' [Ht Hf]]]]]]; auto.
    + intros a1 s2 Hs2 Hst1 Hlt. apply IH.
      * destruct Hinv1 as [H1 [H2 H3] H4]. constructor; [|split|]; now rewrite Hs2.
      * now rewrite Hs2.
      * unfold unassigned in *. now rewrite Hs2.
    + unfold unassigned in *. simpl in *. lia.
    + intros w Hw. eapply Permutation_in; [apply sorted_by_perm | exact Hw].
    + exists b, a', s'. split; [exact Hrun'|]. split; [exact Hd'|]. split; [exact Ht|].
      intros Hb. destruct (Hf Hb) as [-> Hno]. split; [reflexivity|].
      intros a' Hc Hgc Hfrom Hext.
      destruct (Hc var Hvar) as [w Hw].
      destruct (Hfrom var w Hvar Hw) as [d' [Hd'' Hin]].
      simpl in Hd, Hd''. rewrite Hd in Hd''. inversion Hd''; subst d'.
      apply (Hno w) with (a' := a'); auto.
      * eapply Permutation_in; [apply Permutation_sym, sorted_by_perm | exact Hin].
      * intros v w' Hv. destruct (var_eqb_spec v var) as [->|Hne].
        -- rewrite dict_get_set_same in Hv by apply var_eqb_spec. congruence.
        -- rewrite dict_get_set_other in Hv by (auto using var_eqb_spec). now apply Hext.
Qed.
End Search.

(** ** The search does not write to the domains *)

Lemma pure_ret {A : Type} (a : A) : pure_method (ret a).
Proof. intros s r s' H. unfold ret in H. now inversion H. Qed.

Lemma pure_lift {A : Type} (c : outcome A) : pure_method (lift c).
Proof. intros s r s' H. now apply lift_inv in H. Qed.

Lemma pure_get_domain v : pure_method (get_domain v).
Proof. intros s r s' H. now apply get_domain_inv in H. Qed.

Lemma pure_get_domains : pure_method get_domains.
Proof. intros s r s' H. unfold get_domains in H. now inversion H. Qed.

Lemma pure_bind {A B : Type} (c : M A) (k : A -> M B) :
  pure_method c -> (forall a, pure_method (k a)) -> pure_method (bind c k).
Proof.
  intros Hc Hk s r s' H. apply bind_inv in H. destruct H as [a [s1 [H1 H2]]].
  apply Hc in H1. subst s1. eapply Hk; eassumption.
Qed.

Lemma keeps_pure {A : Type} (c : M A) : pure_method c -> keeps_domains c.
Proof. intros H s r s' Hrun. now rewrite (H s r s' Hrun). Qed.

Lemma keeps_bind {A B : Type} (c : M A) (k : A -> M B) :
  keeps_domains c -> (forall a, keeps_domains (k a)) -> keeps_domains (bind c k).
Proof.
  intros Hc Hk s r s' H. apply bind_inv in H. destruct H as [a [s1 [H1 H2]]].
  apply Hc in H1. apply Hk in H2. congruence.
Qed.

Lemma pure_assignment_complete (a : assignment) : pure_method (assignment_complete a).
Proof.
  unfold assignment_complete. apply pure_bind; [apply pure_get_domains|].
  intros ds. apply pure_ret.
Qed.

Lemma pure_consistent (cw : Crossword) (a : assignment) : pure_method (consistent cw a).
Proof.
  unfold consistent. destruct (consistent_unary a []); [apply pure_lift | apply pure_ret].
Qed.

Lemma pure_select_min_loop (l : list (nat * Var)) :
  forall m idxs, pure_method (select_min_loop l m idxs).
Proof.
  induction l as [|[v var] l IH]; intros m idxs; simpl; [apply pure_ret|].
  apply pure_bind; [apply pure_get_domain|]. intros d.
  destruct (List.length d <? m); [apply IH|].
  destruct (List.length d =? m); apply IH.
Qed.

Lemma pure_select (cw : Crossword) (a : assignment) :
  pure_method (select_unassigned_variable cw a).
Proof.
  unfold select_unassigned_variable.
  apply pure_bind; [apply pure_get_domains|]. intros ds.
  apply pure_bind; [apply pure_lift|]. intros var0.
  apply pure_bind; [apply pure_get_domain|]. intros d0.
  apply pure_bind; [apply pure_select_min_loop|]. intros r.
  destruct (List.length (snd r) =? 1).
  - apply pure_bind; [apply pure_lift|]. intros index. apply pure_lift.
  - apply pure_bind; [apply pure_lift|]. intros nums.
    apply pure_bind; [apply pure_lift|]. intros index. apply pure_lift.
Qed.

Lemma pure_odv_neighbors (cw : Crossword) var a word (ns : list Var) :
  forall e, pure_method (odv_neighbors cw var a word ns e).
Proof.
  induction ns as [|n ns IH]; intros e; simpl; [apply pure_ret|].
  destruct (dict_mem var_eqb n a); [apply IH|].
  apply pure_bind; [apply pure_get_domain|]. intros dn.
  apply pure_bind; [apply pure_lift|]. intros e'. apply IH.
Qed.

Lemma pure_odv_outer (cw : Crossword) var a (ws : list string) :
  forall e, pure_method (odv_outer cw var a ws e).
Proof.
  induction ws as [|w ws IH]; intros e; simpl; [apply pure_ret|].
  apply pure_bind; [apply pure_odv_neighbors|]. intros e'. apply IH.
Qed.

Lemma pure_order_domain_values (cw : Crossword) var a :
  pure_method (order_domain_values cw var a).
Proof.
  unfold order_domain_values.
  apply pure_bind; [apply pure_get_domain|]. intros d.
  apply pure_bind; [apply pure_get_domain|]. intros d'.
  apply pure_bind; [apply pure_odv_outer|]. intros e. apply pure_ret.
Qed.

Lemma keeps_try_words (cw : Crossword) (rec : assignment -> M (bool * assignment))
    (var : Var) (ws : list string) :
  (forall a, keeps_domains (rec a)) ->
  forall a, keeps_domains (try_words cw rec var ws a).
Proof.
  intros Hrec. induction ws as [|w ws IH]; intros a; simpl.
  - apply keeps_pure, pure_ret.
  - apply keeps_bind; [apply keeps_pure, pure_consistent|]. intros ok.
    destruct ok.
    + apply keeps_bind; [apply Hrec|]. intros r. destruct (fst r).
      * apply keeps_pure, pure_ret.
      * apply keeps_bind; [apply keeps_pure, pure_lift|]. intros a2. apply IH.
    + apply keeps_bind; [apply keeps_pure, pure_lift|]. intros a2. apply IH.
Qed.

Lemma keeps_backtrack (cw : Crossword) (fuel : nat) :
  forall a, keeps_domains (backtrack cw fuel a).
Proof.
  induction fuel as [|fuel IH]; intros a; simpl; [intros s r s' H; discriminate|].
  apply keeps_bind.
  { intros s r s' H. unfold tick_backtrack in H. now inversion H. }
  intros _. apply keeps_bind; [apply keeps_pure, pure_assignment_complete|].
  intros complete. destruct complete; [apply keeps_pure, pure_ret|].
  apply keeps_bind; [apply keeps_pure, pure_select|]. intros var.
  apply keeps_bind; [apply keeps_pure, pure_order_domain_values|]. intros ws.
  now apply keeps_try_words.
Qed.

(** C9. Whenever [backtrack] returns, with an assignment or with
    [None], every domain is what it was at the call; the helpers
    [assignment_complete], [consistent], [order_domain_values] and
    [select_unassigned_variable] leave the whole state as it is. *)
Theorem backtrack_keeps_domains (cw : Crossword) :
  (forall fuel a s r s',
     backtrack cw fuel a s = Ok (r, s') -> domains s' = domains s) /\
  (forall a s r s', consistent cw a s = Ok (r, s') -> s' = s) /\
  (forall var a s r s', order_domain_values cw var a s = Ok (r, s') -> s' = s) /\
  (forall a s r s', select_unassigned_variable cw a s = Ok (r, s') -> s' = s) /\
  (forall a s r s', assignment_complete a s = Ok (r, s') -> s' = s).
Proof.
  split; [intros fuel a; apply keeps_backtrack|].
  split; [intros a; apply pure_consistent|].
  split; [intros var a; apply pure_order_domain_values|].
  split; [intros a; apply pure_select | intros a; apply pure_assignment_complete].
Qed.

(** ** More fuel does not change a result *)

Lemma try_words_more (cw : Crossword) (rec rec' : assignment -> M (bool * assignment))
    (var : Var) (ws : list string) :
  (forall a s r, rec a s = Ok r -> rec' a s = Ok r) ->
  forall a s r, try_words cw rec var ws a s = Ok r -> try_words cw rec' var ws a s = Ok r.
Proof.
  intros Hrec. induction ws as [|w ws IH]; intros a s [r s'] H; simpl in *; [assumption|].
  apply bind_inv in H. destruct H as [ok [s1 [Hc H]]].
  rewrite (bind_ok _ _ _ _ _ Hc). destruct ok.
  - apply bind_inv in H. destruct H as [r1 [s2 [Hr H]]].
    rewrite (bind_ok _ _ _ _ _ (Hrec _ _ _ Hr)). destruct (fst r1); [assumption|].
    apply bind_inv in H. destruct H as [a2 [s3 [Hp H]]].
    rewrite (bind_ok _ _ _ _ _ Hp). now apply IH.
  - apply bind_inv in H. destruct H as [a2 [s3 [Hp H]]].
    rewrite (bind_ok _ _ _ _ _ Hp). now apply IH.
Qed.

Lemma backtrack_more (cw : Crossword) (fuel : nat) :
  forall k a s r, backtrack cw fuel a s = Ok r -> backtrack cw (fuel + k) a s = Ok r.
Proof.
  induction fuel as [|fuel IH]; intros k a s [r s'] H; simpl in *; [discriminate|].
  apply bind_inv in H. destruct H as [[] [s1 [Ht H]]]. rewrite (bind_ok _ _ _ _ _ Ht).
  apply bind_inv in H. destruct H as [c [s2 [Hc H]]]. rewrite (bind_ok _ _ _ _ _ Hc).
  destruct c; [assumption|].
  apply bind_inv in H. destruct H as [var [s3 [Hv H]]]. rewrite (bind_ok _ _ _ _ _ Hv).
  apply bind_inv in H. destruct H as [ws [s4 [Ho H]]]. rewrite (bind_ok _ _ _ _ _ Ho).
  eapply try_words_more; [|exact H]. intros a1 s5 r1. apply IH.
Qed.

(** ** solve *)

Lemma drawn_from_shrunk (cw : Crossword) ds' ds (a : assignment) :
  domains_shrunk ds' ds -> drawn_from cw ds' a -> drawn_from cw ds a.
Proof.
  intros [_ Hsh] Hfrom v w Hv Hw. destruct (Hfrom v w Hv Hw) as [d' [Hd' Hin]].
  destruct (Hsh v d' Hd') as [d [Hd Hincl]]. exists d. auto.
Qed.

Lemma search_state_empty (cw : Crossword) ds : search_state cw ds [].
Proof.
  constructor; simpl.
  - constructor.
  - intros ? [].
  - constructor; simpl; intros; discriminate.
  - intros v w _ H. discriminate.
Qed.

Lemma unassigned_length s (a : assignment) :
  List.length (unassigned s a) <= List.length (domains s).
Proof.
  unfold unassigned, dict_keys.
  rewrite <- (length_map fst (domains s)). apply filter_length_le.
Qed.

Section Solve.
Variable cw : Crossword.
Hypothesis Hwf : well_formed cw = true.

(** A search from the empty assignment, with the fuel of [solve]. *)
Lemma backtrack_from_empty s :
  creator_inv cw s ->
  search_result cw s [] (backtrack cw (S (List.length (domains s))) [] s).
Proof.
  intros Hinv. apply backtrack_correct; auto using search_state_empty.
  pose proof (unassigned_length s []). lia.
Qed.

(** With an empty domain in the store, the first call of [backtrack]
    selects a slot without words and returns at once. *)
Lemma backtrack_with_empty_domain s x fuel :
  creator_inv cw s -> In x (variables cw) ->
  dict_get var_eqb x (domains s) = Some [] ->
  backtrack cw (S fuel) [] s
  = Ok ((false, []), mkCreator (domains s) (S (backtrack_calls s))).
Proof.
  intros Hinv Hx Hempty. simpl. unfold bind at 1. unfold tick_backtrack.
  set (s1 := mkCreator (domains s) (S (backtrack_calls s))).
  assert (Hinv1 : creator_inv cw s1) by now apply creator_inv_calls.
  assert (Hopen : In x (unassigned s1 [])).
  { unfold unassigned. apply filter_In. split; [|reflexivity].
    simpl. now rewrite (inv_keys cw s Hinv). }
  destruct (assignment_complete_run cw [] s1 (inv_keys cw s1 Hinv1))
    as [b [Hrun [Htrue _]]].
  rewrite (bind_ok _ _ _ _ _ Hrun). destruct b.
  { destruct (Htrue eq_refl x Hx) as [w Hw]. discriminate. }
  destruct (select_run cw [] s1) as [var [Hsel [Hvar [m [[d [Hd Hm]] Hmin]]]]].
  { intros Hnil. rewrite Hnil in Hopen. destruct Hopen. }
  rewrite (bind_ok _ _ _ _ _ Hsel).
  specialize (Hmin x [] Hopen Hempty). simpl in Hmin.
  assert (d = []) by (destruct d; [reflexivity | simpl in Hm; lia]). subst d.
  assert (Hvar' : In var (variables cw)).
  { unfold unassigned in Hvar. apply filter_In in Hvar. destruct Hvar as [Hk _].
    now rewrite (inv_keys cw s1 Hinv1) in Hk. }
  rewrite (bind_ok _ _ _ _ _
             (order_domain_values_run cw Hwf s1 Hinv1 var Hvar' [] [] Hd)).
  reflexivity.
Qed.

(** [solve] returns: node consistency and [ac3] keep every solution
    over the domains, and the search is correct on what they leave. *)
Lemma solve_run s :
  store_ok s -> dict_keys (domains s) = variables cw ->
  exists r s',
    solve cw s = Ok (r, s') /\
    (forall a, r = Some a ->
       complete cw a /\ globally_consistent cw a /\ drawn_from cw (domains s) a) /\
    (r = None ->
       forall a, complete cw a -> globally_consistent cw a ->
                 drawn_from cw (domains s) a -> False).
Proof.
  intros Hok Hkeys. unfold solve.
  destruct (enforce_run s Hok) as [s1 [Hrun1 _]].
  destruct (enforce_establishes s s1 Hok Hrun1)
    as [Hok1 [Hnode1 [Hsh1 [Hkeys1 [_ Hget1]]]]].
  assert (Hinv1 : creator_inv cw s1)
    by (constructor; [congruence | assumption | assumption]).
  rewrite (bind_ok _ _ _ _ _ Hrun1).
  destruct (ac3_run cw Hwf s1 Hinv1) as [b [s2 [Hrun2 [Hinv2 [_ [Hsh2 [Hsol2 _]]]]]]].
  rewrite (bind_ok _ _ _ _ _ Hrun2).
  unfold get_domains. unfold bind at 1.
  destruct (backtrack_from_empty s2 Hinv2) as [found [a' [s3 [Hrun3 [_ [Ht Hf]]]]]].
  rewrite (bind_ok _ _ _ _ _ Hrun3). unfold ret. simpl.
  eexists _, _. split; [reflexivity|]. destruct found; split.
  - intros a Ha. inversion Ha; subst a'. destruct (Ht eq_refl) as [Hc [Hst _]].
    split; [assumption|]. split; [apply (st_consistent cw _ a Hst)|].
    eapply drawn_from_shrunk; [exact Hsh1|].
    eapply drawn_from_shrunk; [exact Hsh2|]. apply (st_from cw _ a Hst).
  - discriminate.
  - discriminate.
  - intros _ a Hc Hgc Hfrom. destruct (Hf eq_refl) as [_ Hno].
    apply (Hno a Hc Hgc); [|intros v w H; discriminate].
    apply Hsol2; auto.
    intros v w Hv Hw. destruct (Hfrom v w Hv Hw) as [d [Hd Hin]].
    exists (of_length v d). split; [now apply Hget1|].
    apply filter_In. split; [assumption|].
    apply Nat.eqb_eq. now apply (gc_length cw a Hgc).
Qed.
End Solve.

(** C1. On a well-formed grid [solve] returns. When the puzzle has a
    solution (a consistent complete assignment of words of the
    vocabulary), the result is such a solution; the result is [None]
    only when the puzzle has none. *)
Theorem solve_finds_a_solution (cw : Crossword) :
  well_formed cw = true ->
  exists r s',
    solve cw (init_creator cw) = Ok (r, s') /\
    ((exists a, is_solution cw a) -> exists a, r = Some a /\ is_solution cw a) /\
    (r = None -> forall a, ~ is_solution cw a).
Proof.
  intros Hwf.
  destruct (solve_run cw Hwf (init_creator cw) (init_store_ok cw Hwf) (init_keys cw))
    as [r [s' [Hrun [Hsome Hnone]]]].
  exists r, s'. split; [assumption|]. split.
  - intros [a [Hc [Hgc Hfrom]]]. destruct r as [a'|].
    + exists a'. split; [reflexivity|]. now apply Hsome.
    + exfalso. now apply (Hnone eq_refl a).
  - intros Hr a [Hc [Hgc Hfrom]]. now apply (Hnone Hr a).
Qed.

(** C2. An assignment that [solve] returns, or that [backtrack] returns
    from the empty assignment, gives every slot a word and is globally
    consistent: the words have the lengths of their slots, differ from
    one another, and agree where two slots cross. *)
Theorem solve_result_is_consistent (cw : Crossword) :
  well_formed cw = true ->
  (forall s a s',
     store_ok s -> dict_keys (domains s) = variables cw ->
     solve cw s = Ok (Some a, s') ->
     complete cw a /\ globally_consistent cw a) /\
  (forall fuel s a s',
     creator_inv cw s ->
     backtrack cw fuel [] s = Ok ((true, a), s') ->
     complete cw a /\ globally_consistent cw a).
Proof.
  intros Hwf. split.
  - intros s a s' Hok Hkeys Hrun.
    destruct (solve_run cw Hwf s Hok Hkeys) as [r [s1 [Hrun1 [Hsome _]]]].
    rewrite Hrun in Hrun1. inversion Hrun1; subst r s1.
    destruct (Hsome a eq_refl) as [Hc [Hgc _]]. auto.
  - intros fuel s a s' Hinv Hrun.
    apply (backtrack_more cw fuel (S (List.length (domains s)))) in Hrun.
    destruct (backtrack_correct cw Hwf (fuel + S (List.length (domains s))) [] s)
      as [b [a' [s1 [Hrun1 [_ [Ht _]]]]]]; auto using search_state_empty.
    { pose proof (unassigned_length s []). lia. }
    rewrite Hrun in Hrun1. inversion Hrun1; subst b a' s1.
    destruct (Ht eq_refl) as [Hc [Hst _]]. split; [assumption|].
    apply (st_consistent cw _ a Hst).
Qed.

(** ** solve after a failure of ac3 *)

(** C3, as the claim states it, fails: [solve] does not look at the
    result of [ac3]. On the grid [one_word], [ac3] empties a domain and
    returns [False], and [solve] still calls [backtrack]. *)
Lemma failed_ac3_enters_backtrack :
  (enforce_node_consistency (init_creator Examples.one_word)
   = Ok (tt, Examples.one_word_filtered) /\
   ac3 Examples.one_word None Examples.one_word_filtered
   = Ok (false, Examples.one_word_failed) /\
   exists s3,
     solve Examples.one_word (init_creator Examples.one_word) = Ok (None, s3) /\
     backtrack_calls s3 = 1 /\
     backtrack_calls (init_creator Examples.one_word) = 0) /\
  ~ solve_skips_search Examples.one_word (init_creator Examples.one_word).
Proof.
  assert (H1 : enforce_node_consistency (init_creator Examples.one_word)
               = Ok (tt, Examples.one_word_filtered)) by (vm_compute; reflexivity).
  assert (H2 : ac3 Examples.one_word None Examples.one_word_filtered
               = Ok (false, Examples.one_word_failed)) by (vm_compute; reflexivity).
  assert (H3 : solve Examples.one_word (init_creator Examples.one_word)
               = Ok (None, mkCreator (domains Examples.one_word_failed) 1))
    by (vm_compute; reflexivity).
  split.
  - split; [exact H1|]. split; [exact H2|]. eexists. split; [exact H3|]. split; reflexivity.
  - intros Hclaim. destruct (Hclaim _ _ _ _ H1 H2 H3) as [_ Hcalls]. discriminate Hcalls.
Qed.

(** C3, amended. When the [ac3] call of [solve] reports a failure,
    [solve] returns [None]: it enters [backtrack] once, and that call
    returns [None] without a recursive call and without a change of the
    domains. *)
Theorem solve_after_failed_ac3 (cw : Crossword) (s s1 s2 : CrosswordCreator) :
  well_formed cw = true ->
  store_ok s ->
  dict_keys (domains s) = variables cw ->
  enforce_node_consistency s = Ok (tt, s1) ->
  ac3 cw None s1 = Ok (false, s2) ->
  solve cw s = Ok (None, mkCreator (domains s2) (S (backtrack_calls s))).
Proof.
  intros Hwf Hok Hkeys Hrun1 Hrun2.
  destruct (enforce_establishes s s1 Hok Hrun1)
    as [Hok1 [Hnode1 [_ [Hkeys1 [Hcalls1 _]]]]].
  assert (Hinv1 : creator_inv cw s1)
    by (constructor; [congruence | assumption | assumption]).
  destruct (ac3_run cw Hwf s1 Hinv1) as [b [s2' [Hrun2' [Hinv2 [Hcalls2 [_ [_ Hempty]]]]]]].
  rewrite Hrun2 in Hrun2'. inversion Hrun2'; subst b s2'.
  destruct (Hempty eq_refl) as [x [Hx Hdx]].
  unfold solve.
  rewrite (bind_ok _ _ _ _ _ Hrun1), (bind_ok _ _ _ _ _ Hrun2).
  unfold get_domains. unfold bind at 1.
  rewrite (bind_ok _ _ _ _ _
             (backtrack_with_empty_domain cw Hwf s2 x _ Hinv2 Hx Hdx)).
  unfold ret. simpl. do 3 f_equal. congruence.
Qed.

(** ** The arcs ac3 starts from *)

(** The default arcs never hold an arc together with its reverse. *)
Lemma combinations2_one_way {A : Type} (l : list A) (x y : A) :
  NoDup l -> In (x, y) (combinations2 l) -> ~ In (y, x) (combinations2 l).
Proof.
  induction l as [|a l IH]; simpl; [tauto|]. intros Hnd Hxy Hyx.
  inversion Hnd as [|? ? Hnin Hnd']; subst.
  apply in_app_iff in Hxy. apply in_app_iff in Hyx.
  destruct Hxy as [Hxy|Hxy], Hyx as [Hyx|Hyx].
  - apply in_map_iff in Hxy. destruct Hxy as [b [Heq Hb]]. inversion Heq; subst.
    apply in_map_iff in Hyx. destruct Hyx as [b' [Heq' Hb']]. inversion Heq'; subst.
    contradiction.
  - apply in_map_iff in Hxy. destruct Hxy as [b [Heq Hb]]. inversion Heq; subst.
    apply combinations2_in in Hyx. tauto.
  - apply in_map_iff in Hyx. destruct Hyx as [b [Heq Hb]]. inversion Heq; subst.
    apply combinations2_in in Hxy. tauto.
  - now apply (IH Hnd' Hxy).
Qed.

(** C5 fails on the code. For the two crossing slots of [two_crossing]
    the default call of [ac3] starts from the single arc
    [(across0, down1)]; the reverse arc is not in the worklist. [ac3]
    then returns [True] although DOG in the column has no support in
    the row. *)
Theorem default_arcs_are_one_way :
  initial_arcs (domains (init_creator Examples.two_crossing))
  = [(Examples.across0, Examples.down1)] /\
  ~ In (Examples.down1, Examples.across0)
       (initial_arcs (domains (init_creator Examples.two_crossing))) /\
  (enforce_node_consistency ;; ac3 Examples.two_crossing None)
    (init_creator Examples.two_crossing)
  = Ok (true, Examples.two_crossing_propagated) /\
  overlaps Examples.two_crossing Examples.down1 Examples.across0 = Some (0, 1) /\
  dict_get var_eqb Examples.across0 (domains Examples.two_crossing_propagated)
  = Some ["CAT"; "ACT"] /\
  In "DOG" ["CAT"; "DOG"; "ACT"] /\
  dict_get var_eqb Examples.down1 (domains Examples.two_crossing_propagated)
  = Some ["CAT"; "DOG"; "ACT"] /\
  ~ has_support 0 1 ["CAT"; "ACT"] "DOG".
Proof.
  split; [reflexivity|]. split.
  { intros [H|[]]. discriminate H. }
  split; [vm_compute; reflexivity|]. split; [reflexivity|]. split; [reflexivity|].
  split; [simpl; auto|]. split; [reflexivity|].
  intros H. apply has_supportb_spec in H. vm_compute in H. discriminate H.
Qed.

(** ** The tie-break of select_unassigned_variable *)

(** C6 fails on the code. On the grid [fork], when the search starts,
    the row [row0] and the columns [col0] and [col2] have the fewest
    words, three each. [row0] has two neighbours and the columns one
    each, and still [select_unassigned_variable] returns [col0]. *)
Theorem select_misses_highest_degree :
  (enforce_node_consistency ;; ac3 Examples.fork None) (init_creator Examples.fork)
  = Ok (true, Examples.fork_propagated) /\
  select_unassigned_variable Examples.fork [] Examples.fork_propagated
  = Ok (Examples.col0, Examples.fork_propagated) /\
  unassigned Examples.fork_propagated []
  = [Examples.row4; Examples.row0; Examples.col0; Examples.col2] /\
  sized Examples.fork_propagated Examples.row4 4 /\
  sized Examples.fork_propagated Examples.row0 3 /\
  sized Examples.fork_propagated Examples.col0 3 /\
  sized Examples.fork_propagated Examples.col2 3 /\
  List.length (neighbors Examples.fork Examples.row0) = 2 /\
  List.length (neighbors Examples.fork Examples.col0) = 1.
Proof.
  split; [vm_compute; reflexivity|]. split; [vm_compute; reflexivity|].
  split; [reflexivity|].
  repeat (split; [eexists; split; reflexivity|]).
  split; reflexivity.
Qed.

(** ** The properties at concrete grids *)

Lemma propagated_inv (cw : Crossword) (s s' : CrosswordCreator) (b : bool) :
  well_formed cw = true -> store_ok s -> dict_keys (domains s) = variables cw ->
  (enforce_node_consistency ;; ac3 cw None) s = Ok (b, s') ->
  creator_inv cw s'.
Proof.
  intros Hwf Hok Hkeys Hrun. apply bind_inv in Hrun.
  destruct Hrun as [[] [s1 [Hrun1 Hrun2]]].
  destruct (enforce_establishes s s1 Hok Hrun1) as [Hok1 [Hnode1 [_ [Hkeys1 _]]]].
  assert (Hinv1 : creator_inv cw s1)
    by (constructor; [congruence | assumption | assumption]).
  destruct (ac3_run cw Hwf s1 Hinv1) as [b' [s2 [Hrun2' [Hinv2 _]]]].
  rewrite Hrun2 in Hrun2'. now inversion Hrun2'; subst.
Qed.

Lemma fork_propagated_inv : creator_inv Examples.fork Examples.fork_propagated.
Proof.
  apply (propagated_inv Examples.fork (init_creator Examples.fork) _ true).
  - reflexivity.
  - apply init_store_ok. reflexivity.
  - apply init_keys.
  - vm_compute. reflexivity.
Qed.

Lemma solve_finds_a_solution_witness :
  well_formed Examples.two_crossing = true /\
  exists r s',
    solve Examples.two_crossing (init_creator Examples.two_crossing) = Ok (r, s') /\
    ((exists a, is_solution Examples.two_crossing a) ->
     exists a, r = Some a /\ is_solution Examples.two_crossing a) /\
    (r = None -> forall a, ~ is_solution Examples.two_crossing a).
Proof.
  split; [reflexivity|].
  apply (solve_finds_a_solution Examples.two_crossing). reflexivity.
Defined.

Lemma solve_result_is_consistent_witness :
  well_formed Examples.two_crossing = true /\
  (forall s a s',
     store_ok s -> dict_keys (domains s) = variables Examples.two_crossing ->
     solve Examples.two_crossing s = Ok (Some a, s') ->
     complete Examples.two_crossing a /\ globally_consistent Examples.two_crossing a) /\
  (forall fuel s a s',
     creator_inv Examples.two_crossing s ->
     backtrack Examples.two_crossing fuel [] s = Ok ((true, a), s') ->
     complete Examples.two_crossing a /\ globally_consistent Examples.two_crossing a).
Proof.
  split; [reflexivity|].
  apply (solve_result_is_consistent Examples.two_crossing). reflexivity.
Defined.

Lemma solve_after_failed_ac3_witness :
  well_formed Examples.one_word = true /\
  enforce_node_consistency (init_creator Examples.one_word)
  = Ok (tt, Examples.one_word_filtered) /\
  ac3 Examples.one_word None Examples.one_word_filtered
  = Ok (false, Examples.one_word_failed) /\
  solve Examples.one_word (init_creator Examples.one_word)
  = Ok (None, mkCreator (domains Examples.one_word_failed)
                        (S (backtrack_calls (init_creator Examples.one_word)))).
Proof.
  split; [reflexivity|]. split; [vm_compute; reflexivity|].
  split; [vm_compute; reflexivity|].
  apply (solve_after_failed_ac3 Examples.one_word (init_creator Examples.one_word)
           Examples.one_word_filtered Examples.one_word_failed).
  - reflexivity.
  - apply init_store_ok. reflexivity.
  - apply init_keys.
  - vm_compute. reflexivity.
  - vm_compute. reflexivity.
Defined.

Lemma revise_removes_unsupported_witness :
  overlaps Examples.two_crossing Examples.across0 Examples.down1 = Some (1, 0) /\
  exists b s' dx',
    revise Examples.two_crossing Examples.across0 Examples.down1
           (init_creator Examples.two_crossing) = Ok (b, s') /\
    dict_get var_eqb Examples.across0 (domains s') = Some dx' /\
    (forall w, In w dx' <->
               In w ["CAT"; "DOG"; "ACT"] /\ has_support 1 0 ["CAT"; "DOG"; "ACT"] w) /\
    dict_get var_eqb Examples.down1 (domains s') = Some ["CAT"; "DOG"; "ACT"] /\
    (forall z, z <> Examples.across0 ->
       dict_get var_eqb z (domains s')
       = dict_get var_eqb z (domains (init_creator Examples.two_crossing))) /\
    dict_keys (domains s') = dict_keys (domains (init_creator Examples.two_crossing)) /\
    (b = true <-> exists w, In w ["CAT"; "DOG"; "ACT"] /\ ~ In w dx').
Proof.
  split; [reflexivity|].
  apply (revise_removes_unsupported Examples.two_crossing Examples.across0
           Examples.down1 1 0 ["CAT"; "DOG"; "ACT"] ["CAT"; "DOG"; "ACT"]
           (init_creator Examples.two_crossing)).
  - reflexivity.
  - intros H. discriminate H.
  - reflexivity.
  - reflexivity.
  - apply nodup_strb_NoDup. reflexivity.
  - repeat constructor; simpl; lia.
  - repeat constructor; simpl; lia.
Defined.

Lemma order_domain_values_witness :
  well_formed Examples.fork = true /\
  dict_get var_eqb Examples.row0 (domains Examples.fork_propagated)
  = Some ["TOT"; "TAT"; "TIT"] /\
  exists ws,
    order_domain_values Examples.fork Examples.row0 [] Examples.fork_propagated
    = Ok (ws, Examples.fork_propagated) /\
    Permutation ws ["TOT"; "TAT"; "TIT"] /\
    StronglySorted
      (fun w1 w2 =>
         eliminations Examples.fork (domains Examples.fork_propagated) [] Examples.row0 w1
         <= eliminations Examples.fork (domains Examples.fork_propagated) [] Examples.row0 w2)
      ws /\
    ws = sorted_by
           (eliminations Examples.fork (domains Examples.fork_propagated) [] Examples.row0)
           ["TOT"; "TAT"; "TIT"].
Proof.
  split; [reflexivity|]. split; [reflexivity|].
  apply (order_domain_values_least_constraining Examples.fork Examples.fork_propagated
           Examples.row0 [] ["TOT"; "TAT"; "TIT"]).
  - reflexivity.
  - exact fork_propagated_inv.
  - simpl. auto.
  - reflexivity.
Defined.

Lemma node_consistency_witness :
  well_formed Examples.two_crossing = true /\
  (exists s1 b s2,
     enforce_node_consistency (init_creator Examples.two_crossing) = Ok (tt, s1) /\
     node_consistent (domains s1) /\
     ac3 Examples.two_crossing None s1 = Ok (b, s2) /\
     domains_shrunk (domains s2) (domains s1) /\
     node_consistent (domains s2)) /\
  (forall x y s3 b s4,
     revise Examples.two_crossing x y s3 = Ok (b, s4) ->
     domains_shrunk (domains s4) (domains s3) /\
     (node_consistent (domains s3) -> node_consistent (domains s4))) /\
  (forall arcs s3 b s4,
     ac3 Examples.two_crossing arcs s3 = Ok (b, s4) ->
     domains_shrunk (domains s4) (domains s3) /\
     (node_consistent (domains s3) -> node_consistent (domains s4))).
Proof.
  split; [reflexivity|].
  apply (node_consistency_established_and_kept Examples.two_crossing
           (init_creator Examples.two_crossing)).
  - reflexivity.
  - apply init_store_ok. reflexivity.
  - apply init_keys.
Defined.

Lemma revise_without_overlap_witness :
  overlaps Examples.fork Examples.row4 Examples.row0 = None /\
  revise Examples.fork Examples.row4 Examples.row0 (init_creator Examples.fork)
  = Ok (false, init_creator Examples.fork).
Proof.
  split; [reflexivity|].
  apply (revise_without_overlap Examples.fork Examples.row4 Examples.row0). reflexivity.
Defined.

(** * Further properties of the solver *)

(** ** select_unassigned_variable *)

(** X1. With a slot left open, [select_unassigned_variable] returns a
    slot of the store that has no word yet and whose domain is as small
    as that of any open slot; the state is unchanged. *)
Theorem select_returns_smallest_domain (cw : Crossword) (a : assignment)
    (s : CrosswordCreator) :
  unassigned s a <> [] ->
  exists var d,
    select_unassigned_variable cw a s = Ok (var, s) /\
    In var (dict_keys (domains s)) /\
    dict_mem var_eqb var a = false /\
    dict_get var_eqb var (domains s) = Some d /\
    forall u du,
      In u (dict_keys (domains s)) -> dict_mem var_eqb u a = false ->
      dict_get var_eqb u (domains s) = Some du ->
      List.length d <= List.length du.
Proof.
  intros Hopen.
  destruct (select_run cw a s Hopen) as [var [Hrun [Hin [m [[d [Hd Hm]] Hmin]]]]].
  exists var, d. unfold unassigned in Hin. apply filter_In in Hin.
  destruct Hin as [Hkey Hfree]. apply negb_true_iff in Hfree.
  split; [assumption|]. split; [assumption|]. split; [assumption|].
  split; [assumption|]. intros u du Hu Hfu Hdu. rewrite Hm. apply (Hmin u du); [|assumption].
  unfold unassigned. apply filter_In. now rewrite Hfu.
Qed.

(** X2. When the assignment has a word for every slot of the store,
    [select_unassigned_variable] raises [IndexError]: it reads the first
    of the open slots, and there is none. *)
Theorem select_on_complete_assignment (cw : Crossword) (a : assignment)
    (s : CrosswordCreator) :
  forallb (fun v => dict_mem var_eqb v a) (dict_keys (domains s)) = true ->
  select_unassigned_variable cw a s = Raise IndexError.
Proof.
  intros Hall. unfold select_unassigned_variable, get_domains. unfold bind at 1.
  assert (Hnil : filter (fun var => negb (dict_mem var_eqb var a))
                        (dict_keys (domains s)) = []).
  { induction (dict_keys (domains s)) as [|v l IH]; simpl in *; [reflexivity|].
    apply andb_prop in Hall. destruct Hall as [-> Hall]. simpl. now apply IH. }
  rewrite Hnil. reflexivity.
Qed.

(** ** consistent *)

(** X3. On a dict that assigns words to slots of a well-formed grid,
    [consistent] returns without raising, and it returns [True] exactly
    when every word has the length of its slot, no word is used twice and
    every two crossing slots that both have a word agree at the shared
    cell. *)
Theorem consistent_decides_global_consistency (cw : Crossword) (a : assignment)
    (s : CrosswordCreator) :
  well_formed cw = true ->
  NoDup (dict_keys a) ->
  incl (dict_keys a) (variables cw) ->
  exists b, consistent cw a s = Ok (b, s) /\ (b = true <-> globally_consistent cw a).
Proof. intros Hwf. now apply consistent_spec. Qed.

(** ** ac3 *)

(** X4. The loop of [ac3] ends for every store and every worklist: it
    makes at most [len(arcs) + (D + 1) * W] iterations, for [W] words in
    the domains and at most [D] neighbours per slot. *)
Theorem ac3_terminates (cw : Crossword) (arcs : option (list (Var * Var)))
    (s : CrosswordCreator) :
  ac3 cw arcs s <> OutOfFuel /\
  forall fuel worklist,
    ac3_fuel cw (domains s) worklist <= fuel ->
    ac3_loop cw fuel worklist s <> OutOfFuel.
Proof.
  split.
  - unfold ac3, get_domains. unfold bind. apply ac3_loop_fuel. apply le_n.
  - intros fuel worklist. apply ac3_loop_fuel.
Qed.

Lemma ac3_loop_failure (cw : Crossword) (fuel : nat) :
  forall arcs s s',
    ac3_loop cw fuel arcs s = Ok (false, s') ->
    exists x, dict_get var_eqb x (domains s') = Some [].
Proof.
  induction fuel as [|fuel IH]; intros arcs s s' H;
    destruct arcs as [|[x y] arcs]; simpl in H;
    try (unfold ret in H; discriminate H); try discriminate.
  apply bind_inv in H. destruct H as [revised [s1 [Hr H]]]. destruct revised.
  - apply bind_inv in H. destruct H as [dx [s2 [Hg H]]].
    apply get_domain_inv in Hg. destruct Hg as [Hdx ->].
    destruct dx as [|w dx]; simpl in H.
    + unfold ret in H. inversion H; subst. now exists x.
    + eapply IH; eassumption.
  - eapply IH; eassumption.
Qed.

(** X5. When [ac3] returns [False], some slot has an empty domain in the
    state it leaves. *)
Theorem ac3_failure_leaves_empty_domain (cw : Crossword)
    (arcs : option (list (Var * Var))) (s s' : CrosswordCreator) :
  ac3 cw arcs s = Ok (false, s') ->
  exists x, dict_get var_eqb x (domains s') = Some [].
Proof.
  unfold ac3, get_domains. unfold bind. apply ac3_loop_failure.
Qed.

Lemma arc_consistent_no_overlap (cw : Crossword) ds x y :
  overlaps cw x y = None -> arc_consistent cw ds x y.
Proof. intros Hov i j dx dy w Hov'. congruence. Qed.

Lemma supports_sym i j wx wy : supports i j wx wy -> supports j i wy wx.
Proof. intros [c [Hx [Hy Hne]]]. exists c. auto. Qed.

Section ArcConsistency.
Variable cw : Crossword.
Hypothesis Hwf : well_formed cw = true.
Hypothesis Hmirror : overlaps_mirrored cw.

(** One iteration of the loop of [ac3] on an arc that crosses, when a
    word was removed: the arcs that are then not in the worklist are
    consistent. *)
Lemma pending_after_revision s x y i j dx dy arcs :
  creator_inv cw s -> In x (variables cw) -> In y (variables cw) ->
  overlaps cw x y = Some (i, j) ->
  dict_get var_eqb x (domains s) = Some dx ->
  dict_get var_eqb y (domains s) = Some dy ->
  pending_ok cw (domains s) ((x, y) :: arcs) ->
  pending_ok cw (dict_set var_eqb x (filter (has_supportb i j dy) dx) (domains s))
    (arcs ++ map (fun neighbor => (neighbor, x))
                 (filter (fun neighbor => negb (var_eqb neighbor y)) (neighbors cw x))).
Proof.
  intros Hinv Hx Hy Hov Hdx Hdy Hpending u v Hu Hv.
  destruct (wf_overlap cw Hwf x y i j Hx Hy Hov) as [_ [_ [Hxy _]]].
  assert (Hgetx : dict_get var_eqb x
                    (dict_set var_eqb x (filter (has_supportb i j dy) dx) (domains s))
                  = Some (filter (has_supportb i j dy) dx))
    by apply dict_get_set_same, var_eqb_spec.
  assert (Hother : forall z, z <> x ->
            dict_get var_eqb z
              (dict_set var_eqb x (filter (has_supportb i j dy) dx) (domains s))
            = dict_get var_eqb z (domains s))
    by (intros z Hz; apply dict_get_set_other; auto using var_eqb_spec).
  assert (Hxy_now : arc_consistent cw
            (dict_set var_eqb x (filter (has_supportb i j dy) dx) (domains s)) x y).
  { intros i' j' dx' dy' w Hov' Hdx' Hdy' Hw.
    rewrite Hov in Hov'. inversion Hov'; subst i' j'.
    rewrite Hgetx in Hdx'. inversion Hdx'; subst dx'.
    rewrite Hother in Hdy' by auto. rewrite Hdy in Hdy'. inversion Hdy'; subst dy'.
    apply filter_In in Hw. now apply has_supportb_spec. }
  destruct (Hpending u v Hu Hv) as [[Heq|Hin]|Hcons].
  - inversion Heq; subst u v. now right.
  - left. apply in_app_iff. now left.
  - destruct (var_eqb_spec v x) as [->|Hvx].
    + destruct (var_eqb_spec u y) as [->|Huy].
      * right. intros i' j' dy' dx' w Hov' Hdy' Hdx' Hw.
        rewrite (Hmirror x y i j Hx Hy Hov) in Hov'. inversion Hov'; subst i' j'.
        rewrite Hgetx in Hdx'. inversion Hdx'; subst dx'.
        rewrite Hother in Hdy' by auto. rewrite Hdy in Hdy'. inversion Hdy'; subst dy'.
        destruct (Hcons j i dy dx w (Hmirror x y i j Hx Hy Hov) Hdy Hdx Hw)
          as [wx [Hwx Hsup]].
        exists wx. split; [|assumption]. apply filter_In. split; [assumption|].
        apply has_supportb_spec. exists w. split; [assumption | now apply supports_sym].
      * destruct (overlaps cw u x) as [[p q]|] eqn:Hux.
        2:{ right. now apply arc_consistent_no_overlap. }
        destruct (wf_overlap cw Hwf u x p q Hu Hx Hux) as [_ [_ [Hne _]]].
        left. apply in_app_iff. right. apply in_map_iff. exists u. split; [reflexivity|].
        apply filter_In. split.
        -- apply (wf_neighbors_complete cw Hwf x u); auto. congruence.
        -- now rewrite (var_eqb_neq _ _ Huy).
    + right. intros i' j' du dv w Hov' Hdu Hdv Hw.
      rewrite Hother in Hdv by assumption.
      destruct (var_eqb_spec u x) as [->|Hux].
      * rewrite Hgetx in Hdu. inversion Hdu; subst du. apply filter_In in Hw.
        apply (Hcons i' j' dx dv w); tauto.
      * rewrite Hother in Hdu by assumption. now apply (Hcons i' j' du dv w).
Qed.

Lemma ac3_loop_arc_consistency (fuel : nat) :
  forall arcs s s',
    creator_inv cw s -> arcs_in_grid cw arcs ->
    pending_ok cw (domains s) arcs ->
    ac3_loop cw fuel arcs s = Ok (true, s') ->
    forall x y, In x (variables cw) -> In y (variables cw) ->
      arc_consistent cw (domains s') x y.
Proof.
  induction fuel as [|fuel IH]; intros arcs s s' Hinv Harcs Hpending H;
    destruct arcs as [|[x y] arcs]; simpl in H; try discriminate.
  - unfold ret in H. inversion H; subst. intros x y Hx Hy.
    destruct (Hpending x y Hx Hy) as [[]|Hc]. exact Hc.
  - unfold ret in H. inversion H; subst. intros x y Hx Hy.
    destruct (Hpending x y Hx Hy) as [[]|Hc]. exact Hc.
  - inversion Harcs as [|? ? [Hx Hy] Harcs']; subst. simpl in Hx, Hy.
    destruct (overlaps cw x y) as [[i j]|] eqn:Hov.
    2:{ unfold revise in H. rewrite Hov in H. unfold bind at 1 in H. simpl in H.
        apply (IH arcs s s'); auto.
        intros u v Hu Hv. destruct (Hpending u v Hu Hv) as [[Heq|Hin]|Hc]; auto.
        inversion Heq; subst. right. now apply arc_consistent_no_overlap. }
    destruct (wf_overlap cw Hwf x y i j Hx Hy Hov) as [Hi [Hj [Hxy _]]].
    destruct (inv_domain cw s x Hinv Hx) as [dx [Hdx [Hndx Hlx]]].
    destruct (inv_domain cw s y Hinv Hy) as [dy [Hdy [Hndy Hly]]].
    rewrite (bind_ok _ _ _ _ _
               (revise_run cw x y i j dx dy s Hov Hdx Hdy Hndx
                  (lengths_in_range _ _ _ Hi Hlx) (lengths_in_range _ _ _ Hj Hly))) in H.
    assert (Hinv1 : creator_inv cw
              (mkCreator (dict_set var_eqb x (filter (has_supportb i j dy) dx) (domains s))
                         (backtrack_calls s))).
    { eapply creator_inv_set; eauto.
      - now apply NoDup_filter.
      - intros w Hw. apply filter_In in Hw. tauto. }
    destruct (forallb (has_supportb i j dy) dx) eqn:Hall; simpl in H.
    + refine (IH arcs _ s' Hinv1 Harcs' _ H). simpl.
      rewrite (filter_all _ _ Hall), (dict_set_current _ _ _ Hdx).
      intros u v Hu Hv. destruct (Hpending u v Hu Hv) as [[Heq|Hin]|Hc]; auto.
      inversion Heq; subst u v. right. intros i' j' dx' dy' w Hov' Hdx' Hdy' Hw.
      rewrite Hov in Hov'. inversion Hov'; subst i' j'.
      rewrite Hdx in Hdx'. inversion Hdx'; subst dx'.
      rewrite Hdy in Hdy'. inversion Hdy'; subst dy'.
      apply has_supportb_spec. rewrite forallb_forall in Hall. auto.
    + erewrite bind_ok in H.
      2:{ apply get_domain_ok. simpl. apply dict_get_set_same, var_eqb_spec. }
      destruct (List.length (filter (has_supportb i j dy) dx) =? 0);
        [unfold ret in H; discriminate H|].
      refine (IH _ _ s' Hinv1 _ _ H).
      * apply Forall_app. split; [assumption|].
        apply Forall_forall. intros [n x'] Hin. apply in_map_iff in Hin.
        destruct Hin as [n' [Heq Hn']]. injection Heq as Hn1 Hx1. subst n x'.
        simpl. apply filter_In in Hn'. destruct Hn' as [Hn' _].
        split; [|assumption]. now apply (wf_neighbors_in cw Hwf x n').
      * simpl. now apply pending_after_revision.
Qed.
End ArcConsistency.

(** X6. Started from a worklist that holds every arc between crossing
    slots, in both directions, [ac3] returns on a node-consistent store;
    when it returns [True], every word of every domain has a support in
    the domain of each crossing slot, and when it returns [False] a
    domain is empty. Domains only lose words. *)
Theorem ac3_enforces_arc_consistency (cw : Crossword) (arcs : list (Var * Var))
    (s : CrosswordCreator) :
  well_formed cw = true ->
  overlaps_mirrored cw ->
  creator_inv cw s ->
  arcs_in_grid cw arcs ->
  (forall x y, In x (variables cw) -> In y (variables cw) ->
               overlaps cw x y <> None -> In (x, y) arcs) ->
  exists b s',
    ac3 cw (Some arcs) s = Ok (b, s') /\
    domains_shrunk (domains s') (domains s) /\
    (b = true -> forall x y, In x (variables cw) -> In y (variables cw) ->
                             arc_consistent cw (domains s') x y) /\
    (b = false -> exists x, dict_get var_eqb x (domains s') = Some []).
Proof.
  intros Hwf Hmirror Hinv Harcs Hall.
  assert (Hpending : pending_ok cw (domains s) arcs).
  { intros x y Hx Hy. destruct (overlaps cw x y) as [ov|] eqn:Hov.
    - left. apply Hall; auto. congruence.
    - right. now apply arc_consistent_no_overlap. }
  unfold ac3, get_domains. unfold bind.
  pose proof (ac3_loop_inv cw Hwf (ac3_fuel cw (domains s) arcs) arcs s Hinv Harcs) as H.
  pose proof (ac3_loop_fuel cw (ac3_fuel cw (domains s) arcs) arcs s (le_n _)) as Hf.
  destruct (ac3_loop cw (ac3_fuel cw (domains s) arcs) arcs s) as [[b s']| |] eqn:Hrun;
    [|contradiction|congruence].
  exists b, s'. split; [reflexivity|].
  split; [apply (ac3_loop_shrinks cw _ _ _ _ _ Hrun)|]. split.
  - intros ->. exact (ac3_loop_arc_consistency cw Hwf Hmirror _ arcs s s'
                        Hinv Harcs Hpending Hrun).
  - intros ->. eapply ac3_loop_failure. exact Hrun.
Qed.

(** X7. Propagation loses no solution: on a node-consistent store of a
    well-formed grid, [ac3] (with its default arcs or with given arcs
    between slots of the grid) returns, and every consistent complete
    assignment that takes its words from the domains before the call
    takes them from the domains after it. *)
Theorem ac3_keeps_solutions (cw : Crossword) (arcs : option (list (Var * Var)))
    (s : CrosswordCreator) :
  well_formed cw = true ->
  creator_inv cw s ->
  (forall l, arcs = Some l -> arcs_in_grid cw l) ->
  exists b s',
    ac3 cw arcs s = Ok (b, s') /\
    creator_inv cw s' /\
    forall a, complete cw a -> globally_consistent cw a ->
              drawn_from cw (domains s) a -> drawn_from cw (domains s') a.
Proof.
  intros Hwf Hinv Harcs. unfold ac3, get_domains. unfold bind.
  set (worklist := match arcs with
                   | Some l => l
                   | None => initial_arcs (domains s)
                   end).
  assert (Hgrid : arcs_in_grid cw worklist).
  { unfold worklist. destruct arcs as [l|]; [now apply Harcs|].
    apply Forall_forall. intros [x y] Hin. apply combinations2_in in Hin.
    rewrite (inv_keys cw s Hinv) in Hin. exact Hin. }
  pose proof (ac3_loop_inv cw Hwf (ac3_fuel cw (domains s) worklist) worklist s Hinv Hgrid)
    as H.
  pose proof (ac3_loop_fuel cw (ac3_fuel cw (domains s) worklist) worklist s (le_n _))
    as Hf.
  destruct (ac3_loop cw _ worklist s) as [[b s']| |]; [|contradiction|congruence].
  exists b, s'. destruct H as [Hinv' [Hsol _]]. auto.
Qed.

(** ** enforce_node_consistency *)

Lemma dict_same {V : Type} (d1 d2 : list (Var * V)) :
  dict_keys d1 = dict_keys d2 -> NoDup (dict_keys d1) ->
  (forall k, In k (dict_keys d1) -> dict_get var_eqb k d1 = dict_get var_eqb k d2) ->
  d1 = d2.
Proof.
  revert d2. induction d1 as [|[k v] d1 IH]; intros [|[k' v'] d2] Hkeys Hnd Hget;
    simpl in *; try discriminate; [reflexivity|].
  injection Hkeys as Hk Hkeys. subst k'. inversion Hnd as [|? ? Hnin Hnd']; subst.
  pose proof (Hget k (or_introl eq_refl)) as Hv. rewrite var_eqb_refl in Hv.
  injection Hv as Hv. subst v'. f_equal. apply IH; auto.
  intros k0 Hk0. specialize (Hget k0 (or_intror Hk0)).
  destruct (var_eqb_spec k0 k) as [Heq|Hne]; [subst k0; contradiction | assumption].
Qed.

Lemma of_length_again (v : Var) (d : list string) :
  of_length v (of_length v d) = of_length v d.
Proof.
  unfold of_length. apply filter_all, forallb_forall.
  intros w Hw. apply filter_In in Hw. tauto.
Qed.

(** X8. [enforce_node_consistency] keeps in every domain exactly the
    words that have the length of the slot, in their order, and keeps
    the slots; a second call changes nothing. *)
Theorem enforce_node_consistency_idempotent (s : CrosswordCreator) :
  store_ok s ->
  exists s',
    enforce_node_consistency s = Ok (tt, s') /\
    dict_keys (domains s') = dict_keys (domains s) /\
    (forall v d, dict_get var_eqb v (domains s) = Some d ->
       dict_get var_eqb v (domains s') = Some (of_length v d)) /\
    enforce_node_consistency s' = Ok (tt, s').
Proof.
  intros Hok. destruct (enforce_run s Hok) as [s' [Hrun [Hkeys [Hcalls Hget]]]].
  exists s'. split; [assumption|]. split; [assumption|]. split; [assumption|].
  destruct (enforce_establishes s s' Hok Hrun) as [Hok' _].
  destruct (enforce_run s' Hok') as [s'' [Hrun' [Hkeys' [Hcalls' Hget']]]].
  rewrite Hrun'. do 2 f_equal.
  destruct s' as [ds' n'], s'' as [ds'' n'']. simpl in *. f_equal; [|assumption].
  apply dict_same; [assumption | rewrite Hkeys'; apply Hok' |].
  intros k Hk. rewrite Hkeys' in Hk.
  destruct (dict_get_of_key k ds' Hk) as [d' Hd']. rewrite (Hget' k d' Hd'), Hd'.
  pose proof (dict_get_keys _ _ _ Hd') as Hin. rewrite Hkeys in Hin.
  destruct (dict_get_of_key k (domains s) Hin) as [d Hd].
  rewrite (Hget k d Hd) in Hd'. inversion Hd'; subst d'. now rewrite of_length_again.
Qed.

(** ** revise *)

Lemma forallb_filter_same {A : Type} (P : A -> bool) (l : list A) :
  forallb P (filter P l) = true.
Proof. apply forallb_forall. intros a Ha. apply filter_In in Ha. tauto. Qed.

(** X9. After [revise(x, y)] the arc is consistent: a second
    [revise(x, y)] returns [False] and leaves the state as the first
    call left it. *)
Theorem revise_twice (cw : Crossword) (x y : Var) (i j : nat)
    (dx dy : list string) (s : CrosswordCreator) :
  overlaps cw x y = Some (i, j) ->
  x <> y ->
  dict_get var_eqb x (domains s) = Some dx ->
  dict_get var_eqb y (domains s) = Some dy ->
  NoDup dx ->
  Forall (fun w => i < String.length w) dx ->
  Forall (fun w => j < String.length w) dy ->
  exists b s1,
    revise cw x y s = Ok (b, s1) /\ revise cw x y s1 = Ok (false, s1).
Proof.
  intros Hov Hxy Hdx Hdy Hnd Hi Hj.
  eexists _, _. split; [apply (revise_run cw x y i j dx dy s); assumption|].
  rewrite (revise_run cw x y i j (filter (has_supportb i j dy) dx) dy); simpl.
  - rewrite forallb_filter_same. simpl. do 2 f_equal.
    rewrite (filter_all _ _ (forallb_filter_same _ _)).
    now rewrite dict_set_set by apply var_eqb_spec.
  - assumption.
  - apply dict_get_set_same, var_eqb_spec.
  - rewrite dict_get_set_other; auto using var_eqb_spec.
  - now apply NoDup_filter.
  - apply Forall_forall. intros w Hw. apply filter_In in Hw.
    rewrite Forall_forall in Hi. apply Hi. tauto.
  - assumption.
Qed.

Lemma str_get_beyond (w : string) (n : nat) :
  String.length w <= n -> String.get n w = None.
Proof.
  intros Hn. destruct (String.get n w) as [c|] eqn:Hc; [|reflexivity].
  apply str_get_length in Hc. lia.
Qed.

(** X10. [revise] relies on node consistency: when the first word of
    the domain of [x] is too short to have a letter at the offset, and
    the domain of [y] is not empty, [revise] raises [IndexError]. *)
Theorem revise_raises_on_short_word (cw : Crossword) (x y : Var) (i j : nat)
    (wx wy : string) (dx dy : list string) (s : CrosswordCreator) :
  overlaps cw x y = Some (i, j) ->
  dict_get var_eqb x (domains s) = Some (wx :: dx) ->
  dict_get var_eqb y (domains s) = Some (wy :: dy) ->
  String.length wx <= i ->
  revise cw x y s = Raise IndexError.
Proof.
  intros Hov Hdx Hdy Hshort. unfold revise. rewrite Hov.
  rewrite (bind_ok _ _ _ _ _ (get_domain_ok _ _ _ Hdx)). simpl.
  unfold bind at 1. rewrite (bind_ok _ _ _ _ _ (get_domain_ok _ _ _ Hdy)).
  unfold bind, lift. simpl. unfold str_index. now rewrite (str_get_beyond wx i Hshort).
Qed.

(** ** backtrack *)

(** X11. The contract of [backtrack] for a partial assignment: on a
    node-consistent store of a well-formed grid, from a consistent
    assignment of words of the domains, [backtrack] returns. If it
    returns [None], the dict is as it was at the call (every tried word
    was popped again) and the assignment has no consistent completion
    over the domains. Otherwise the dict keeps its entries, has exactly
    one word for every slot, each from the domain of the slot, and is
    globally consistent. *)
Theorem backtrack_completes_or_restores (cw : Crossword) (fuel : nat)
    (a : assignment) (s : CrosswordCreator) :
  well_formed cw = true ->
  creator_inv cw s ->
  search_state cw (domains s) a ->
  List.length (unassigned s a) < fuel ->
  exists b a' s',
    backtrack cw fuel a s = Ok ((b, a'), s') /\
    (b = false -> a' = a /\ no_completion cw (domains s) a) /\
    (b = true ->
       extends a a' /\ Permutation (dict_keys a') (variables cw) /\
       drawn_from cw (domains s) a' /\ globally_consistent cw a').
Proof.
  intros Hwf Hinv Hst Hfuel.
  destruct (backtrack_correct cw Hwf fuel a s Hinv Hst Hfuel)
    as [b [a' [s' [Hrun [_ [Ht Hf]]]]]].
  exists b, a', s'. split; [assumption|]. split; [assumption|].
  intros Hb. destruct (Ht Hb) as [Hc [[Hnd Hkeys Hgc Hfrom] Hext]].
  split; [assumption|]. split; [|split; assumption].
  apply NoDup_Permutation; [assumption | now apply wf_variables|].
  intros v. split; [apply Hkeys|]. intros Hv. destruct (Hc v Hv) as [w Hw].
  eapply dict_get_keys; eassumption.
Qed.

(** ** solve *)

(** X12. On a grid without slots [solve] returns the empty assignment,
    whatever the vocabulary, after a single call of [backtrack]. *)
Theorem solve_without_slots (cw : Crossword) :
  variables cw = [] ->
  solve cw (init_creator cw) = Ok (Some [], mkCreator [] 1).
Proof.
  intros Hvars. unfold init_creator. rewrite Hvars. reflexivity.
Qed.

(** ** order_domain_values *)

Lemma insert_by_stable {A : Type} (key : A -> nat) (k : nat) (a : A) (l : list A) :
  filter (fun x => key x =? k) (insert_by key a l)
  = filter (fun x => key x =? k) (a :: l).
Proof.
  induction l as [|b l IH]; [reflexivity|].
  cbn [insert_by]. destruct (Nat.ltb_spec (key b) (key a)) as [Hlt|Hge]; [|reflexivity].
  cbn [filter] in *. rewrite IH.
  destruct (Nat.eqb_spec (key a) k) as [Ha|Ha];
    destruct (Nat.eqb_spec (key b) k) as [Hb|Hb]; try reflexivity. lia.
Qed.

Lemma sorted_by_stable {A : Type} (key : A -> nat) (k : nat) (l : list A) :
  filter (fun x => key x =? k) (sorted_by key l) = filter (fun x => key x =? k) l.
Proof.
  induction l as [|a l IH]; [reflexivity|].
  cbn [sorted_by]. rewrite insert_by_stable. cbn [filter]. now rewrite IH.
Qed.

Lemma sorted_by_constant {A : Type} (key : A -> nat) (c : nat) (l : list A) :
  (forall x, In x l -> key x = c) -> sorted_by key l = l.
Proof.
  induction l as [|a l IH]; intros Hc; [reflexivity|].
  cbn [sorted_by]. rewrite IH by (intros x Hx; apply Hc; now right).
  destruct l as [|b l]; [reflexivity|]. cbn [insert_by].
  rewrite (Hc a), (Hc b) by (simpl; auto). now rewrite Nat.ltb_irrefl.
Qed.

(** X13. [order_domain_values] is stable: the words that eliminate the
    same number of candidates come in the order of the domain. *)
Theorem order_domain_values_stable (cw : Crossword) (s : CrosswordCreator)
    (var : Var) (a : assignment) (d : list string) :
  well_formed cw = true ->
  creator_inv cw s ->
  In var (variables cw) ->
  dict_get var_eqb var (domains s) = Some d ->
  exists ws,
    order_domain_values cw var a s = Ok (ws, s) /\
    forall k,
      filter (fun w => eliminations cw (domains s) a var w =? k) ws
      = filter (fun w => eliminations cw (domains s) a var w =? k) d.
Proof.
  intros Hwf Hinv Hvar Hd.
  exists (sorted_by (eliminations cw (domains s) a var) d).
  split; [now apply order_domain_values_run|]. intros k. apply sorted_by_stable.
Qed.

(** X14. When every neighbour of the slot has a word already, no
    candidate is counted and [order_domain_values] returns the domain
    in its own order. *)
Theorem order_domain_values_without_open_neighbors (cw : Crossword)
    (s : CrosswordCreator) (var : Var) (a : assignment) (d : list string) :
  well_formed cw = true ->
  creator_inv cw s ->
  In var (variables cw) ->
  dict_get var_eqb var (domains s) = Some d ->
  (forall n, In n (neighbors cw var) -> dict_mem var_eqb n a = true) ->
  order_domain_values cw var a s = Ok (d, s).
Proof.
  intros Hwf Hinv Hvar Hd Hassigned.
  rewrite (order_domain_values_run cw Hwf s Hinv var Hvar a d Hd). do 2 f_equal.
  apply sorted_by_constant with (c := 0). intros w _. unfold eliminations.
  assert (Hnil : filter (fun n => negb (dict_mem var_eqb n a)) (neighbors cw var) = []).
  { induction (neighbors cw var) as [|n ns IH]; [reflexivity|]. simpl.
    rewrite (Hassigned n) by now left. simpl. apply IH.
    intros n' Hn'. apply Hassigned. now right. }
  now rewrite Hnil.
Qed.

(** ** The arcs ac3 starts from *)

Lemma combinations2_length {A : Type} (l : list A) :
  2 * List.length (combinations2 l) = List.length l * (List.length l - 1).
Proof.
  induction l as [|a l IH]; [reflexivity|].
  cbn [combinations2 List.length]. rewrite length_app, length_map.
  destruct l as [|b l]; [reflexivity|]. cbn [List.length] in *. nia.
Qed.

Lemma combinations2_some_way {A : Type} (l : list A) (x y : A) :
  In x l -> In y l -> x <> y ->
  In (x, y) (combinations2 l) \/ In (y, x) (combinations2 l).
Proof.
  induction l as [|a l IH]; simpl; [tauto|]. intros Hx Hy Hxy.
  rewrite !in_app_iff, !in_map_iff.
  destruct Hx as [->|Hx], Hy as [->|Hy].
  - congruence.
  - left. left. now exists y.
  - right. left. now exists x.
  - destruct (IH Hx Hy Hxy); tauto.
Qed.

(** X15. The arcs that the default call of [ac3] starts from: for every
    two different slots of the store, exactly one of the two arcs
    between them, and nothing else; [n (n - 1) / 2] arcs for [n]
    slots. *)
Theorem default_arcs_once_per_pair (ds : list (Var * list string)) :
  NoDup (dict_keys ds) ->
  (forall x y, In (x, y) (initial_arcs ds) ->
     In x (dict_keys ds) /\ In y (dict_keys ds) /\ x <> y
     /\ ~ In (y, x) (initial_arcs ds)) /\
  (forall x y, In x (dict_keys ds) -> In y (dict_keys ds) -> x <> y ->
     In (x, y) (initial_arcs ds) \/ In (y, x) (initial_arcs ds)) /\
  2 * List.length (initial_arcs ds)
  = List.length (dict_keys ds) * (List.length (dict_keys ds) - 1).
Proof.
  intros Hnd. unfold initial_arcs. split; [|split].
  - intros x y Hin. destruct (combinations2_in _ _ _ Hin) as [Hx Hy].
    pose proof (combinations2_one_way _ x y Hnd Hin) as Hone.
    repeat split; auto. intros ->. contradiction.
  - intros x y. apply combinations2_some_way.
  - apply combinations2_length.
Qed.

(** ** letter_grid *)

Lemma list_set_length {A : Type} (n : nat) (a : A) (l : list A) :
  List.length (list_set n a l) = List.length l.
Proof.
  revert n. induction l as [|b l IH]; intros [|n]; simpl; auto.
Qed.

Lemma list_set_same {A : Type} (n : nat) (a : A) (l : list A) :
  n < List.length l -> nth_error (list_set n a l) n = Some a.
Proof.
  revert n. induction l as [|b l IH]; intros [|n]; simpl; intros H; try lia; auto.
  apply IH. lia.
Qed.

Lemma list_set_other {A : Type} (n m : nat) (a : A) (l : list A) :
  m <> n -> nth_error (list_set n a l) m = nth_error l m.
Proof.
  revert n m. induction l as [|b l IH]; intros [|n] [|m]; simpl; intros H;
    try reflexivity; try congruence. apply IH. congruence.
Qed.

Lemma list_set_Forall {A : Type} (P : A -> Prop) (n : nat) (a : A) (l : list A) :
  P a -> Forall P l -> Forall P (list_set n a l).
Proof.
  intros Ha. revert n. induction l as [|b l IH]; intros [|n] H; simpl; auto;
    inversion H; subst; constructor; auto.
Qed.

Lemma shaped_blank (height width : nat) :
  shaped height width (repeat (repeat None width) height).
Proof.
  split; [apply repeat_length|]. apply Forall_forall. intros row Hrow.
  apply repeat_spec in Hrow. subst row. apply repeat_length.
Qed.

Lemma shaped_row (height width : nat) letters i row :
  shaped height width letters -> nth_error letters i = Some row ->
  List.length row = width.
Proof.
  intros [_ Hrows] Hrow. rewrite Forall_forall in Hrows.
  apply Hrows. eapply nth_error_In; eassumption.
Qed.

(** [letters[i][j] = c] succeeds exactly inside the grid, and keeps its
    shape. *)
Lemma grid_set_ok (height width : nat) letters i j c :
  shaped height width letters -> i < height -> j < width ->
  exists letters', grid_set letters i j c = Ok letters'.
Proof.
  intros Hs Hi Hj. unfold grid_set.
  destruct (nth_error letters i) as [row|] eqn:Hrow.
  - rewrite (shaped_row _ _ _ _ _ Hs Hrow).
    apply Nat.ltb_lt in Hj. rewrite Hj. now eexists.
  - apply nth_error_None in Hrow. destruct Hs as [Hlen _]. lia.
Qed.

Lemma grid_set_inv (height width : nat) letters i j c letters' :
  shaped height width letters -> grid_set letters i j c = Ok letters' ->
  i < height /\ j < width /\ shaped height width letters' /\
  forall i' j',
    grid_get letters' i' j'
    = if (i' =? i) && (j' =? j) then Ok (Some c) else grid_get letters i' j'.
Proof.
  intros Hs. unfold grid_set.
  destruct (nth_error letters i) as [row|] eqn:Hrow; [|discriminate].
  pose proof (shaped_row _ _ _ _ _ Hs Hrow) as Hw.
  destruct (Nat.ltb_spec j (List.length row)) as [Hj|Hj]; [|discriminate].
  intros H. inversion H; subst letters'. clear H.
  assert (Hi : i < List.length letters)
    by (apply nth_error_Some; congruence).
  destruct Hs as [Hlen Hrows].
  split; [lia|]. split; [lia|]. split.
  - split; [now rewrite list_set_length|].
    apply list_set_Forall; [now rewrite list_set_length | assumption].
  - intros i' j'. unfold grid_get, list_index.
    destruct (Nat.eqb_spec i' i) as [->|Hne]; simpl.
    + rewrite (list_set_same i _ letters Hi), Hrow. simpl.
      destruct (Nat.eqb_spec j' j) as [->|Hnej].
      * now rewrite (list_set_same j _ row Hj).
      * now rewrite (list_set_other j j' _ row Hnej).
    + now rewrite (list_set_other i i' _ letters Hne).
Qed.

Lemma grid_get_ok (height width : nat) letters i j :
  shaped height width letters -> i < height -> j < width ->
  exists c, grid_get letters i j = Ok c.
Proof.
  intros Hs Hi Hj. unfold grid_get, list_index.
  destruct (nth_error letters i) as [row|] eqn:Hrow.
  - simpl. pose proof (shaped_row _ _ _ _ _ Hs Hrow) as Hw.
    destruct (nth_error row j) as [c|] eqn:Hc; [now exists c|].
    apply nth_error_None in Hc. lia.
  - apply nth_error_None in Hrow. destruct Hs as [Hlen _]. lia.
Qed.

(** The cells of a slot, and the slot position of a cell. *)
Lemma cell_of_covering (variable : Var) (k i j : nat) :
  cell_of variable k = (i, j) <-> covering variable i j = Some k.
Proof.
  unfold cell_of, covering. destruct (var_direction variable).
  - destruct (Nat.eqb_spec i (var_i variable)) as [Hi|Hi];
      destruct (Nat.leb_spec (var_j variable) j) as [Hj|Hj]; simpl;
      split; intros H; inversion H; try lia; try (f_equal; lia).
  - destruct (Nat.eqb_spec j (var_j variable)) as [Hj|Hj];
      destruct (Nat.leb_spec (var_i variable) i) as [Hi|Hi]; simpl;
      split; intros H; inversion H; try lia; try (f_equal; lia).
Qed.

Lemma letter_of_covering (variable : Var) (word : string) (i j : nat) :
  letter_of variable word i j
  = match covering variable i j with
    | Some k => String.get k word
    | None => None
    end.
Proof.
  unfold letter_of, covering. destruct (var_direction variable).
  - destruct ((i =? var_i variable) && (var_j variable <=? j)); reflexivity.
  - destruct ((j =? var_j variable) && (var_i variable <=? i)); reflexivity.
Qed.

Lemma cell_test (c : nat * nat) (i j : nat) :
  ((i =? fst c) && (j =? snd c) = true <-> c = (i, j)).
Proof.
  destruct c as [ic jc]. simpl.
  destruct (Nat.eqb_spec i ic), (Nat.eqb_spec j jc); simpl; split; intros H;
    try discriminate; try congruence; inversion H; congruence.
Qed.

(** Writing the letters [m .. m+len-1] of a word. *)
Lemma write_word_inv (height width : nat) (variable : Var) (word : string) (len : nat) :
  forall m letters letters',
    m + len <= String.length word ->
    shaped height width letters ->
    write_word variable word (seq m len) letters = Ok letters' ->
    shaped height width letters' /\
    (forall k, m <= k < m + len ->
       fst (cell_of variable k) < height /\ snd (cell_of variable k) < width) /\
    forall i j,
      grid_get letters' i j
      = match covering variable i j with
        | Some k =>
            if (m <=? k) && (k <? m + len) then Ok (String.get k word)
            else grid_get letters i j
        | None => grid_get letters i j
        end.
Proof.
  induction len as [|len IH]; intros m letters letters' Hlen Hs H.
  - simpl in H. inversion H; subst letters'. split; [assumption|].
    split; [intros k Hk; lia|]. intros i j.
    destruct (covering variable i j) as [k|]; [|reflexivity].
    destruct (Nat.leb_spec m k), (Nat.ltb_spec k (m + 0)); simpl; try reflexivity; lia.
  - cbn [seq write_word] in H.
    destruct (str_index_in_range word m ltac:(lia)) as [c Hc].
    unfold str_index in H. rewrite Hc in H. cbn [obind] in H.
    destruct (grid_set letters (fst (cell_of variable m)) (snd (cell_of variable m)) c)
      as [g1| |] eqn:Hset; try discriminate. cbn [obind] in H.
    destruct (grid_set_inv _ _ _ _ _ _ _ Hs Hset) as [Hi [Hj [Hs1 Hget1]]].
    destruct (IH (S m) g1 letters' ltac:(lia) Hs1 H) as [Hs' [Hb' Hget']].
    split; [assumption|]. split.
    + intros k Hk. destruct (Nat.eq_dec k m) as [->|Hne]; [auto|]. apply Hb'. lia.
    + intros i j. rewrite Hget', Hget1.
      destruct (covering variable i j) as [k|] eqn:Hcov.
      * apply cell_of_covering in Hcov.
        destruct (Nat.eq_dec k m) as [->|Hne].
        -- assert (Ht : (i =? fst (cell_of variable m)) && (j =? snd (cell_of variable m))
                         = true) by (apply cell_test; assumption).
           rewrite Ht, Hc.
           destruct (Nat.leb_spec (S m) m), (Nat.leb_spec m m),
             (Nat.ltb_spec m (m + S len)); simpl; try reflexivity; lia.
        -- assert (Hf : (i =? fst (cell_of variable m)) && (j =? snd (cell_of variable m))
                         = false).
           { destruct ((i =? fst (cell_of variable m)) && (j =? snd (cell_of variable m)))
               eqn:Ht; [|reflexivity].
             apply cell_test in Ht. apply cell_of_covering in Ht.
             apply cell_of_covering in Hcov. congruence. }
           rewrite Hf.
           destruct (Nat.leb_spec (S m) k), (Nat.leb_spec m k),
             (Nat.ltb_spec k (S m + len)), (Nat.ltb_spec k (m + S len));
             simpl; try reflexivity; lia.
      * assert (Hf : (i =? fst (cell_of variable m)) && (j =? snd (cell_of variable m))
                     = false).
        { destruct ((i =? fst (cell_of variable m)) && (j =? snd (cell_of variable m)))
            eqn:Ht; [|reflexivity].
          apply cell_test in Ht. apply cell_of_covering in Ht. congruence. }
        now rewrite Hf.
Qed.

Lemma write_word_ok (height width : nat) (variable : Var) (word : string) (len : nat) :
  forall m letters,
    m + len <= String.length word ->
    shaped height width letters ->
    (forall k, m <= k < m + len ->
       fst (cell_of variable k) < height /\ snd (cell_of variable k) < width) ->
    exists letters', write_word variable word (seq m len) letters = Ok letters'.
Proof.
  induction len as [|len IH]; intros m letters Hlen Hs Hfit; [now eexists|].
  cbn [seq write_word].
  destruct (str_index_in_range word m ltac:(lia)) as [c Hc].
  unfold str_index. rewrite Hc. cbn [obind].
  destruct (Hfit m ltac:(lia)) as [Hi Hj].
  destruct (grid_set_ok _ _ letters _ _ c Hs Hi Hj) as [g1 Hset].
  rewrite Hset. cbn [obind].
  destruct (grid_set_inv _ _ _ _ _ _ _ Hs Hset) as [_ [_ [Hs1 _]]].
  apply IH; [lia | assumption |]. intros k Hk. apply Hfit. lia.
Qed.

(** A whole word: the cells of the slot take the letters of the word,
    the other cells stay. *)
Lemma write_whole_word (height width : nat) (variable : Var) (word : string)
    letters letters' :
  shaped height width letters ->
  write_word variable word (seq 0 (String.length word)) letters = Ok letters' ->
  shaped height width letters' /\
  forall i j old,
    grid_get letters i j = Ok old ->
    grid_get letters' i j
    = Ok (match letter_of variable word i j with Some c => Some c | None => old end).
Proof.
  intros Hs H.
  destruct (write_word_inv height width variable word _ 0 letters letters'
              (le_n _) Hs H) as [Hs' [_ Hget]].
  split; [assumption|]. intros i j old Hold.
  rewrite Hget, letter_of_covering.
  destruct (covering variable i j) as [k|]; [|assumption].
  destruct (Nat.ltb_spec k (0 + String.length word)) as [Hk|Hk]; simpl.
  - destruct (str_index_in_range word k Hk) as [c Hc]. now rewrite Hc.
  - now rewrite (str_get_beyond word k Hk).
Qed.

Lemma write_words_inv (height width : nat) (items : assignment) :
  forall letters letters',
    shaped height width letters ->
    write_words items letters = Ok letters' ->
    shaped height width letters' /\
    fits height width items /\
    forall i j old,
      grid_get letters i j = Ok old ->
      grid_get letters' i j = Ok (last_letter items i j old).
Proof.
  induction items as [|[variable word] items IH]; intros letters letters' Hs H.
  - simpl in H. inversion H; subst. split; [assumption|].
    split; [intros ? ? ? []|]. intros i j old Hold. exact Hold.
  - cbn [write_words] in H.
    destruct (write_word variable word (seq 0 (String.length word)) letters)
      as [g1| |] eqn:Hw; try discriminate. cbn [obind] in H.
    destruct (write_word_inv height width variable word _ 0 letters g1 (le_n _) Hs Hw)
      as [_ [Hfit1 _]].
    destruct (write_whole_word _ _ _ _ _ _ Hs Hw) as [Hs1 Hget1].
    destruct (IH g1 letters' Hs1 H) as [Hs' [Hfit Hget]].
    split; [assumption|]. split.
    + intros v w k [Heq|Hin] Hk; [|now apply (Hfit v w k)].
      inversion Heq; subst. apply Hfit1. lia.
    + intros i j old Hold. cbn [last_letter]. apply Hget. now apply Hget1.
Qed.

Lemma write_words_ok (height width : nat) (items : assignment) :
  forall letters,
    shaped height width letters -> fits height width items ->
    exists letters', write_words items letters = Ok letters'.
Proof.
  induction items as [|[variable word] items IH]; intros letters Hs Hfit;
    [now eexists|].
  cbn [write_words].
  destruct (write_word_ok height width variable word _ 0 letters (le_n _) Hs)
    as [g1 Hw].
  { intros k Hk. apply (Hfit variable word k); [now left | lia]. }
  rewrite Hw. cbn [obind].
  destruct (write_whole_word _ _ _ _ _ _ Hs Hw) as [Hs1 _].
  apply IH; [assumption|]. intros v w k Hin. apply Hfit. now right.
Qed.

Lemma blank_get (height width i j : nat) :
  i < height -> j < width ->
  grid_get (repeat (repeat None width) height) i j = Ok None.
Proof.
  intros Hi Hj. unfold grid_get, list_index.
  rewrite (nth_error_repeat _ Hi). simpl. now rewrite (nth_error_repeat _ Hj).
Qed.

(** X16. [letter_grid] returns exactly when every letter of every word
    falls inside the grid (otherwise an index is out of range); the
    result has [height] rows of [width] cells. *)
Theorem letter_grid_fits (height width : nat) (a : assignment) :
  (fits height width a <-> exists letters, letter_grid height width a = Ok letters) /\
  (forall letters, letter_grid height width a = Ok letters ->
                   shaped height width letters).
Proof.
  unfold letter_grid. split; [split|].
  - apply write_words_ok, shaped_blank.
  - intros [letters H].
    now destruct (write_words_inv _ _ _ _ _ (shaped_blank height width) H) as [_ [? _]].
  - intros letters H.
    now destruct (write_words_inv _ _ _ _ _ (shaped_blank height width) H) as [? _].
Qed.

(** X17. The grid that [letter_grid] returns holds on every cell the
    letter of the last slot of the assignment that covers the cell, and
    [None] where no slot does. *)
Theorem letter_grid_cells (height width : nat) (a : assignment)
    (letters : list (list (option ascii))) (i j : nat) :
  letter_grid height width a = Ok letters ->
  i < height -> j < width ->
  grid_get letters i j = Ok (last_letter a i j None).
Proof.
  unfold letter_grid. intros H Hi Hj.
  destruct (write_words_inv _ _ _ _ _ (shaped_blank height width) H) as [_ [_ Hget]].
  apply Hget. now apply blank_get.
Qed.

Lemma last_letter_source (items : assignment) (i j : nat) :
  forall c0,
    last_letter items i j c0 = c0 \/
    exists v w c, In (v, w) items /\ letter_of v w i j = Some c
                  /\ last_letter items i j c0 = Some c.
Proof.
  induction items as [|[v0 w0] items IH]; intros c0; [now left|].
  cbn [last_letter].
  destruct (IH (match letter_of v0 w0 i j with Some c' => Some c' | None => c0 end))
    as [Hsame|[v [w [c [Hin [Hl Hlast]]]]]].
  - rewrite Hsame. destruct (letter_of v0 w0 i j) as [c|] eqn:Hl; [|now left].
    right. exists v0, w0, c. split; [now left | auto].
  - right. exists v, w, c. split; [now right | auto].
Qed.

Lemma last_letter_covered (items : assignment) (i j : nat) v w c :
  In (v, w) items -> letter_of v w i j = Some c ->
  forall c0, exists v' w' c',
    In (v', w') items /\ letter_of v' w' i j = Some c'
    /\ last_letter items i j c0 = Some c'.
Proof.
  induction items as [|[v0 w0] items IH]; intros Hin Hl c0; [destruct Hin|].
  cbn [last_letter]. destruct Hin as [Heq|Hin].
  - inversion Heq; subst v0 w0. rewrite Hl.
    destruct (last_letter_source items i j (Some c)) as [Hsame|[v' [w' [c' [Hin' [Hl' Hlast]]]]]].
    + exists v, w, c. split; [now left | auto].
    + exists v', w', c'. split; [now right | auto].
  - destruct (IH Hin Hl
                (match letter_of v0 w0 i j with Some c' => Some c' | None => c0 end))
      as [v' [w' [c' [Hin' [Hl' Hlast]]]]].
    exists v', w', c'. split; [now right | auto].
Qed.

(** X18. For a globally consistent assignment on a grid whose overlap
    table records the shared cells, the grid that [letter_grid] returns
    shows every word in its slot: the cell of the [k]-th letter of a
    slot holds the [k]-th letter of its word. A cell that no slot of
    the assignment covers holds [None]. *)
Theorem letter_grid_shows_the_words (cw : Crossword) (height width : nat)
    (a : assignment) (letters : list (list (option ascii))) :
  overlaps_are_shared_cells cw ->
  NoDup (dict_keys a) ->
  incl (dict_keys a) (variables cw) ->
  globally_consistent cw a ->
  letter_grid height width a = Ok letters ->
  (forall v w k, In (v, w) a -> k < String.length w ->
     grid_get letters (fst (cell_of v k)) (snd (cell_of v k)) = Ok (String.get k w)) /\
  (forall i j, i < height -> j < width ->
     (forall v w, In (v, w) a -> letter_of v w i j = None) ->
     grid_get letters i j = Ok None).
Proof.
  intros Hcells Hnd Hkeys Hgc H. unfold letter_grid in H.
  destruct (write_words_inv _ _ _ _ _ (shaped_blank height width) H)
    as [_ [Hfit Hget]].
  assert (Hitem : forall v w, In (v, w) a ->
            In v (variables cw) /\ dict_get var_eqb v a = Some w).
  { intros v w Hin. split.
    - apply Hkeys. change v with (fst (v, w)). now apply in_map.
    - now apply In_dict_get; auto using var_eqb_spec. }
  split.
  - intros v w k Hin Hk. destruct (Hfit v w k Hin Hk) as [Hi Hj].
    rewrite (Hget _ _ None (blank_get _ _ _ _ Hi Hj)). f_equal.
    destruct (str_index_in_range w k Hk) as [c Hc].
    assert (Hcov : covering v (fst (cell_of v k)) (snd (cell_of v k)) = Some k)
      by (apply cell_of_covering; now destruct (cell_of v k)).
    assert (Hl : letter_of v w (fst (cell_of v k)) (snd (cell_of v k)) = Some c)
      by (now rewrite letter_of_covering, Hcov).
    destruct (last_letter_covered a _ _ v w c Hin Hl None)
      as [v' [w' [c' [Hin' [Hl' Hlast]]]]].
    rewrite Hlast, Hc. f_equal.
    destruct (Hitem v w Hin) as [Hv Hw]. destruct (Hitem v' w' Hin') as [Hv' Hw'].
    destruct (var_eqb_spec v' v) as [->|Hne]; [congruence|].
    rewrite letter_of_covering in Hl'.
    destruct (covering v' (fst (cell_of v k)) (snd (cell_of v k))) as [k'|] eqn:Hcov';
      [|discriminate].
    apply cell_of_covering in Hcov'.
    assert (Hk' : k' < String.length w') by (eapply str_get_length; eassumption).
    assert (Hov : overlaps cw v v' = Some (k, k')).
    { apply Hcells; auto.
      - now rewrite <- (gc_length cw a Hgc v w Hv Hw).
      - now rewrite <- (gc_length cw a Hgc v' w' Hv' Hw'). }
    pose proof (gc_overlap cw a Hgc v v' k k' w w' Hv Hv' Hov Hw Hw') as Hagree.
    congruence.
  - intros i j Hi Hj Hnone. rewrite (Hget _ _ None (blank_get _ _ _ _ Hi Hj)). f_equal.
    destruct (last_letter_source a i j None) as [Hsame|[v [w [c [Hin [Hl _]]]]]];
      [assumption|].
    rewrite (Hnone v w Hin) in Hl. discriminate.
Qed.

(** ** The further properties at concrete inputs *)

Lemma enforced_inv (cw : Crossword) (s s1 : CrosswordCreator) :
  store_ok s -> dict_keys (domains s) = variables cw ->
  enforce_node_consistency s = Ok (tt, s1) -> creator_inv cw s1.
Proof.
  intros Hok Hkeys Hrun.
  destruct (enforce_establishes s s1 Hok Hrun) as [Hok1 [Hnode1 [_ [Hkeys1 _]]]].
  constructor; [congruence | assumption | assumption].
Qed.

Lemma two_crossing_inv :
  creator_inv Examples.two_crossing (init_creator Examples.two_crossing).
Proof.
  apply (enforced_inv Examples.two_crossing (init_creator Examples.two_crossing)).
  - apply init_store_ok. reflexivity.
  - apply init_keys.
  - vm_compute. reflexivity.
Qed.

Lemma two_crossing_mirrored : overlaps_mirrored Examples.two_crossing.
Proof.
  intros x y i j [<-|[<-|[]]] [<-|[<-|[]]] H; vm_compute in H;
    try discriminate H; now inversion H.
Qed.

Lemma two_crossing_shared_cells : overlaps_are_shared_cells Examples.two_crossing.
Proof.
  intros x y k k' [<-|[<-|[]]] [<-|[<-|[]]] Hne Hk Hk' Hcell;
    try congruence; unfold cell_of in Hcell; simpl in Hcell;
    inversion Hcell; subst; reflexivity.
Qed.

Lemma crossing_solution_consistent :
  globally_consistent Examples.two_crossing Samples.crossing_solution.
Proof.
  destruct (consistent_spec Examples.two_crossing eq_refl Samples.crossing_solution
              (init_creator Examples.two_crossing)) as [b [Hrun Hb]].
  - apply nodup_varb_NoDup. reflexivity.
  - intros v [<-|[<-|[]]]; simpl; auto.
  - apply Hb. vm_compute in Hrun. now inversion Hrun.
Qed.

Lemma select_returns_smallest_domain_witness :
  unassigned Examples.fork_propagated [] <> [] /\
  exists var d,
    select_unassigned_variable Examples.fork [] Examples.fork_propagated
    = Ok (var, Examples.fork_propagated) /\
    In var (dict_keys (domains Examples.fork_propagated)) /\
    dict_mem var_eqb var ([] : assignment) = false /\
    dict_get var_eqb var (domains Examples.fork_propagated) = Some d /\
    forall u du,
      In u (dict_keys (domains Examples.fork_propagated)) ->
      dict_mem var_eqb u ([] : assignment) = false ->
      dict_get var_eqb u (domains Examples.fork_propagated) = Some du ->
      List.length d <= List.length du.
Proof.
  split; [intros H; discriminate H|].
  apply (select_returns_smallest_domain Examples.fork [] Examples.fork_propagated).
  intros H. discriminate H.
Defined.

Lemma select_on_complete_assignment_witness :
  forallb (fun v => dict_mem var_eqb v Samples.crossing_solution)
          (dict_keys (domains (init_creator Examples.two_crossing))) = true /\
  select_unassigned_variable Examples.two_crossing Samples.crossing_solution
    (init_creator Examples.two_crossing) = Raise IndexError.
Proof.
  split; [reflexivity|].
  apply (select_on_complete_assignment Examples.two_crossing Samples.crossing_solution
           (init_creator Examples.two_crossing)).
  reflexivity.
Defined.

Lemma consistent_decides_witness :
  well_formed Examples.two_crossing = true /\
  exists b,
    consistent Examples.two_crossing Samples.crossing_solution
      (init_creator Examples.two_crossing)
    = Ok (b, init_creator Examples.two_crossing) /\
    (b = true <-> globally_consistent Examples.two_crossing Samples.crossing_solution).
Proof.
  split; [reflexivity|].
  apply (consistent_decides_global_consistency Examples.two_crossing
           Samples.crossing_solution (init_creator Examples.two_crossing)).
  - reflexivity.
  - apply nodup_varb_NoDup. reflexivity.
  - intros v [<-|[<-|[]]]; simpl; auto.
Defined.

Lemma ac3_failure_witness :
  ac3 Examples.one_word None Examples.one_word_filtered
  = Ok (false, Examples.one_word_failed) /\
  exists x, dict_get var_eqb x (domains Examples.one_word_failed) = Some [].
Proof.
  split; [vm_compute; reflexivity|].
  apply (ac3_failure_leaves_empty_domain Examples.one_word None
           Examples.one_word_filtered Examples.one_word_failed).
  vm_compute. reflexivity.
Defined.

Lemma ac3_enforces_arc_consistency_witness :
  well_formed Examples.two_crossing = true /\
  exists b s',
    ac3 Examples.two_crossing
        (Some [(Examples.across0, Examples.down1); (Examples.down1, Examples.across0)])
        (init_creator Examples.two_crossing) = Ok (b, s') /\
    domains_shrunk (domains s') (domains (init_creator Examples.two_crossing)) /\
    (b = true ->
     forall x y, In x (variables Examples.two_crossing) ->
                 In y (variables Examples.two_crossing) ->
                 arc_consistent Examples.two_crossing (domains s') x y) /\
    (b = false -> exists x, dict_get var_eqb x (domains s') = Some []).
Proof.
  split; [reflexivity|].
  apply (ac3_enforces_arc_consistency Examples.two_crossing
           [(Examples.across0, Examples.down1); (Examples.down1, Examples.across0)]
           (init_creator Examples.two_crossing)).
  - reflexivity.
  - exact two_crossing_mirrored.
  - exact two_crossing_inv.
  - unfold arcs_in_grid.
    repeat (apply Forall_cons; [split; simpl; auto|]). apply Forall_nil.
  - intros x y [<-|[<-|[]]] [<-|[<-|[]]] H; simpl; auto; exfalso; apply H; reflexivity.
Defined.

Lemma ac3_keeps_solutions_witness :
  well_formed Examples.two_crossing = true /\
  exists b s',
    ac3 Examples.two_crossing None (init_creator Examples.two_crossing) = Ok (b, s') /\
    creator_inv Examples.two_crossing s' /\
    forall a, complete Examples.two_crossing a ->
              globally_consistent Examples.two_crossing a ->
              drawn_from Examples.two_crossing
                         (domains (init_creator Examples.two_crossing)) a ->
              drawn_from Examples.two_crossing (domains s') a.
Proof.
  split; [reflexivity|].
  apply (ac3_keeps_solutions Examples.two_crossing None
           (init_creator Examples.two_crossing)).
  - reflexivity.
  - exact two_crossing_inv.
  - intros l H. discriminate H.
Defined.

Lemma enforce_node_consistency_idempotent_witness :
  exists s',
    enforce_node_consistency (init_creator Examples.one_word) = Ok (tt, s') /\
    dict_keys (domains s') = dict_keys (domains (init_creator Examples.one_word)) /\
    (forall v d,
       dict_get var_eqb v (domains (init_creator Examples.one_word)) = Some d ->
       dict_get var_eqb v (domains s') = Some (of_length v d)) /\
    enforce_node_consistency s' = Ok (tt, s').
Proof.
  apply (enforce_node_consistency_idempotent (init_creator Examples.one_word)).
  apply init_store_ok. reflexivity.
Defined.

Lemma revise_twice_witness :
  overlaps Examples.two_crossing Examples.across0 Examples.down1 = Some (1, 0) /\
  exists b s1,
    revise Examples.two_crossing Examples.across0 Examples.down1
           (init_creator Examples.two_crossing) = Ok (b, s1) /\
    revise Examples.two_crossing Examples.across0 Examples.down1 s1 = Ok (false, s1).
Proof.
  split; [reflexivity|].
  apply (revise_twice Examples.two_crossing Examples.across0 Examples.down1 1 0
           ["CAT"; "DOG"; "ACT"] ["CAT"; "DOG"; "ACT"]
           (init_creator Examples.two_crossing)).
  - reflexivity.
  - intros H. discriminate H.
  - reflexivity.
  - reflexivity.
  - apply nodup_strb_NoDup. reflexivity.
  - repeat constructor; simpl; lia.
  - repeat constructor; simpl; lia.
Defined.

Lemma revise_raises_on_short_word_witness :
  String.length "A" <= 1 /\
  revise Examples.two_crossing Examples.across0 Examples.down1 Samples.short_word_store
  = Raise IndexError.
Proof.
  split; [simpl; lia|].
  apply (revise_raises_on_short_word Examples.two_crossing Examples.across0
           Examples.down1 1 0 "A" "ACT" ["CAT"] [] Samples.short_word_store).
  - reflexivity.
  - reflexivity.
  - reflexivity.
  - simpl. lia.
Defined.

Lemma backtrack_completes_or_restores_witness :
  List.length (unassigned Examples.fork_propagated []) < 5 /\
  exists b a' s',
    backtrack Examples.fork 5 [] Examples.fork_propagated = Ok ((b, a'), s') /\
    (b = false ->
     a' = [] /\ no_completion Examples.fork (domains Examples.fork_propagated) []) /\
    (b = true ->
     extends [] a' /\ Permutation (dict_keys a') (variables Examples.fork) /\
     drawn_from Examples.fork (domains Examples.fork_propagated) a' /\
     globally_consistent Examples.fork a').
Proof.
  split; [simpl; lia|].
  apply (backtrack_completes_or_restores Examples.fork 5 [] Examples.fork_propagated).
  - reflexivity.
  - exact fork_propagated_inv.
  - apply search_state_empty.
  - simpl. lia.
Defined.

Lemma solve_without_slots_witness :
  variables Samples.no_slots = [] /\
  solve Samples.no_slots (init_creator Samples.no_slots) = Ok (Some [], mkCreator [] 1).
Proof.
  split; [reflexivity|]. apply (solve_without_slots Samples.no_slots). reflexivity.
Defined.

Lemma order_domain_values_stable_witness :
  dict_get var_eqb Examples.row0 (domains Examples.fork_propagated)
  = Some ["TOT"; "TAT"; "TIT"] /\
  exists ws,
    order_domain_values Examples.fork Examples.row0 [] Examples.fork_propagated
    = Ok (ws, Examples.fork_propagated) /\
    forall k,
      filter (fun w => eliminations Examples.fork (domains Examples.fork_propagated)
                                    [] Examples.row0 w =? k) ws
      = filter (fun w => eliminations Examples.fork (domains Examples.fork_propagated)
                                      [] Examples.row0 w =? k) ["TOT"; "TAT"; "TIT"].
Proof.
  split; [reflexivity|].
  apply (order_domain_values_stable Examples.fork Examples.fork_propagated
           Examples.row0 [] ["TOT"; "TAT"; "TIT"]).
  - reflexivity.
  - exact fork_propagated_inv.
  - simpl. auto.
  - reflexivity.
Defined.

Lemma order_domain_values_without_open_neighbors_witness :
  neighbors Examples.fork Examples.col0 = [Examples.row0] /\
  order_domain_values Examples.fork Examples.col0 [(Examples.row0, "TOT")]
    Examples.fork_propagated
  = Ok (["TOT"; "TAT"; "TIT"], Examples.fork_propagated).
Proof.
  split; [reflexivity|].
  apply (order_domain_values_without_open_neighbors Examples.fork
           Examples.fork_propagated Examples.col0 [(Examples.row0, "TOT")]
           ["TOT"; "TAT"; "TIT"]).
  - reflexivity.
  - exact fork_propagated_inv.
  - simpl. auto.
  - reflexivity.
  - intros n [<-|[]]. reflexivity.
Defined.

Lemma default_arcs_once_per_pair_witness :
  List.length (initial_arcs (domains Examples.fork_propagated)) = 6 /\
  (forall x y, In (x, y) (initial_arcs (domains Examples.fork_propagated)) ->
     In x (dict_keys (domains Examples.fork_propagated)) /\
     In y (dict_keys (domains Examples.fork_propagated)) /\ x <> y
     /\ ~ In (y, x) (initial_arcs (domains Examples.fork_propagated))) /\
  (forall x y, In x (dict_keys (domains Examples.fork_propagated)) ->
     In y (dict_keys (domains Examples.fork_propagated)) -> x <> y ->
     In (x, y) (initial_arcs (domains Examples.fork_propagated))
     \/ In (y, x) (initial_arcs (domains Examples.fork_propagated))) /\
  2 * List.length (initial_arcs (domains Examples.fork_propagated))
  = List.length (dict_keys (domains Examples.fork_propagated))
    * (List.length (dict_keys (domains Examples.fork_propagated)) - 1).
Proof.
  split; [reflexivity|].
  apply (default_arcs_once_per_pair (domains Examples.fork_propagated)).
  apply nodup_varb_NoDup. reflexivity.
Defined.

Lemma letter_grid_cells_witness :
  exists letters,
    letter_grid 3 3 Samples.crossing_solution = Ok letters /\
    grid_get letters 0 1 = Ok (last_letter Samples.crossing_solution 0 1 None) /\
    last_letter Samples.crossing_solution 0 1 None = Some "A"%char.
Proof.
  eexists. split; [vm_compute; reflexivity|]. split; [|reflexivity].
  apply (letter_grid_cells 3 3 Samples.crossing_solution _ 0 1).
  - vm_compute. reflexivity.
  - lia.
  - lia.
Defined.

Lemma letter_grid_shows_the_words_witness :
  exists letters,
    letter_grid 3 3 Samples.crossing_solution = Ok letters /\
    (forall v w k, In (v, w) Samples.crossing_solution -> k < String.length w ->
       grid_get letters (fst (cell_of v k)) (snd (cell_of v k)) = Ok (String.get k w)) /\
    (forall i j, i < 3 -> j < 3 ->
       (forall v w, In (v, w) Samples.crossing_solution -> letter_of v w i j = None) ->
       grid_get letters i j = Ok None).
Proof.
  eexists. split; [vm_compute; reflexivity|].
  apply (letter_grid_shows_the_words Examples.two_crossing 3 3 Samples.crossing_solution).
  - exact two_crossing_shared_cells.
  - apply nodup_varb_NoDup. reflexivity.
  - intros v [<-|[<-|[]]]; simpl; auto.
  - exact crossing_solution_consistent.
  - vm_compute. reflexivity.
Defined.
